(** * ddatabase feed: a shallow embedding of [index.js]

    The feed of [index.js] is an append-only log whose blocks are the leaves
    of a Merkle tree numbered in order (flat-tree).  This development embeds
    the feed's operations as pure functions on an explicit feed state and
    proves properties of them.

    Conventions of the embedding.
    - JavaScript numbers that hold indices, lengths and sizes are [Z].
    - A [Buffer] holding a block is a [list byte]; hashes and keys are values
      of an abstract digest type.
    - Node-style callbacks are direct results: an operation returns the
      error (or value) its callback receives together with the feed state
      left behind.  The store completes a request after the current
      tick, in the order the requests were issued, with one exception: the
      tree nodes that [seek] reads are at hand and are answered at once, so
      that a [seek] has run to its answer, or has queued its waiter, when
      it returns.  A read of a slot never written fails, a write
      succeeds.
    - Bounded loops run on a fuel that is shown to suffice. *)

From Stdlib Require Import ZArith List Lia Bool.
From Stdlib.Strings Require Import String Byte.
From stdpp Require Import gmap.
Import ListNotations.
Local Open Scope Z_scope.

(** ** flat-tree arithmetic *)

Module flat.

(** Modelled from the spec: the [flat-tree] package is a dependency of
    [index.js] and not part of the source tree.  The spec (section 3, 4.A)
    fixes it as the standard in-order numbering: the binary representation
    of [index + 1] gives depth (number of trailing zero bits) and offset;
    leaves are even.  The functions below follow the package's arithmetic on
    non-negative indices. *)
Definition twoPow (n : Z) : Z := 2 ^ n.

Definition rightShift (n : Z) : Z := (n - Z.land n 1) / 2.

Fixpoint trailing_zeros (p : positive) : Z :=
  match p with
  | xO q => 1 + trailing_zeros q
  | _ => 0
  end.

Definition depth (index : Z) : Z :=
  match index + 1 with
  | Zpos p => trailing_zeros p
  | _ => 0
  end.

Definition offset (index : Z) : Z :=
  if Z.land index 1 =? 0 then index / 2
  else ((index + 1) / twoPow (depth index) - 1) / 2.

Definition index (depth offset : Z) : Z :=
  (1 + 2 * offset) * twoPow depth - 1.

Definition sibling (i : Z) : Z :=
  let d := depth i in
  let o := offset i in
  index d (if Z.land o 1 =? 0 then o + 1 else o - 1).

Definition parent (i : Z) : Z :=
  let d := depth i in
  let o := offset i in
  index (d + 1) (rightShift o).

Definition leftChild (i : Z) : Z :=
  if Z.land i 1 =? 0 then -1
  else index (depth i - 1) (offset i * 2).

Definition rightChild (i : Z) : Z :=
  if Z.land i 1 =? 0 then -1
  else index (depth i - 1) (1 + offset i * 2).

Definition rightSpan (i : Z) : Z :=
  if Z.land i 1 =? 0 then i
  else (offset i + 1) * twoPow (depth i + 1) - 2.

Definition leftSpan (i : Z) : Z :=
  if Z.land i 1 =? 0 then i
  else offset i * twoPow (depth i + 1).

(** [fullRoots]: the loop peels the largest power of two off the number of
    leaves; [Z.log2] stands for the inner doubling loop. *)
Fixpoint fullRoots_loop (fuel : nat) (leaves offset : Z) : list Z :=
  match fuel with
  | O => []
  | S fuel' =>
      if leaves <=? 0 then []
      else
        let factor := twoPow (Z.log2 leaves) in
        (offset + factor - 1)
          :: fullRoots_loop fuel' (leaves - factor) (offset + 2 * factor)
  end.

Definition fullRoots (index : Z) : list Z :=
  fullRoots_loop (S (Z.to_nat (Z.log2 (index / 2)))) (index / 2) 0.

End flat.

(** ** Bit fields *)

(** Modelled from the spec: [lib/bitfield.js] and the [sparse-bitfield]
    package are not part of the source tree.  The spec (section 3, 4.C)
    gives a bit field as a presence map with [get(i)] and
    [set(i, bool) -> changed] and a [length] in bits; a bit never written
    reads as unset and setting a bit past the end grows the field. *)
Module bits.

Definition t := list bool.

Definition get (b : t) (i : Z) : bool :=
  if i <? 0 then false else nth (Z.to_nat i) b false.

Definition length (b : t) : Z := Z.of_nat (List.length b).

Fixpoint set_nat (b : t) (i : nat) (v : bool) : t :=
  match i, b with
  | O, [] => [v]
  | O, _ :: rest => v :: rest
  | S j, [] => false :: set_nat [] j v
  | S j, x :: rest => x :: set_nat rest j v
  end.

Definition set (b : t) (i : Z) (v : bool) : t :=
  if i <? 0 then b else set_nat b (Z.to_nat i) v.

(** [set] of the source returns whether the bit changed. *)
Definition changed (b : t) (i : Z) (v : bool) : bool :=
  negb (Bool.eqb (get b i) v).

Definition fill0 (b : t) : t := map (fun _ => false) b.

End bits.

(** ** Length recovery on open *)

(** [trimLength]: [len] counts down while the bit below it is unset. *)
Fixpoint trimLength_loop (bitfield : bits.t) (len : nat) : Z :=
  match len with
  | O => 0
  | S len' =>
      if bits.get bitfield (Z.of_nat len')
      then Z.of_nat len
      else trimLength_loop bitfield len'
  end.

Definition trimLength (bitfield : bits.t) : Z :=
  if bits.length bitfield =? 0 then 0
  else trimLength_loop bitfield (List.length bitfield).

(** The inner loop of [_open]:
    [while (len > 0 && !self.tree.bitfield.get(len - 1)) len -= 2]. *)
Fixpoint open_stepback (tree : bits.t) (fuel : nat) (len : Z) : Z :=
  match fuel with
  | O => len
  | S fuel' =>
      if (0 <? len) && negb (bits.get tree (len - 1))
      then open_stepback tree fuel' (len - 2)
      else len
  end.

(** The length computed by [_open] (lines 130-141); the feed's [length] is
    0 before. *)
Definition open_length (tree : bits.t) : Z :=
  let len := trimLength tree in
  if len =? 0 then 0
  else
    let len :=
      if Z.land len 1 =? 0
      then open_stepback tree (Z.to_nat len) (len - 1)
      else len in
    if 0 <? len then (len + 1) / 2 else 0.


(** ** Hashes, signatures and tree nodes *)

Module storage_node.

(** [storage.Node(index, hash, size)]. *)
Record Node {D : Type} := mkNode { index : Z; hash : D; size : Z }.
Arguments Node : clear implicits.
Arguments mkNode {D} _ _ _.

End storage_node.
Export storage_node (Node, mkNode).

(** The primitives of [lib/hash.js] and of the [sodium-signatures] package,
    neither of which is part of the source tree, are an interface.  A
    [digest] is a 32-byte buffer: a hash or a public key. *)
Class Crypto := {
  digest : Type;
  digest_eq_dec :: EqDecision digest;
  secret : Type;
  signature : Type;
  (** leaf hash of a block: [H_leaf(len ‖ bytes)] *)
  H_leaf : list byte -> digest;
  (** parent hash [H_parent(size ‖ leftHash ‖ rightHash)] *)
  H_parent : Z -> digest -> digest -> digest;
  (** hash of a root set [H_roots(root1 ‖ root2 ‖ ...)] *)
  H_roots : list (Node digest) -> digest;
  (** keyed hash of the fixed label under the public key *)
  H_discovery : digest -> digest;
  sign : digest -> secret -> signature;
  verify : digest -> signature -> digest -> bool
}.

Module hash.
Section hash.
Context `{Crypto}.
Import storage_node.

(** Modelled from the spec: [lib/hash.js] is not part of the source tree.
    Section 3 gives the leaf hash as [H_leaf(len ‖ bytes)], the parent hash
    as [H_parent(leftSize+rightSize ‖ leftHash ‖ rightHash)] and the hash of
    a root set as [H_roots(root1 ‖ root2 ‖ ...)]; section 4.F (put, step 4)
    orders the two children by index, left child first. *)
Definition data (d : list byte) : digest := H_leaf d.

Definition parent (a b : Node digest) : digest :=
  let l := if index b <? index a then b else a in
  let r := if index b <? index a then a else b in
  H_parent (size l + size r) (hash l) (hash r).

Definition tree (roots : list (Node digest)) : digest := H_roots roots.

Definition discoveryKey (key : digest) : digest := H_discovery key.

End hash.
End hash.

(** ** Random-access files *)

Module raf.

(** Modelled from the spec: the random-access store (section 6, storage
    provider) supports [read(offset, length)] and [write(offset, bytes)] and
    reports [NotFound] for reads past the end of the file.  A write past the
    end fills the gap with zero bytes. *)
Definition write (file : list byte) (offset : Z) (bytes : list byte) : list byte :=
  let o := Z.to_nat offset in
  let n := List.length bytes in
  firstn o file ++ repeat x00 (o - List.length file) ++ bytes ++ skipn (o + n) file.

Definition read (file : list byte) (offset len : Z) : option (list byte) :=
  if (0 <=? offset) && (0 <=? len) && (offset + len <=? Z.of_nat (List.length file))
  then Some (firstn (Z.to_nat len) (skipn (Z.to_nat offset) file))
  else None.

End raf.

(** ** Storage binding *)

Module storage.
Section storage.
Context `{Crypto}.
Import storage_node.

(** The persisted bit field holds the data bits and the tree bits. *)
Record Bitfield := mkBitfield { data_bits : bits.t; tree_bits : bits.t }.

(** Modelled from the spec: [lib/storage.js] is not part of the source tree.
    Section 4.E: [data] holds the blocks concatenated, the offset of a block
    being computed from the sizes kept in the tree nodes; [tree] holds one
    record [(hash, size)] per tree index; [signatures] one record per leaf
    index; [key] and [secretKey] single records; [bitfield] the pages of the
    bit field.  Reads of a record never written fail with [NotFound]. *)
Record t := mk {
  tree : gmap Z (digest * Z);
  data : list byte;
  signatures : gmap Z signature;
  key : option digest;
  secretKey : option secret;
  bitfield : Bitfield;
  closed : bool
}.

Definition empty : t :=
  {| tree := ∅; data := []; signatures := ∅; key := None; secretKey := None;
     bitfield := mkBitfield [] []; closed := false |}.

Definition getNode (st : t) (i : Z) : option (Node digest) :=
  match tree st !! i with
  | Some (h, sz) => Some (mkNode i h sz)
  | None => None
  end.

Definition putNode (st : t) (i : Z) (n : Node digest) : t :=
  {| tree := <[i := (hash n, size n)]> (tree st); data := data st;
     signatures := signatures st; key := key st; secretKey := secretKey st;
     bitfield := bitfield st; closed := closed st |}.

Definition getSignature (st : t) (i : Z) : option signature := signatures st !! i.

Definition putSignature (st : t) (i : Z) (sig : signature) : t :=
  {| tree := tree st; data := data st;
     signatures := <[i := sig]> (signatures st); key := key st;
     secretKey := secretKey st; bitfield := bitfield st; closed := closed st |}.

Definition write_data (st : t) (offset : Z) (bytes : list byte) : t :=
  {| tree := tree st; data := raf.write (data st) offset bytes;
     signatures := signatures st; key := key st; secretKey := secretKey st;
     bitfield := bitfield st; closed := closed st |}.

Definition write_key (st : t) (k : digest) : t :=
  {| tree := tree st; data := data st; signatures := signatures st;
     key := Some k; secretKey := secretKey st; bitfield := bitfield st;
     closed := closed st |}.

Definition write_secretKey (st : t) (k : secret) : t :=
  {| tree := tree st; data := data st; signatures := signatures st;
     key := key st; secretKey := Some k; bitfield := bitfield st;
     closed := closed st |}.

Definition putBitfield (st : t) (b : Bitfield) : t :=
  {| tree := tree st; data := data st; signatures := signatures st;
     key := key st; secretKey := secretKey st; bitfield := b;
     closed := closed st |}.

Definition close (st : t) : t :=
  {| tree := tree st; data := data st; signatures := signatures st;
     key := key st; secretKey := secretKey st; bitfield := bitfield st;
     closed := true |}.

(** A node is looked up among the nodes at hand first, then in the tree
    file. *)
Definition findNode (cached : list (Node digest)) (i : Z) : option (Node digest) :=
  find (fun n => index n =? i) cached.

Definition lookupNode (st : t) (cached : list (Node digest)) (i : Z)
  : option (Node digest) :=
  match findNode cached i with
  | Some n => Some n
  | None => getNode st i
  end.

Fixpoint sumSizes (st : t) (cached : list (Node digest)) (roots : list Z)
  : option Z :=
  match roots with
  | [] => Some 0
  | r :: rest =>
      match lookupNode st cached r, sumSizes st cached rest with
      | Some n, Some total => Some (size n + total)
      | _, _ => None
      end
  end.

(** The byte range of block [index]: it starts after the blocks before it,
    whose total size is read off the full roots that cover them, and has the
    size kept in its leaf node. *)
Definition dataOffset (st : t) (index : Z) (cached : list (Node digest))
  : option (Z * Z) :=
  match sumSizes st cached (flat.fullRoots (2 * index)),
        lookupNode st cached (2 * index) with
  | Some offset, Some leaf => Some (offset, size leaf)
  | _, _ => None
  end.

Definition getData (st : t) (index : Z) : option (list byte) :=
  match dataOffset st index [] with
  | Some (offset, sz) => raf.read (data st) offset sz
  | None => None
  end.

Definition putData (st : t) (index : Z) (bytes : list byte)
    (nodes : list (Node digest)) : option t :=
  match dataOffset st index nodes with
  | Some (offset, _) => Some (write_data st offset bytes)
  | None => None
  end.

End storage.
End storage.

(** ** Merkle generator *)

Module merkle.
Section merkle.
Context `{Crypto}.
Import storage_node.

(** Modelled from the spec: the [merkle-tree-stream] generator is a
    dependency and not part of the source tree.  Section 4.F (append,
    step 2): fed a block, the generator yields the new leaf node plus any
    freshly produced parent nodes, and keeps the current roots.  [roots] is
    in array order; the generator works at the end of the array. *)
Record t := mk { roots : list (Node digest); blocks : Z }.

(** [merkle(hash, roots)] *)
Definition create (rs : list (Node digest)) : t :=
  {| roots := rs;
     blocks := match last rs with
               | Some r => 1 + flat.rightSpan (index r) / 2
               | None => 0
               end |}.

(** The merging loop of [next] on the reversed array (last root first):
    while the last two roots have the same parent, they are replaced by it.
    Returns the reversed roots and the parents produced, oldest first. *)
Fixpoint merge (fuel : nat) (stack : list (Node digest))
  : list (Node digest) * list (Node digest) :=
  match fuel with
  | O => (stack, [])
  | S fuel' =>
      match stack with
      | r :: l :: rest =>
          if flat.parent (index l) =? flat.parent (index r)
          then
            let p := mkNode (flat.parent (index l)) (hash.parent l r)
                            (size l + size r) in
            let '(stack', made) := merge fuel' (p :: rest) in
            (stack', p :: made)
          else (stack, [])
      | _ => (stack, [])
      end
  end.

(** [next(data)]: the nodes produced and the generator afterwards. *)
Definition next (g : t) (d : list byte) : list (Node digest) * t :=
  let leaf := mkNode (2 * blocks g) (hash.data d) (Z.of_nat (List.length d)) in
  let '(stack, made) := merge (List.length (roots g)) (leaf :: rev (roots g)) in
  (leaf :: made, {| roots := rev stack; blocks := blocks g + 1 |}).

End merkle.
End merkle.

(** ** The feed *)

(** Messages of the errors raised by [index.js]. *)
Inductive Error :=
| AnotherStored        (* 'Another hypercore is stored here' *)
| NoneStored           (* 'No hypercore is stored here' *)
| DownloadCancelled    (* 'Download was cancelled' *)
| NoProofAvailable     (* 'No proof available for this index' *)
| UnableToSeek         (* 'Unable to seek to this offset' *)
| OutOfBounds          (* 'Out of bounds' *)
| NoTreeRoots          (* 'Remote did not send tree roots' *)
| NoSignature          (* 'Remote did not include a signature' *)
| BadSignature         (* 'Remote signature could not be verified' *)
| ChecksumFailed       (* 'Remote checksum failed' *)
| BlockNotDownloaded   (* 'Block not downloaded' *)
| NotWritable          (* 'This feed is not writable. Did you create it?' *)
| StorageNotFound.     (* a storage read of a record never written *)

Definition message (e : Error) : string :=
  match e with
  | AnotherStored => "Another hypercore is stored here"
  | NoneStored => "No hypercore is stored here"
  | DownloadCancelled => "Download was cancelled"
  | NoProofAvailable => "No proof available for this index"
  | UnableToSeek => "Unable to seek to this offset"
  | OutOfBounds => "Out of bounds"
  | NoTreeRoots => "Remote did not send tree roots"
  | NoSignature => "Remote did not include a signature"
  | BadSignature => "Remote signature could not be verified"
  | ChecksumFailed => "Remote checksum failed"
  | BlockNotDownloaded => "Block not downloaded"
  | NotWritable => "This feed is not writable. Did you create it?"
  | StorageNotFound => "No node found"
  end%string.

(** What a callback receives: an error or a value. *)
Inductive Result (A : Type) :=
| Err (e : Error)
| Ok (a : A).
Arguments Err {A} e.
Arguments Ok {A} a.

(** The value codec is an interface (the [codecs] package); [binary] tells
    whether the codec is [codecs.binary], whose blocks [get] hands over
    undecoded. *)
Record Codec (value : Type) := mkCodec {
  encode : value -> list byte;
  decode : list byte -> value;
  binary : bool
}.
Arguments encode {value}.
Arguments decode {value}.
Arguments binary {value}.

(** The tree index of [lib/tree-index.js], which is not part of the source
    tree, wraps the tree bit field: [tree.get(i)] reads bit [i].  Marking a
    node and planning a proof are an interface; [proof] returns the indices
    of the nodes to send and [verifiedBy], or nothing when the node is not
    stored. *)
Class TreeIndex := {
  proofOpts : Type;
  noOpts : proofOpts;
  tree_set : bits.t -> Z -> bits.t;
  tree_proof : bits.t -> Z -> proofOpts -> option (list Z * Z)
}.

(** A pending read, as pushed on [_waiting] by [get] and [seek]. *)
Record Waiter := mkWaiter {
  w_hash : bool;
  w_bytes : Z;
  w_index : Z;
  w_start : Z;
  w_end : Z;
  w_callback : nat
}.

(** A download selection, as pushed on [_selections] by [download]. *)
Record Selection := mkSelection {
  sel_index : Z;
  sel_hash : bool;
  sel_start : Z;
  sel_end : Z;
  sel_linear : bool;
  sel_callback : option nat
}.

Module Feed.
Section Feed.
Context `{Crypto}.

Record t := mk {
  live : bool;
  sparse : bool;
  length : Z;
  byteLength : Z;
  key : option digest;
  discoveryKey : option digest;
  secretKey : option secret;
  bitfield : bits.t;
  tree : bits.t;
  writable : bool;
  readable : bool;
  opened : bool;
  _indexing : bool;
  _createIfMissing : bool;
  _overwrite : bool;
  _merkle : option merkle.t;
  _storage : storage.t;
  _waiting : list Waiter;
  _selections : list Selection
}.

Definition with_live (v : bool) (s : t) : t :=
  mk v (sparse s) (length s) (byteLength s) (key s) (discoveryKey s)
     (secretKey s) (bitfield s) (tree s) (writable s) (readable s) (opened s)
     (_indexing s) (_createIfMissing s) (_overwrite s) (_merkle s) (_storage s)
     (_waiting s) (_selections s).

Definition with_length (v : Z) (s : t) : t :=
  mk (live s) (sparse s) v (byteLength s) (key s) (discoveryKey s)
     (secretKey s) (bitfield s) (tree s) (writable s) (readable s) (opened s)
     (_indexing s) (_createIfMissing s) (_overwrite s) (_merkle s) (_storage s)
     (_waiting s) (_selections s).

Definition with_byteLength (v : Z) (s : t) : t :=
  mk (live s) (sparse s) (length s) v (key s) (discoveryKey s)
     (secretKey s) (bitfield s) (tree s) (writable s) (readable s) (opened s)
     (_indexing s) (_createIfMissing s) (_overwrite s) (_merkle s) (_storage s)
     (_waiting s) (_selections s).

Definition with_key (v : option digest) (s : t) : t :=
  mk (live s) (sparse s) (length s) (byteLength s) v (discoveryKey s)
     (secretKey s) (bitfield s) (tree s) (writable s) (readable s) (opened s)
     (_indexing s) (_createIfMissing s) (_overwrite s) (_merkle s) (_storage s)
     (_waiting s) (_selections s).

Definition with_discoveryKey (v : option digest) (s : t) : t :=
  mk (live s) (sparse s) (length s) (byteLength s) (key s) v
     (secretKey s) (bitfield s) (tree s) (writable s) (readable s) (opened s)
     (_indexing s) (_createIfMissing s) (_overwrite s) (_merkle s) (_storage s)
     (_waiting s) (_selections s).

Definition with_secretKey (v : option secret) (s : t) : t :=
  mk (live s) (sparse s) (length s) (byteLength s) (key s) (discoveryKey s)
     v (bitfield s) (tree s) (writable s) (readable s) (opened s)
     (_indexing s) (_createIfMissing s) (_overwrite s) (_merkle s) (_storage s)
     (_waiting s) (_selections s).

Definition with_bitfield (v : bits.t) (s : t) : t :=
  mk (live s) (sparse s) (length s) (byteLength s) (key s) (discoveryKey s)
     (secretKey s) v (tree s) (writable s) (readable s) (opened s)
     (_indexing s) (_createIfMissing s) (_overwrite s) (_merkle s) (_storage s)
     (_waiting s) (_selections s).

Definition with_tree (v : bits.t) (s : t) : t :=
  mk (live s) (sparse s) (length s) (byteLength s) (key s) (discoveryKey s)
     (secretKey s) (bitfield s) v (writable s) (readable s) (opened s)
     (_indexing s) (_createIfMissing s) (_overwrite s) (_merkle s) (_storage s)
     (_waiting s) (_selections s).

Definition with_writable (v : bool) (s : t) : t :=
  mk (live s) (sparse s) (length s) (byteLength s) (key s) (discoveryKey s)
     (secretKey s) (bitfield s) (tree s) v (readable s) (opened s)
     (_indexing s) (_createIfMissing s) (_overwrite s) (_merkle s) (_storage s)
     (_waiting s) (_selections s).

Definition with_readable (v : bool) (s : t) : t :=
  mk (live s) (sparse s) (length s) (byteLength s) (key s) (discoveryKey s)
     (secretKey s) (bitfield s) (tree s) (writable s) v (opened s)
     (_indexing s) (_createIfMissing s) (_overwrite s) (_merkle s) (_storage s)
     (_waiting s) (_selections s).

Definition with_opened (v : bool) (s : t) : t :=
  mk (live s) (sparse s) (length s) (byteLength s) (key s) (discoveryKey s)
     (secretKey s) (bitfield s) (tree s) (writable s) (readable s) v
     (_indexing s) (_createIfMissing s) (_overwrite s) (_merkle s) (_storage s)
     (_waiting s) (_selections s).

Definition with_overwrite (v : bool) (s : t) : t :=
  mk (live s) (sparse s) (length s) (byteLength s) (key s) (discoveryKey s)
     (secretKey s) (bitfield s) (tree s) (writable s) (readable s) (opened s)
     (_indexing s) (_createIfMissing s) v (_merkle s) (_storage s)
     (_waiting s) (_selections s).

Definition with_merkle (v : option merkle.t) (s : t) : t :=
  mk (live s) (sparse s) (length s) (byteLength s) (key s) (discoveryKey s)
     (secretKey s) (bitfield s) (tree s) (writable s) (readable s) (opened s)
     (_indexing s) (_createIfMissing s) (_overwrite s) v (_storage s)
     (_waiting s) (_selections s).

Definition with_storage (v : storage.t) (s : t) : t :=
  mk (live s) (sparse s) (length s) (byteLength s) (key s) (discoveryKey s)
     (secretKey s) (bitfield s) (tree s) (writable s) (readable s) (opened s)
     (_indexing s) (_createIfMissing s) (_overwrite s) (_merkle s) v
     (_waiting s) (_selections s).

Definition with_waiting (v : list Waiter) (s : t) : t :=
  mk (live s) (sparse s) (length s) (byteLength s) (key s) (discoveryKey s)
     (secretKey s) (bitfield s) (tree s) (writable s) (readable s) (opened s)
     (_indexing s) (_createIfMissing s) (_overwrite s) (_merkle s) (_storage s)
     v (_selections s).

Definition with_selections (v : list Selection) (s : t) : t :=
  mk (live s) (sparse s) (length s) (byteLength s) (key s) (discoveryKey s)
     (secretKey s) (bitfield s) (tree s) (writable s) (readable s) (opened s)
     (_indexing s) (_createIfMissing s) (_overwrite s) (_merkle s) (_storage s)
     (_waiting s) v.

End Feed.
End Feed.

(** Options of the constructor; [None] is an option left out. *)
Record Options := mkOptions {
  opt_live : option bool;
  opt_sparse : option bool;
  opt_indexing : option bool;
  opt_createIfMissing : option bool;
  opt_overwrite : option bool
}.

Definition noOptions : Options := mkOptions None None None None None.

(** [!!x] for a value that is missing or an object. *)
Definition is_some {A : Type} (x : option A) : bool :=
  match x with
  | Some _ => true
  | None => false
  end.

(** What an operation has done with its callback by the time it returns
    control: called it, or parked the request. *)
Inductive Outcome (A : Type) :=
| Pending
| Done (r : Result A).
Arguments Pending {A}.
Arguments Done {A} r.

Section operations.
Context `{Crypto} `{TreeIndex}.
Context {value : Type} (codec : Codec value).
(** The pair that [signatures.keyPair()] returns when [_open] asks for one. *)
Context (keyPair : digest * secret).
Import storage_node.

(** [opts.x !== false] and [!!opts.x] *)
Definition not_false (o : option bool) : bool :=
  match o with Some false => false | _ => true end.

Definition truthy (o : option bool) : bool :=
  match o with Some true => true | _ => false end.

Definition addSize (sz : Z) (node : Node digest) : Z := sz + size node.

Definition isBlock (index : Z) : bool := Z.land index 1 =? 0.

Definition verifyNode (trusted : option (Node digest)) (node : Node digest) : bool :=
  match trusted with
  | Some t => (index t =? index node) && bool_decide (hash t = hash node)
  | None => false
  end.

(** [download(range)] on a range given as an object; [x || d] replaces a
    missing or zero bound by the default. *)
Definition or_default (x : option Z) (d : Z) : Z :=
  match x with
  | Some v => if v =? 0 then d else v
  | None => d
  end.

Record Range := mkRange {
  r_start : option Z;
  r_end : option Z;
  r_hash : bool;
  r_linear : bool
}.

Definition download (s : Feed.t) (range : Range) (cb : option nat)
  : Selection * Feed.t :=
  let sel := {| sel_index := Z.of_nat (List.length (Feed._selections s));
                sel_hash := r_hash range;
                sel_start := or_default (r_start range) 0;
                sel_end := or_default (r_end range) (-1);
                sel_linear := r_linear range;
                sel_callback := cb |} in
  (sel, Feed.with_selections (Feed._selections s ++ [sel]) s).

(** The constructor: the feed before it is opened.  A feed that is not
    sparse selects everything for download. *)
Definition create (st : storage.t) (key : option digest) (opts : Options) : Feed.t :=
  let s :=
    {| Feed.live := not_false (opt_live opts);
       Feed.sparse := truthy (opt_sparse opts);
       Feed.length := 0;
       Feed.byteLength := 0;
       Feed.key := key;
       Feed.discoveryKey := option_map hash.discoveryKey key;
       Feed.secretKey := None;
       Feed.bitfield := [];
       Feed.tree := [];
       Feed.writable := false;
       Feed.readable := true;
       Feed.opened := false;
       Feed._indexing := truthy (opt_indexing opts);
       Feed._createIfMissing := not_false (opt_createIfMissing opts);
       Feed._overwrite := truthy (opt_overwrite opts);
       Feed._merkle := None;
       Feed._storage := st;
       Feed._waiting := [];
       Feed._selections := [] |} in
  if Feed.sparse s then s
  else snd (download s (mkRange (Some 0) (Some (-1)) false false) None).

(** [_roots(index)]: the stored nodes at the full roots of [2 * index]. *)
Fixpoint getNodes (st : storage.t) (indexes : list Z) : option (list (Node digest)) :=
  match indexes with
  | [] => Some []
  | i :: rest =>
      match storage.getNode st i, getNodes st rest with
      | Some n, Some ns => Some (n :: ns)
      | _, _ => None
      end
  end.

Definition _roots (s : Feed.t) (index : Z) : Result (list (Node digest)) :=
  match getNodes (Feed._storage s) (flat.fullRoots (2 * index)) with
  | Some ns => Ok ns
  | None => Err StorageNotFound
  end.

(** [_open], lines 109-200, callback by callback. *)

(** [onopen], lines 117-125: with no key but data the bit field is reset,
    since the data cannot be verified. *)
Definition open_overwrite (s : Feed.t) : bool :=
  let st := Feed._storage s in
  let stored := storage.bitfield st in
  Feed._overwrite s
  || (negb (is_some (storage.key st))
      && negb (bits.length (storage.data_bits stored)
               + bits.length (storage.tree_bits stored) =? 0)).

Definition open_bitfield (s : Feed.t) : storage.Bitfield :=
  let stored := storage.bitfield (Feed._storage s) in
  if open_overwrite s
  then storage.mkBitfield (bits.fill0 (storage.data_bits stored))
                          (bits.fill0 (storage.tree_bits stored))
  else stored.

Definition open_state_key (s : Feed.t) : option digest :=
  if open_overwrite s then None else storage.key (Feed._storage s).

Definition open_state_secretKey (s : Feed.t) : option secret :=
  if open_overwrite s then None else storage.secretKey (Feed._storage s).

(** [onopen], lines 127-141: bit field, tree index and length. *)
Definition open_load (s : Feed.t) : Feed.t :=
  let stored := open_bitfield s in
  let len := open_length (storage.tree_bits stored) in
  let s' := Feed.with_tree (storage.tree_bits stored)
              (Feed.with_bitfield (storage.data_bits stored)
                 (Feed.with_overwrite (open_overwrite s) s)) in
  if 0 <? len then Feed.with_length len s' else s'.

(** [onopen], lines 143-148: the stored key against the key given. *)
Definition open_keys (state_key : option digest) (state_secretKey : option secret)
    (s : Feed.t) : Result Feed.t :=
  let mismatch :=
    match state_key, Feed.key s with
    | Some k1, Some k2 => negb (bool_decide (k1 = k2))
    | _, _ => false
    end in
  if mismatch then Err AnotherStored
  else
    let s := match state_key with
             | Some k => Feed.with_key (Some k) s
             | None => s
             end in
    Ok (match state_secretKey with
        | Some k => Feed.with_secretKey (Some k) s
        | None => s
        end).

(** [onsignature], lines 153-167: the error, if any, and the feed. *)
Definition open_onsignature (sig : option signature) (s : Feed.t)
  : option Error * Feed.t :=
  let s := if Feed.length s =? 0 then s
           else Feed.with_live (is_some sig) s in
  if negb (is_some (Feed.key s)) && negb (Feed._createIfMissing s)
  then (Some NoneStored, s)
  else
    let s :=
      if negb (is_some (Feed.key s)) && Feed.live s
      then Feed.with_key (Some (fst keyPair))
             (Feed.with_secretKey (Some (snd keyPair)) s)
      else s in
    let s := Feed.with_writable
               (is_some (Feed.secretKey s)
                || negb (is_some (Feed.key s))) s in
    (None, Feed.with_discoveryKey (option_map hash.discoveryKey (Feed.key s)) s).

(** Lines 169-177: the keys and, after a reset, the bit field are written. *)
Definition open_write (stored : storage.Bitfield) (s : Feed.t) : Feed.t :=
  let st := Feed._storage s in
  let st := match Feed.key s with
            | Some k => storage.write_key st k
            | None => st
            end in
  let st := match Feed.secretKey s with
            | Some k => storage.write_secretKey st k
            | None => st
            end in
  let st := if Feed._overwrite s then storage.putBitfield st stored else st in
  Feed.with_storage st s.

(** [onroots], lines 188-197. *)
Definition open_onroots (s : Feed.t) : Result unit * Feed.t :=
  match _roots s (Feed.length s) with
  | Err e => (Err e, s)
  | Ok roots =>
      (Ok tt,
       Feed.with_opened true
         (Feed.with_byteLength (fold_left addSize roots 0)
            (Feed.with_merkle (Some (merkle.create roots)) s)))
  end.

Definition _open (s : Feed.t) : Result unit * Feed.t :=
  let s1 := open_load s in
  match open_keys (open_state_key s) (open_state_secretKey s) s1 with
  | Err e => (Err e, s1)
  | Ok s2 =>
      let sig :=
        if Feed.length s2 =? 0 then None
        else storage.getSignature (Feed._storage s2) (Feed.length s2 - 1) in
      match open_onsignature sig s2 with
      | (Some e, s3) => (Err e, s3)
      | (None, s3) => open_onroots (open_write (open_bitfield s) s3)
      end
  end.

(** [_ready]: the feed is opened once; a feed already open is left alone. *)
Definition _ready (s : Feed.t) : Result unit * Feed.t :=
  if Feed.opened s then (Ok tt, s) else _open s.

(** A proof as sent by a peer: nodes and, possibly, a signature. *)
Record MerkleProof := mkProof {
  nodes : list (Node digest);
  proof_signature : option signature
}.

(** [proof(index, opts)], lines 252-291, on an open feed. *)
Definition proof (s : Feed.t) (index : Z) (opts : proofOpts) : Result MerkleProof :=
  match tree_proof (Feed.tree s) (2 * index) opts with
  | None => Err NoProofAvailable
  | Some (indexes, verifiedBy) =>
      let needsSig := Feed.live s && negb (verifiedBy =? 0) in
      match getNodes (Feed._storage s) indexes with
      | None => Err StorageNotFound
      | Some ns =>
          if needsSig then
            match storage.getSignature (Feed._storage s) (verifiedBy / 2 - 1) with
            | Some sig => Ok (mkProof ns (Some sig))
            | None => Err StorageNotFound
            end
          else Ok (mkProof ns None)
      end
  end.

(** [_seek(offset, cb)], lines 350-397: the tree index and residual offset
    reached from the stored nodes. *)
Fixpoint seek_left (s : Feed.t) (fuel : nat) (child nearestRoot : Z)
  : option (Z + Z) :=
  (* the loop [while (!self.tree.get(left))]: [inl] is the node to load,
     [inr] the answer when a missing leaf is reached *)
  match fuel with
  | O => None
  | S fuel' =>
      if bits.get (Feed.tree s) child then Some (inl child)
      else if isBlock child then Some (inr nearestRoot)
      else seek_left s fuel' (flat.leftChild child) nearestRoot
  end.

Fixpoint seek_onroot (s : Feed.t) (fuel : nat) (top offset nearestRoot : Z)
  : option (Result (Z * Z)) :=
  match fuel with
  | O => None
  | S fuel' =>
      if isBlock top then Some (Ok (top, offset))
      else
        match seek_left s fuel (flat.leftChild top) nearestRoot with
        | None => None
        | Some (inr found) => Some (Ok (found, offset))
        | Some (inl child) =>
            match storage.getNode (Feed._storage s) child with
            | None => Some (Err StorageNotFound)
            | Some node =>
                if offset <? size node
                then seek_onroot s fuel' (index node) offset (index node)
                else seek_onroot s fuel' (flat.sibling (index node))
                                 (offset - size node) nearestRoot
            end
        end
  end.

Fixpoint seek_loop (s : Feed.t) (roots : list Z) (offset : Z)
  : option (Result (Z * Z)) :=
  match roots with
  | [] => Some (Err OutOfBounds)
  | r :: rest =>
      match storage.getNode (Feed._storage s) r with
      | None => Some (Err StorageNotFound)
      | Some node =>
          if offset <? size node
          then seek_onroot s (S (Z.to_nat (flat.depth (index node))))
                           (index node) offset (index node)
          else seek_loop s rest (offset - size node)
      end
  end.

Definition _seek (s : Feed.t) (offset : Z) : option (Result (Z * Z)) :=
  if offset =? 0 then Some (Ok (0, 0))
  else seek_loop s (flat.fullRoots (Feed.length s * 2)) offset.

Record SeekOpts := mkSeekOpts {
  so_wait : option bool;
  so_start : option Z;
  so_end : option Z;
  so_hash : option bool
}.

(** [seek(bytes, opts, cb)], lines 306-348, on an open feed. *)
Definition seek (s : Feed.t) (bytes : Z) (opts : SeekOpts) (cb : nat)
  : option (Outcome (Z * Z) * Feed.t) :=
  match _seek s bytes with
  | None => None
  | Some r =>
      let found := match r with
                   | Ok (i, off) => if isBlock i then Some (i / 2, off) else None
                   | Err _ => None
                   end in
      match found with
      | Some ans => Some (Done (Ok ans), s)
      | None =>
          if negb (not_false (so_wait opts))
          then Some (Done (Err (match r with Err e => e | Ok _ => UnableToSeek end)), s)
          else
            let start := or_default (so_start opts) 0 in
            let end_ := or_default (so_end opts) (-1) in
            let '(start, end_) :=
              match r with
              | Ok (i, _) =>
                  let lo := flat.leftSpan i / 2 in
                  let hi := flat.rightSpan i / 2 + 1 in
                  (if start <? lo then lo else start,
                   if (hi <? end_) || (end_ =? -1) then hi else end_)
              | Err _ => (start, end_)
              end in
            if (-1 <? end_) && (end_ <=? start)
            then Some (Done (Err UnableToSeek), s)
            else
              let w := {| w_hash := not_false (so_hash opts); w_bytes := bytes;
                          w_index := -1; w_start := start; w_end := end_;
                          w_callback := cb |} in
              Some (Pending, Feed.with_waiting (Feed._waiting s ++ [w]) s)
      end
  end.

(** What [get] hands to its callback: the raw block under the binary
    codec, the decoded value otherwise. *)
Inductive Block :=
| Raw (b : list byte)
| Value (v : value).

(** [get(index, opts, cb)], lines 624-640, on an open feed; [wait] is
    [opts.wait !== false].  The timeout of [opts] is real time and is left
    out. *)
Definition get (s : Feed.t) (index : Z) (wait : bool) (cb : nat)
  : Outcome Block * Feed.t :=
  if negb (bits.get (Feed.bitfield s) index) then
    if negb wait then (Done (Err BlockNotDownloaded), s)
    else
      let w := {| w_hash := false; w_bytes := 0; w_index := index;
                  w_start := 0; w_end := 0; w_callback := cb |} in
      (Pending, Feed.with_waiting (Feed._waiting s ++ [w]) s)
  else
    match storage.getData (Feed._storage s) index with
    | None => (Done (Err StorageNotFound), s)
    | Some buf =>
        (Done (Ok (if binary codec then Raw buf else Value (decode codec buf))), s)
    end.

(** [remove(arr, i)] of the [unordered-array-remove] package: the last
    element takes the place of element [i]. *)
Definition array_remove {A : Type} (arr : list A) (i : nat) : list A :=
  if (i <? List.length arr)%nat then
    match last arr with
    | Some l =>
        let arr' := removelast arr in
        if (i <? List.length arr')%nat then <[i := l]> arr' else arr'
    | None => arr
    end
  else arr.

Definition waiter_opts (w : Waiter) : SeekOpts :=
  {| so_wait := None; so_start := Some (w_start w); so_end := Some (w_end w);
     so_hash := Some (w_hash w) |}.

(** The loop of [_pollWaiting], lines 792-804.  Every turn either moves on
    ([i++]) or takes a waiter off ([len--]), so the loop makes as many
    turns as there are waiters when it starts: [n] counts the turns left.
    A waiter of [get] whose block is still missing is passed over.  Any
    other waiter is taken off with [remove], which puts the last element
    of the array in its place, and position [i] is looked at again.  A
    waiter for a block that arrived is served by [get], which reads the
    block and leaves the feed as it is; a waiter for a byte offset is handed
    to [seek] inside the loop.  The reads of [seek] are answered at once,
    so a [seek] that still cannot answer has pushed its waiter back on the
    array before the loop goes on: the waiter pushed lies beyond [len], and
    the next [remove] moves it under the index of the loop. *)
Fixpoint pollWaiting_loop (n : nat) (s : Feed.t) (i : nat) : option Feed.t :=
  match n with
  | O => Some s
  | S n' =>
      match Feed._waiting s !! i with
      | None => Some s
      | Some next =>
          if (w_bytes next =? 0) && negb (bits.get (Feed.bitfield s) (w_index next))
          then pollWaiting_loop n' s (S i)
          else
            let s := Feed.with_waiting (array_remove (Feed._waiting s) i) s in
            if w_bytes next =? 0 then pollWaiting_loop n' s i
            else
              match seek s (w_bytes next) (waiter_opts next) (w_callback next) with
              | None => None
              | Some (_, s) => pollWaiting_loop n' s i
              end
      end
  end.

Definition _pollWaiting (s : Feed.t) : option Feed.t :=
  pollWaiting_loop (List.length (Feed._waiting s)) s 0.

(** [_syncBitfield], lines 806-837: the pages that changed are written, so
    that the stored bit field is the one in memory, and the waiters are
    polled. *)
Definition _syncBitfield (s : Feed.t) : option Feed.t :=
  let st := storage.putBitfield (Feed._storage s)
              (storage.mkBitfield (Feed.bitfield s) (Feed.tree s)) in
  _pollWaiting (Feed.with_storage st s).

(** [_writeDone], lines 497-507. *)
Definition _writeDone (s : Feed.t) (index : Z) (ns : list (Node digest))
  : option (Result unit * Feed.t) :=
  let tree := fold_left (fun t n => tree_set t (storage_node.index n)) ns (Feed.tree s) in
  let tree := tree_set tree (2 * index) in
  let s := Feed.with_tree tree s in
  let s := Feed.with_bitfield (bits.set (Feed.bitfield s) index true) s in
  match _syncBitfield s with
  | None => None
  | Some s => Some (Ok tt, s)
  end.

(** [_write], lines 479-495: nodes, block and signature are written; the
    bits are flipped once all three are done. *)
Definition _write (s : Feed.t) (index : Z) (data : list byte)
    (ns : list (Node digest)) (sig : option (Z * signature))
  : option (Result unit * Feed.t) :=
  let st := fold_left (fun st n => storage.putNode st (storage_node.index n) n)
                      ns (Feed._storage s) in
  let written := storage.putData st index data ns in
  let st := match written with Some st' => st' | None => st end in
  let st := match sig with
            | Some (i, sg) => storage.putSignature st i sg
            | None => st
            end in
  let s := Feed.with_storage st s in
  match written with
  | None => Some (Err StorageNotFound, s)
  | Some _ => _writeDone s index ns
  end.

Definition head_is (ns : list (Node digest)) (i : Z) : bool :=
  match ns with
  | n :: _ => index n =? i
  | [] => false
  end.

(** The planning loop of [_putBuffer], lines 424-442: the trusted index
    ([-1] for none) and the indices of the local siblings to load. *)
Fixpoint putBuffer_loop (fuel : nat) (tree : bits.t) (remote : list (Node digest))
    (next : Z) (missing : list Z) : option (Z * list Z) :=
  match fuel with
  | O => None
  | S fuel' =>
      if bits.get tree next then Some (next, missing)
      else
        let sib := flat.sibling next in
        let next := flat.parent next in
        if head_is remote sib
        then putBuffer_loop fuel' tree (tl remote) next missing
        else if negb (bits.get tree sib)
        then Some (if bits.get tree next then next else -1, missing)
        else putBuffer_loop fuel' tree remote next (missing ++ [sib])
  end.

(** Where the hashing loop of [_verifyAndWrite] ends: at the trusted node,
    or with a top that has no sibling at hand. *)
Inductive Climb :=
| Anchored (visited : list (Node digest))
| AtRoots (top : Node digest) (remote visited : list (Node digest)).

(** [nodes.length && nodes[0].index === i], with the rest after [shift()]. *)
Definition shift_if (ns : list (Node digest)) (i : Z)
  : option (Node digest * list (Node digest)) :=
  match ns with
  | n :: rest => if index n =? i then Some (n, rest) else None
  | [] => None
  end.

(** The loop of [_verifyAndWrite], lines 521-544. *)
Fixpoint verify_loop (fuel : nat) (trustedNode : option (Node digest))
    (top : Node digest) (remote localNodes visited : list (Node digest))
  : option Climb :=
  match fuel with
  | O => None
  | S fuel' =>
      let next := flat.sibling (index top) in
      let step node remote localNodes visited :=
        let visited := visited ++ [top] in
        let top := mkNode (flat.parent (index top)) (hash.parent top node)
                          (size top + size node) in
        if verifyNode trustedNode top then Some (Anchored visited)
        else verify_loop fuel' trustedNode top remote localNodes visited in
      match shift_if remote next with
      | Some (node, remote') => step node remote' localNodes (visited ++ [node])
      | None =>
          match shift_if localNodes next with
          | Some (node, local') => step node remote local' visited
          | None => Some (AtRoots top remote visited)
          end
      end
  end.

(** The loop over the root indices in [_verifyRootsAndWrite], lines
    557-569.  Each index is served by the pending top, by the next remote
    node, or by the tree file; [sent] tells that a root was neither sent nor
    stored locally, [read] that a stored root could not be read. *)
Record Roots := mkRoots {
  roots : list (Node digest);
  rest_remote : list (Node digest);
  written : list (Node digest);
  not_sent : bool;
  not_read : bool
}.

Fixpoint collect_roots (s : Feed.t) (top : Node digest) (indexes : list Z)
    (remote ns : list (Node digest)) : Roots :=
  match indexes with
  | [] => mkRoots [] remote ns false false
  | i :: rest =>
      if i =? index top then
        let r := collect_roots s top rest remote (ns ++ [top]) in
        mkRoots (top :: roots r) (rest_remote r) (written r) (not_sent r) (not_read r)
      else
        match shift_if remote i with
        | Some (n, remote') =>
            let r := collect_roots s top rest remote' (ns ++ [n]) in
            mkRoots (n :: roots r) (rest_remote r) (written r) (not_sent r) (not_read r)
        | None =>
            if bits.get (Feed.tree s) i then
              match storage.getNode (Feed._storage s) i with
              | Some n =>
                  let r := collect_roots s top rest remote ns in
                  mkRoots (n :: roots r) (rest_remote r) (written r)
                          (not_sent r) (not_read r)
              | None =>
                  let r := collect_roots s top rest remote ns in
                  mkRoots (roots r) (rest_remote r) (written r) (not_sent r) true
              end
            else
              let r := collect_roots s top rest remote ns in
              mkRoots (roots r) (rest_remote r) (written r) true (not_read r)
        end
  end.

(** [_verifyRootsAndWrite], lines 547-611. *)
Definition verifiedBy_of (top : Node digest) (remote : list (Node digest)) : Z :=
  let lastNode := match last remote with
                  | Some n => index n
                  | None => index top
                  end in
  Z.max (flat.rightSpan (index top)) (flat.rightSpan lastNode) + 2.

Definition _verifyRootsAndWrite (s : Feed.t) (index : Z) (data : list byte)
    (top : Node digest) (remote : list (Node digest)) (sig : option signature)
    (ns : list (Node digest)) : option (Result unit * Feed.t) :=
  let verifiedBy := verifiedBy_of top remote in
  let indexes := flat.fullRoots verifiedBy in
  let r := collect_roots s top indexes remote ns in
  (* the storage answers last, so its error is the one kept *)
  if not_read r then Some (Err StorageNotFound, s)
  else if not_sent r then Some (Err NoTreeRoots, s)
  else
    let checksum := hash.tree (roots r) in
    if negb (Feed.length s =? 0) && Feed.live s && negb (is_some sig)
    then Some (Err NoSignature, s)
    else
      let checked :=
        match sig with
        | Some sg =>
            match Feed.key s with
            | Some k => if verify checksum sg k
                        then Ok (Some (verifiedBy / 2 - 1, sg))
                        else Err BadSignature
            | None => Err BadSignature
            end
        | None =>
            match Feed.key s with
            | Some k => if bool_decide (checksum = k) then Ok None
                        else Err ChecksumFailed
            | None => Err ChecksumFailed
            end
        end in
      match checked with
      | Err e => Some (Err e, s)
      | Ok signed =>
          let s := Feed.with_live (is_some signed) s in
          let length := verifiedBy / 2 in
          let s :=
            if Feed.length s <? length
            then Feed.with_byteLength (fold_left addSize (roots r) 0)
                   (Feed.with_length length s)
            else s in
          _write s index data (written r) signed
      end.

(** The hashing of [_verifyAndWrite], lines 510-544, for a block at hand:
    the leaf is checked against the trusted node, then the loop runs. *)
Definition verify_climb (index : Z) (data : list byte) (remote : list (Node digest))
    (localNodes : list (Node digest)) (trustedNode : option (Node digest))
  : option Climb :=
  let top := mkNode (2 * index) (hash.data data) (Z.of_nat (List.length data)) in
  if verifyNode trustedNode top then Some (Anchored [])
  else verify_loop (S (List.length remote + List.length localNodes))
                   trustedNode top remote localNodes [].

(** [_verifyAndWrite], lines 509-545. *)
Definition _verifyAndWrite (s : Feed.t) (index : Z) (data : list byte)
    (p : MerkleProof) (localNodes : list (Node digest))
    (trustedNode : option (Node digest)) : option (Result unit * Feed.t) :=
  match verify_climb index data (nodes p) localNodes trustedNode with
  | None => None
  | Some (Anchored visited) => _write s index data visited None
  | Some (AtRoots top remote visited) =>
      _verifyRootsAndWrite s index data top remote (proof_signature p) visited
  end.

(** The first half of [_putBuffer], lines 419-463: the plan is made and the
    local siblings and the trusted node are loaded. *)
Definition putBuffer_load (s : Feed.t) (index : Z) (remote : list (Node digest))
  : option (Result (list (Node digest) * option (Node digest))) :=
  match putBuffer_loop (S (S (List.length remote + List.length (Feed.tree s))))
                       (Feed.tree s) remote (2 * index) [] with
  | None => None
  | Some (trusted, missing) =>
      let loaded := getNodes (Feed._storage s) missing in
      let trustedNode :=
        if -1 <? trusted then storage.getNode (Feed._storage s) trusted else None in
      match loaded with
      | None => Some (Err StorageNotFound)
      | Some missingNodes =>
          if (-1 <? trusted) && negb (is_some trustedNode)
          then Some (Err StorageNotFound)
          else Some (Ok (missingNodes, trustedNode))
      end
  end.

(** [_putBuffer], lines 411-469. *)
Definition _putBuffer (s : Feed.t) (index : Z) (data : list byte) (p : MerkleProof)
  : option (Result unit * Feed.t) :=
  match putBuffer_load s index (nodes p) with
  | None => None
  | Some (Err e) => Some (Err e, s)
  | Some (Ok (missingNodes, trustedNode)) =>
      _verifyAndWrite s index data p missingNodes trustedNode
  end.

(** [put(index, data, proof, cb)], lines 301-304. *)
Definition put (s : Feed.t) (index : Z) (data : value) (p : MerkleProof)
  : option (Result unit * Feed.t) :=
  match _ready s with
  | (Err e, s) => Some (Err e, s)
  | (Ok _, s) => _putBuffer s index (encode codec data) p
  end.

(** [finalize(cb)], lines 704-710.  The feed is open, so that the
    generator exists. *)
Definition finalize (s : Feed.t) : Result unit * Feed.t :=
  let s :=
    match Feed.key s, Feed._merkle s with
    | None, Some g =>
        let k := hash.tree (merkle.roots g) in
        Feed.with_discoveryKey (Some (hash.discoveryKey k))
          (Feed.with_key (Some k) s)
    | _, _ => s
    end in
  match Feed.key s with
  | Some k => (Ok tt, Feed.with_storage (storage.write_key (Feed._storage s) k) s)
  | None => (Ok tt, s)
  end.

(** [close(cb)], lines 720-728.  The error of [_ready] is dropped.  Besides
    the answer to [cb], the waiters whose callbacks [close] calls are
    returned: there are none. *)
Definition close (s : Feed.t) : Result unit * list (Waiter * Error) * Feed.t :=
  let s := snd (_ready s) in
  let s := Feed.with_writable false s in
  let s := Feed.with_readable false s in
  (Ok tt, [], Feed.with_storage (storage.close (Feed._storage s)) s).

(** The state of a running [_append]: the feed, the counter [pending], the
    bytes written so far, the storage requests not yet answered, and the
    answers given to [cb]. *)
Record Appending := mkAppending {
  a_feed : Feed.t;
  a_pending : Z;
  a_offset : Z;
  a_requests : nat;
  a_calls : list (Result unit)
}.

(** One turn of the loop that flips the bits when an append completes,
    lines 771-774. *)
Definition append_flip (s : Feed.t) : Feed.t :=
  Feed.with_length (Feed.length s + 1)
    (Feed.with_tree (tree_set (Feed.tree s) (2 * Feed.length s))
       (Feed.with_bitfield (bits.set (Feed.bitfield s) (Feed.length s) true) s)).

(** The completion of [_append], lines 767-780, for a batch of [n]. *)
Definition append_complete (n : nat) (s : Feed.t) (offset : Z) : option Feed.t :=
  _syncBitfield
    (Nat.iter n append_flip (Feed.with_byteLength (Feed.byteLength s + offset) s)).

(** [done], lines 762-781: the counter goes down and the append completes
    when it reaches zero. *)
Definition append_done (n : nat) (a : Appending) : option Appending :=
  let pending := a_pending a - 1 in
  if negb (pending =? 0)
  then Some (mkAppending (a_feed a) pending (a_offset a) (a_requests a) (a_calls a))
  else
    match append_complete n (a_feed a) (a_offset a) with
    | None => None
    | Some s =>
        Some (mkAppending s pending (a_offset a) (a_requests a) (a_calls a ++ [Ok tt]))
    end.

(** One turn of the loop of [_append], lines 741-760, for value [v] at
    position [i] of a batch of [n].  Without a generator or, on a live
    feed, without a secret key the call throws and gives no answer. *)
Definition append_item (n : nat) (a : Appending) (i : Z) (v : value)
  : option Appending :=
  match Feed._merkle (a_feed a) with
  | None => None
  | Some g =>
      let data := encode codec v in
      let '(ns, g) := merkle.next g data in
      let a := mkAppending (Feed.with_merkle (Some g) (a_feed a)) (a_pending a)
                           (a_offset a) (a_requests a) (a_calls a) in
      let written :=
        if Feed._indexing (a_feed a) then append_done n a
        else
          let s := a_feed a in
          let st := storage.write_data (Feed._storage s)
                      (Feed.byteLength s + a_offset a) data in
          Some (mkAppending (Feed.with_storage st s) (a_pending a) (a_offset a)
                            (S (a_requests a)) (a_calls a)) in
      match written with
      | None => None
      | Some a =>
          let signed :=
            if Feed.live (a_feed a) then
              match Feed.secretKey (a_feed a) with
              | Some k =>
                  let s := a_feed a in
                  let sig := sign (hash.tree (merkle.roots g)) k in
                  let st := storage.putSignature (Feed._storage s)
                              (Feed.length s + i) sig in
                  Some (mkAppending (Feed.with_storage st s) (a_pending a)
                                    (a_offset a) (S (a_requests a)) (a_calls a))
              | None => None
              end
            else Some a in
          match signed with
          | None => None
          | Some a =>
              let s := a_feed a in
              let st := fold_left (fun st nd => storage.putNode st (index nd) nd)
                                  ns (Feed._storage s) in
              Some (mkAppending (Feed.with_storage st s)
                                (a_pending a + Z.of_nat (List.length ns))
                                (a_offset a + Z.of_nat (List.length data))
                                (a_requests a + List.length ns)%nat (a_calls a))
          end
      end
  end.

Fixpoint append_items (n : nat) (a : Appending) (i : Z) (batch : list value)
  : option Appending :=
  match batch with
  | [] => Some a
  | v :: rest =>
      match append_item n a i v with
      | None => None
      | Some a => append_items n a (i + 1) rest
      end
  end.

(** The storage answers the requests it was given, one by one. *)
Fixpoint append_answers (n : nat) (requests : nat) (a : Appending)
  : option Appending :=
  match requests with
  | O => Some a
  | S requests' =>
      match append_done n a with
      | None => None
      | Some a => append_answers n requests' a
      end
  end.

(** [_append(batch, cb)], lines 730-782: the answers given to [cb], in
    order, and the feed afterwards. *)
Definition _append (s : Feed.t) (batch : list value)
  : option (list (Result unit) * Feed.t) :=
  match _ready s with
  | (Err e, s) => Some ([Err e], s)
  | (Ok _, s) =>
      if negb (Feed.writable s) then Some ([Err NotWritable], s)
      else
        let n := List.length batch in
        let pending := if Feed.live s then 2 * Z.of_nat n else Z.of_nat n in
        if pending =? 0 then Some ([Ok tt], s)
        else
          match append_items n (mkAppending s pending 0 0 []) 0 batch with
          | None => None
          | Some a =>
              match append_answers n (a_requests a) a with
              | None => None
              | Some a => Some (a_calls a, a_feed a)
              end
          end
  end.

(** [append(batch, cb)] and [flush(cb)], lines 712-718. *)
Definition append (s : Feed.t) (batch : list value) := _append s batch.

Definition flush (s : Feed.t) := _append s [].

(** [has(list, item)] and [remove(list, item)] of the [unordered-set]
    package.  A selection is in the list when the list holds it at the
    position it carries ([item._index < list.length &&
    list[item._index] === item]); two objects are taken for the same one
    when all their fields, the position among them, are equal.  [remove]
    does nothing for a selection that is not in the list; otherwise the
    last selection is popped and, unless it is the one removed, takes its
    place and its position. *)
#[global] Instance Selection_eq_dec : EqDecision Selection.
Proof. solve_decision. Defined.

Definition set_has (l : list Selection) (item : Selection) : bool :=
  if sel_index item <? 0 then false
  else
    match l !! Z.to_nat (sel_index item) with
    | Some x => bool_decide (x = item)
    | None => false
    end.

Definition set_remove (l : list Selection) (item : Selection) : list Selection :=
  if negb (set_has l item) then l
  else
    match last l with
    | None => l
    | Some moved =>
        let l' := removelast l in
        if bool_decide (moved = item) then l'
        else <[Z.to_nat (sel_index item) :=
                 mkSelection (sel_index item) (sel_hash moved) (sel_start moved)
                             (sel_end moved) (sel_linear moved)
                             (sel_callback moved)]> l'
    end.

Definition selection_matches (start end_ : Z) (h linear : bool) (x : Selection)
  : bool :=
  (sel_start x =? start) && (sel_end x =? end_)
  && Bool.eqb (sel_hash x) h && Bool.eqb (sel_linear x) linear.

Fixpoint splice_first (l : list Selection) (f : Selection -> bool) : list Selection :=
  match l with
  | [] => []
  | x :: rest => if f x then rest else x :: splice_first rest f
  end.

(** [undownload(range)], lines 223-246, for a selection returned by
    [download] (left) or a range given by its bounds (right).  The answer
    is the error handed to the callback of a cancelled selection. *)
Definition undownload (s : Feed.t) (range : Selection + Range)
  : option Error * Feed.t :=
  match range with
  | inl sel =>
      if -1 <? sel_index sel
      then (Some DownloadCancelled,
            Feed.with_selections (set_remove (Feed._selections s) sel) s)
      else
        (None,
         Feed.with_selections
           (splice_first (Feed._selections s)
              (selection_matches (or_default (Some (sel_start sel)) 0)
                 (or_default (Some (sel_end sel)) (-1))
                 (sel_hash sel) (sel_linear sel))) s)
  | inr r =>
      (None,
       Feed.with_selections
         (splice_first (Feed._selections s)
            (selection_matches (or_default (r_start r) 0)
               (or_default (r_end r) (-1)) (r_hash r) (r_linear r))) s)
  end.

(** The operations of a feed on an open feed, and the feed each leaves. *)
Inductive Op :=
| OpAppend (batch : list value)
| OpPut (index : Z) (data : value) (p : MerkleProof)
| OpGet (index : Z) (wait : bool) (cb : nat)
| OpSeek (bytes : Z) (opts : SeekOpts) (cb : nat)
| OpDownload (range : Range) (cb : option nat)
| OpUndownload (range : Selection + Range)
| OpFinalize
| OpFlush.

Definition run (s : Feed.t) (op : Op) : option Feed.t :=
  match op with
  | OpAppend batch => option_map snd (append s batch)
  | OpPut index data p => option_map snd (put s index data p)
  | OpGet index wait cb => Some (snd (get s index wait cb))
  | OpSeek bytes opts cb => option_map snd (seek s bytes opts cb)
  | OpDownload range cb => Some (snd (download s range cb))
  | OpUndownload range => Some (snd (undownload s range))
  | OpFinalize => Some (snd (finalize s))
  | OpFlush => option_map snd (flush s)
  end.

(** The bytes a batch encodes to. *)
Definition encoded_size (batch : list value) : Z :=
  fold_right (fun v total => Z.of_nat (List.length (encode codec v)) + total) 0 batch.

(** *** What an append writes

    The store, the generator, the bytes written and the position after the
    loop of [_append] has gone through a batch, when no answer of the
    storage comes in between: each block is written at
    [byteLength + offset] unless the feed is indexing, a live feed signs the
    roots after each leaf into slot [length + i], and every node the
    generator yields is written. *)
Definition append_effect_item (s0 : Feed.t) (sk : secret)
    (acc : storage.t * merkle.t * Z * Z) (v : value)
  : storage.t * merkle.t * Z * Z :=
  let '(st, g, offset, i) := acc in
  let data := encode codec v in
  let '(ns, g') := merkle.next g data in
  let st := if Feed._indexing s0 then st
            else storage.write_data st (Feed.byteLength s0 + offset) data in
  let st := if Feed.live s0
            then storage.putSignature st (Feed.length s0 + i)
                   (sign (hash.tree (merkle.roots g')) sk)
            else st in
  let st := fold_left (fun st nd => storage.putNode st (index nd) nd) ns st in
  (st, g', offset + Z.of_nat (List.length data), i + 1).

Definition append_effect (s0 : Feed.t) (sk : secret) (g : merkle.t)
    (batch : list value) : storage.t * merkle.t * Z * Z :=
  fold_left (append_effect_item s0 sk) batch (Feed._storage s0, g, 0, 0).

(** Two feeds that differ in their waiters only. *)
Definition but_waiting (s s' : Feed.t) : Prop :=
  Feed.with_waiting [] s' = Feed.with_waiting [] s.

(** *** The verification of [put] as the specification words it

    Section 4.F (put, steps 2 to 5).  The proof is not consumed: a cursor
    runs over [proof.nodes]. *)

(** The parent of [top] and its sibling: the children are ordered left
    child first, the left child being the one at an even offset. *)
Definition spec_parent (top sib : Node digest) : Node digest :=
  let top_is_left := Z.even (flat.offset (index top)) in
  let l := if top_is_left then top else sib in
  let r := if top_is_left then sib else top in
  mkNode (flat.parent (index top))
         (H_parent (size l + size r) (hash l) (hash r))
         (size top + size sib).

(** A computed node equals the trusted one: same index, same hash. *)
Definition spec_equals (trusted : option (Node digest)) (top : Node digest) : bool :=
  match trusted with
  | Some t => (index t =? index top) && bool_decide (hash t = hash top)
  | None => false
  end.

Inductive SpecClimb :=
| SpecAnchored (visited : list (Node digest))
| SpecRoots (top : Node digest) (cursor : nat) (visited : list (Node digest)).

(** While the top is not the trusted node, the next sibling is taken from
    [proof.nodes] if the node at the cursor has its index, else from the
    local list. *)
Fixpoint spec_climb (fuel : nat) (trusted : option (Node digest))
    (proof_nodes : list (Node digest)) (cursor : nat) (top : Node digest)
    (localNodes visited : list (Node digest)) : option SpecClimb :=
  match fuel with
  | O => None
  | S fuel' =>
      if spec_equals trusted top then Some (SpecAnchored visited)
      else
        let sib := flat.sibling (index top) in
        let from_local :=
          match localNodes with
          | l :: rest =>
              if index l =? sib
              then spec_climb fuel' trusted proof_nodes cursor (spec_parent top l)
                              rest (visited ++ [top])
              else Some (SpecRoots top cursor visited)
          | [] => Some (SpecRoots top cursor visited)
          end in
        match nth_error proof_nodes cursor with
        | Some n =>
            if index n =? sib
            then spec_climb fuel' trusted proof_nodes (S cursor) (spec_parent top n)
                            localNodes (visited ++ [n; top])
            else from_local
        | None => from_local
        end
  end.

(** [verifiedBy = max(rightSpan(top), rightSpan(lastProofNode)) + 2], the
    last proof node being the last node of the proof as sent. *)
Definition spec_verifiedBy (proof_nodes : list (Node digest)) (top : Node digest) : Z :=
  match last proof_nodes with
  | Some n => Z.max (flat.rightSpan (index top)) (flat.rightSpan (index n)) + 2
  | None => flat.rightSpan (index top) + 2
  end.

(** The check of the candidate roots: [H_roots] over them is checked against
    the signature or, for a feed that is not live or still empty, against
    equality with the key. *)
Definition spec_check (s : Feed.t) (checksum : digest) (sig : option signature)
  : Result bool :=
  match sig with
  | Some sg =>
      match Feed.key s with
      | Some k => if verify checksum sg k then Ok true else Err BadSignature
      | None => Err BadSignature
      end
  | None =>
      if Feed.live s && negb (Feed.length s =? 0) then Err NoSignature
      else
        match Feed.key s with
        | Some k => if bool_decide (checksum = k) then Ok false
                    else Err ChecksumFailed
        | None => Err ChecksumFailed
        end
  end.

(** Step 2, the trust frontier.  From [2 * index] the walk goes up as long
    as the sibling is at hand: sent, that is, the proof node at the cursor
    has its index, or stored locally.  The first node on the way that the
    local tree holds is the trusted ancestor; the siblings that were not
    sent are the locally stored nodes to load.  Where the walk stops for
    want of a sibling, the parent is the anchor if the local tree holds
    it. *)
Fixpoint spec_frontier (fuel : nat) (tree : bits.t) (proof_nodes : list (Node digest))
    (cursor : nat) (node : Z) (stored : list Z) : option (option Z * list Z) :=
  match fuel with
  | O => None
  | S fuel' =>
      if bits.get tree node then Some (Some node, stored)
      else
        let sib := flat.sibling node in
        let up := flat.parent node in
        let sent := match nth_error proof_nodes cursor with
                    | Some n => index n =? sib
                    | None => false
                    end in
        if sent then spec_frontier fuel' tree proof_nodes (S cursor) up stored
        else if bits.get tree sib
        then spec_frontier fuel' tree proof_nodes cursor up (stored ++ [sib])
        else Some (if bits.get tree up then Some up else None, stored)
  end.

(** Step 3: the trusted node and the locally stored siblings are loaded;
    a node that cannot be read ends the put with the error of the
    storage. *)
Definition spec_loads (st : storage.t) (indexes : list Z)
  : option (list (Node digest)) :=
  fold_right (fun i loaded =>
                match storage.getNode st i, loaded with
                | Some n, Some ns => Some (n :: ns)
                | _, _ => None
                end) (Some []) indexes.

Definition spec_trust (s : Feed.t) (index : Z) (proof_nodes : list (Node digest))
  : option (Result (list (Node digest) * option (Node digest))) :=
  match spec_frontier (S (S (List.length proof_nodes + List.length (Feed.tree s))))
                      (Feed.tree s) proof_nodes 0 (2 * index) [] with
  | None => None
  | Some (anchor, stored) =>
      let trusted :=
        match anchor with
        | Some t => option_map Some (storage.getNode (Feed._storage s) t)
        | None => Some None
        end in
      match spec_loads (Feed._storage s) stored, trusted with
      | Some localNodes, Some trustedNode => Some (Ok (localNodes, trustedNode))
      | _, _ => Some (Err StorageNotFound)
      end
  end.

(** Step 5, the candidate roots.  Each full root at [verifiedBy] is the
    pending top, or the proof node at the cursor, or a node of the local
    storage.  The result: the roots, those of them that came from the top
    or the proof (they are written with the block), whether every root was
    at hand, and whether every local root could be read. *)
Fixpoint spec_roots (s : Feed.t) (top : Node digest) (proof_nodes : list (Node digest))
    (cursor : nat) (indexes : list Z)
  : list (Node digest) * list (Node digest) * bool * bool :=
  match indexes with
  | [] => ([], [], true, true)
  | i :: rest =>
      if index top =? i then
        let '(rs, fresh, sent, read) := spec_roots s top proof_nodes cursor rest in
        (top :: rs, top :: fresh, sent, read)
      else
        let from_proof :=
          match nth_error proof_nodes cursor with
          | Some n => if index n =? i then Some n else None
          | None => None
          end in
        match from_proof with
        | Some n =>
            let '(rs, fresh, sent, read) :=
              spec_roots s top proof_nodes (S cursor) rest in
            (n :: rs, n :: fresh, sent, read)
        | None =>
            let '(rs, fresh, sent, read) := spec_roots s top proof_nodes cursor rest in
            if bits.get (Feed.tree s) i then
              match storage.getNode (Feed._storage s) i with
              | Some n => (n :: rs, fresh, sent, read)
              | None => (rs, fresh, sent, false)
              end
            else (rs, fresh, false, read)
        end
  end.

(** What the verification of a put decides: the put is rejected with an
    error; or the computed node is the trusted one; or the candidate roots
    check out, against the signature ([signed]) or against the key. *)
Inductive Verdict :=
| Rejected (e : Error)
| Trusted (visited : list (Node digest))
| Verified (signed : bool) (verifiedBy : Z) (rs fresh : list (Node digest)).

(** Steps 2 to 5.  A missing proof node is a violation only after the
    storage has been consulted: the error of the storage comes first. *)
Definition spec_put (s : Feed.t) (index : Z) (data : list byte) (p : MerkleProof)
  : option Verdict :=
  match spec_trust s index (nodes p) with
  | None => None
  | Some (Err e) => Some (Rejected e)
  | Some (Ok (localNodes, trusted)) =>
      let top := mkNode (2 * index) (H_leaf data) (Z.of_nat (List.length data)) in
      match spec_climb (S (S (List.length (nodes p) + List.length localNodes)))
                       trusted (nodes p) 0 top localNodes [] with
      | None => None
      | Some (SpecAnchored visited) => Some (Trusted visited)
      | Some (SpecRoots top cursor visited) =>
          let verifiedBy := spec_verifiedBy (nodes p) top in
          let '(rs, fresh, sent, read) :=
            spec_roots s top (nodes p) cursor (flat.fullRoots verifiedBy) in
          if negb read then Some (Rejected StorageNotFound)
          else if negb sent then Some (Rejected NoTreeRoots)
          else
            match spec_check s (H_roots rs) (proof_signature p) with
            | Err e => Some (Rejected e)
            | Ok signed => Some (Verified signed verifiedBy rs (visited ++ fresh))
            end
      end
  end.

(** What [_verifyAndWrite] and [_verifyRootsAndWrite] do once the
    verification is decided, lines 516, 541 and 577-609: an error is handed
    to the callback; otherwise [live], and [length] and [byteLength] when
    the verified span is longer, are set and the block is written with the
    nodes and, when the roots were signed, the signature. *)
Definition write_verdict (s : Feed.t) (index : Z) (data : list byte)
    (p : MerkleProof) (v : Verdict) : option (Result unit * Feed.t) :=
  match v with
  | Rejected e => Some (Err e, s)
  | Trusted visited => _write s index data visited None
  | Verified signed verifiedBy rs fresh =>
      let s := Feed.with_live signed s in
      let s :=
        if Feed.length s <? verifiedBy / 2
        then Feed.with_byteLength (fold_left addSize rs 0)
               (Feed.with_length (verifiedBy / 2) s)
        else s in
      _write s index data fresh
             (if signed
              then option_map (fun sg => (verifiedBy / 2 - 1, sg)) (proof_signature p)
              else None)
  end.

(** A put reaches the root check: the plan is made, the local nodes are
    loaded, the hashing ends at [top] without meeting the trusted node, and
    every full root at [verifiedBy] is at hand. *)
Definition reaches_roots (s : Feed.t) (index : Z) (data : list byte)
    (p : MerkleProof) (top : Node digest) (remote visited : list (Node digest))
  : Prop :=
  exists missingNodes trustedNode,
    putBuffer_load s index (nodes p) = Some (Ok (missingNodes, trustedNode))
    /\ verify_climb index data (nodes p) missingNodes trustedNode
       = Some (AtRoots top remote visited)
    /\ let r := collect_roots s top (flat.fullRoots (verifiedBy_of top remote))
                              remote visited in
       not_read r = false /\ not_sent r = false.

End operations.

(** ** Reference instances *)

(** An ideal hash and signature scheme: a digest is the term it was
    computed from, so that distinct inputs have distinct digests, and a
    signature names the message and the secret key that made it. *)
Module ideal.

Inductive term :=
| Leaf (d : list byte)
| Parent (sz : Z) (l r : term)
| NoRoot
| Root (i : Z) (h : term) (sz : Z) (rest : term)
| Public (secret : Z)
| Discovery (k : term).

Lemma term_eq_dec : forall x y : term, {x = y} + {x <> y}.
Proof.
  decide equality; try apply Z.eq_dec.
  apply (List.list_eq_dec Byte.byte_eq_dec).
Defined.

Definition roots_term (ns : list (Node term)) : term :=
  fold_right (fun n acc => Root (storage_node.index n) (storage_node.hash n)
                                (storage_node.size n) acc) NoRoot ns.

#[global] Instance crypto : Crypto := {|
  digest := term;
  digest_eq_dec := term_eq_dec;
  secret := Z;
  signature := term * Z;
  H_leaf := Leaf;
  H_parent := Parent;
  H_roots := roots_term;
  H_discovery := Discovery;
  sign := fun m sk => (m, sk);
  verify := fun m sig pk =>
    if term_eq_dec m (fst sig)
    then if term_eq_dec pk (Public (snd sig)) then true else false
    else false
|}.

(** The key pair with secret [n]. *)
Definition key_pair (n : Z) : digest * secret := (Public n, n).

End ideal.

(** A tree index for a feed that holds every node of its tree: marking a
    node also marks each ancestor whose two children are marked, and a
    proof for a node lists the siblings on the way up to its root followed
    by the other full roots. *)
Module tree_index.

Fixpoint set_up (fuel : nat) (t : bits.t) (i : Z) : bits.t :=
  match fuel with
  | O => t
  | S fuel' =>
      if bits.get t (flat.sibling i)
      then
        let p := flat.parent i in
        if bits.get t p then t else set_up fuel' (bits.set t p true) p
      else t
  end.

Definition set (t : bits.t) (i : Z) : bits.t :=
  if bits.get t i then t
  else set_up (S (List.length t)) (bits.set t i true) i.

Fixpoint plan (fuel : nat) (t : bits.t) (next : Z) (acc : list Z)
  : option (Z * list Z) :=
  match fuel with
  | O => None
  | S fuel' =>
      let sib := flat.sibling next in
      if bits.get t sib then plan fuel' t (flat.parent next) (acc ++ [sib])
      else Some (next, acc)
  end.

Definition proof (t : bits.t) (i : Z) (_ : unit) : option (list Z * Z) :=
  if bits.get t i then
    match plan (S (List.length t)) t i [] with
    | Some (root, sibs) =>
        let verifiedBy := 2 * open_length t in
        Some (sibs ++ filter (fun r => negb (r =? root)) (flat.fullRoots verifiedBy),
              verifiedBy)
    | None => None
    end
  else None.

#[global] Instance reference : TreeIndex := {|
  proofOpts := unit;
  noOpts := tt;
  tree_set := set;
  tree_proof := proof
|}.

End tree_index.

(** The [utf-8] and [binary] codecs. *)
Definition utf8 : Codec string :=
  mkCodec string list_byte_of_string string_of_list_byte false.

Definition binary_codec : Codec (list byte) :=
  mkCodec (list byte) (fun b => b) (fun b => b) true.


(** ** Example feeds

    A writer with the two blocks "hello" and "world", and a reader of the
    same feed that has taken block 0 with the writer's proof. *)
Module example.

Definition kp : digest * secret := ideal.key_pair 7.

Definition fresh_writer : Feed.t :=
  snd (_open kp (create storage.empty None noOptions)).

Definition writer : Feed.t :=
  match append utf8 kp fresh_writer ["hello"; "world"]%string with
  | Some (_, s) => s
  | None => fresh_writer
  end.

Definition proof_of (i : Z) : MerkleProof :=
  match proof writer i tt with
  | Ok p => p
  | Err _ => mkProof [] None
  end.

Definition fresh_reader : Feed.t :=
  snd (_open kp (create storage.empty (Some (fst kp)) noOptions)).

Definition reader : Feed.t :=
  match put utf8 kp fresh_reader 0 "hello"%string (proof_of 0) with
  | Some (_, s) => s
  | None => fresh_reader
  end.

(** A reader of a feed with the one block "0123456789", and a second
    writer that holds the same key pair and wrote the blocks "a" and "b". *)
Definition long_writer : Feed.t :=
  match append utf8 kp fresh_writer ["0123456789"]%string with
  | Some (_, s) => s
  | None => fresh_writer
  end.

Definition long_reader : Feed.t :=
  match proof long_writer 0 tt with
  | Ok p =>
      match put utf8 kp fresh_reader 0 "0123456789"%string p with
      | Some (_, s) => s
      | None => fresh_reader
      end
  | Err _ => fresh_reader
  end.

Definition other_writer : Feed.t :=
  match append utf8 kp fresh_writer ["a"; "b"]%string with
  | Some (_, s) => s
  | None => fresh_writer
  end.

Definition other_proof (i : Z) : MerkleProof :=
  match proof other_writer i tt with
  | Ok p => p
  | Err _ => mkProof [] None
  end.


(** A writer that keeps the tree only ([indexing]). *)
Definition indexing_writer : Feed.t :=
  snd (_open kp (create storage.empty None
                   (mkOptions None None (Some true) None None))).

(** A writer that is not live: it has no key until it is finalized. *)
Definition plain_writer : Feed.t :=
  snd (_open kp (create storage.empty None
                   (mkOptions (Some false) None None None None))).

(** A writer that keeps the tree only and is not live. *)
Definition plain_indexing_writer : Feed.t :=
  snd (_open kp (create storage.empty None
                   (mkOptions (Some false) None (Some true) None None))).

End example.

(** ** Invariants and correspondences

    The predicates the properties below are stated with. *)

(** The full roots of a tree of [n] leaves whose first leaf has index
    [offset]. *)
Definition rootsOf (n offset : Z) : list Z :=
  flat.fullRoots_loop (S (Z.to_nat (Z.log2 n))) n offset.

Section invariants.
Context `{Crypto}.
Import storage_node.

(** How the outcome of the loop of [_verifyAndWrite] and that of the
    specification's climb correspond. *)
Definition climb_agrees (proof_nodes : list (Node digest)) (c : Climb) (c' : SpecClimb)
  : Prop :=
  match c, c' with
  | Anchored v, SpecAnchored v' => v = v'
  | AtRoots top remote v, SpecRoots top' cursor v' =>
      top = top' /\ v = v' /\ remote = skipn cursor proof_nodes
      /\ 0 <= storage_node.index top
      /\ Forall (fun n => flat.rightSpan (storage_node.index n)
                          <= flat.rightSpan (storage_node.index top))
                (firstn cursor proof_nodes)
  | _, _ => False
  end.

(** An append in progress has not lowered length or byteLength. *)
Definition grown (s0 : Feed.t) (a : Appending) : Prop :=
  Feed.length s0 <= Feed.length (a_feed a)
  /\ Feed.byteLength s0 <= Feed.byteLength (a_feed a)
  /\ 0 <= a_offset a.

(** The requests an append makes for each value: one for the block, one for
    each node, and on a live feed one for the signature. *)
Definition per_leaf (s0 : Feed.t) : Z := if Feed.live s0 then 2 else 1.

(** The loop of [_append] after [k] of [n] values, when no answer of the
    storage has come in: the feed holds what [append_effect_item] has
    written, and the counter is the number of requests made plus what the
    values to come are counted for. *)
Definition running (s0 : Feed.t) (n k : nat) (a : Appending) (acc : storage.t * merkle.t * Z * Z) : Prop :=
  let '(st, g, off, i) := acc in
  a_feed a = Feed.with_storage st (Feed.with_merkle (Some g) s0)
  /\ a_offset a = off /\ i = Z.of_nat k /\ a_calls a = []
  /\ a_pending a = Z.of_nat (a_requests a) + (Z.of_nat n - Z.of_nat k) * per_leaf s0
  /\ (k <= a_requests a)%nat.

(** The bytes a list of nodes covers. *)
Definition sizes (ns : list (Node digest)) : Z :=
  fold_right (fun n total => size n + total) 0 ns.

(** The generator holds the full roots of the blocks it has been fed. *)
Definition gen_ok (g : merkle.t) : Prop :=
  0 <= merkle.blocks g /\ map index (merkle.roots g) = rootsOf (merkle.blocks g) 0.

(** A node is stored when the tree file holds it at its index. *)
Definition stored (st : storage.t) (r : Node digest) : Prop :=
  storage.getNode st (index r) = Some r.

(** [putNode] for each node of a list, in order. *)
Definition putNodes (ns : list (Node digest)) (st : storage.t) : storage.t :=
  fold_left (fun st nd => storage.putNode st (index nd) nd) ns st.

(** The loop of [_append] keeps the generator on the full roots, every root
    stored, and the generator [i] blocks ahead of the feed. *)
Definition acc_ok (s0 : Feed.t) (acc : (storage.t * merkle.t * Z * Z)) : Prop :=
  let '(st, g, off, i) := acc in
  gen_ok g /\ Forall (stored st) (merkle.roots g)
  /\ 0 <= off /\ 0 <= i /\ merkle.blocks g = Feed.length s0 + i.

(** The bytes written so far are the bytes the roots cover. *)
Definition acc_sized (s0 : Feed.t) (acc : (storage.t * merkle.t * Z * Z)) : Prop :=
  let '(_, g, off, _) := acc in
  0 <= Feed.byteLength s0 /\ sizes (merkle.roots g) = Feed.byteLength s0 + off.

(** What the loop has written stays: tree nodes that end before the next
    leaf, signatures below the next slot, bytes below the next block. *)
Definition acc_frame (s0 : Feed.t) (acc acc' : (storage.t * merkle.t * Z * Z)) : Prop :=
  let '(st, g, off, i) := acc in
  let '(st', g', off', i') := acc' in
  merkle.blocks g <= merkle.blocks g' /\ off <= off' /\ i <= i'
  /\ (forall j, flat.rightSpan j < 2 * merkle.blocks g ->
                storage.tree st' !! j = storage.tree st !! j)
  /\ (forall j, j < Feed.length s0 + i ->
                storage.signatures st' !! j = storage.signatures st !! j)
  /\ (0 <= Feed.byteLength s0 ->
      forall a len x,
        0 <= a -> 0 <= len -> a + len <= Feed.byteLength s0 + off ->
        raf.read (storage.data st) a len = Some x ->
        raf.read (storage.data st') a len = Some x).

(** The generator of a feed is in step with the feed: it has been fed
    [length] blocks, holds their full roots, and the roots are stored. *)
Definition in_sync (s : Feed.t) : Prop :=
  match Feed._merkle s with
  | Some g =>
      gen_ok g /\ merkle.blocks g = Feed.length s
      /\ Forall (stored (Feed._storage s)) (merkle.roots g)
  | None => False
  end.

(** [byteLength] is the number of bytes the roots cover. *)
Definition sized (s : Feed.t) : Prop :=
  match Feed._merkle s with
  | Some g => 0 <= Feed.byteLength s /\ sizes (merkle.roots g) = Feed.byteLength s
  | None => False
  end.

(** The invariant of a live feed: the last slot holds a valid signature
    over the stored full roots. *)
Definition signed (s : Feed.t) : Prop :=
  0 < Feed.length s ->
  exists pk sig roots,
    Feed.key s = Some pk
    /\ storage.getSignature (Feed._storage s) (Feed.length s - 1) = Some sig
    /\ getNodes (Feed._storage s) (flat.fullRoots (2 * Feed.length s)) = Some roots
    /\ verify (hash.tree roots) sig pk = true.

End invariants.

(** ** Byte offsets of a complete tree *)

Section complete_tree.
Context `{Crypto}.





End complete_tree.


(** ** Read streams *)

Section streams.
Context `{Crypto} `{TreeIndex}.
Context {value : Type} (codec : Codec value).
Context (keyPair : digest * secret).

(** [has(index)], lines 620-622. *)
Definition has (s : Feed.t) (index : Z) : bool := bits.get (Feed.bitfield s) index.

(** The end of a read stream: an index, or [Infinity] for a live stream. *)
Inductive Bound :=
| Finite (n : Z)
| Infinity.

Definition reaches (start : Z) (b : Bound) : bool :=
  match b with
  | Finite e => start =? e
  | Infinity => false
  end.

(** The options of [createReadStream]; [ro_end] is there when [opts.end]
    is a number, [ro_wait] is handed on to [get]. *)
Record ReadOpts := mkReadOpts {
  ro_start : option Z;
  ro_end : option Z;
  ro_live : bool;
  ro_tail : bool;
  ro_wait : option bool
}.

(** The variables [start], [end] and [first] of a stream. *)
Record ReadStream := mkReadStream {
  rs_start : Z;
  rs_end : Bound;
  rs_first : bool
}.

(** [createReadStream(opts)], lines 671-678. *)
Definition createReadStream (opts : ReadOpts) : ReadStream :=
  {| rs_start := or_default (ro_start opts) 0;
     rs_end := Finite (match ro_end opts with Some e => e | None => -1 end);
     rs_first := true |}.

(** What one [read] hands to the stream: the end, an error of [_ready],
    or the answer of [get] for the index asked. *)
Inductive Chunk :=
| EndOfStream
| Failed (e : Error)
| Read (index : Z) (out : Outcome (@Block value)).

(** The first [read] on an open feed fixes the bounds, lines 685-689. *)
Definition stream_settle (opts : ReadOpts) (r : ReadStream) (s : Feed.t) : ReadStream :=
  if rs_first r then
    {| rs_start := if ro_tail opts then Feed.length s else rs_start r;
       rs_end := match rs_end r with
                 | Finite e =>
                     if e =? -1
                     then (if ro_live opts then Infinity else Finite (Feed.length s))
                     else Finite e
                 | Infinity => Infinity
                 end;
       rs_first := false |}
  else r.

(** [read(size, cb)], lines 682-700. *)
Definition stream_read (opts : ReadOpts) (r : ReadStream) (s : Feed.t) (cb : nat)
  : Chunk * ReadStream * Feed.t :=
  match _ready keyPair s with
  | (Err e, s) => (Failed e, r, s)
  | (Ok _, s) =>
      let r := stream_settle opts r s in
      if reaches (rs_start r) (rs_end r) then (EndOfStream, r, s)
      else
        let '(out, s') := get codec s (rs_start r) (not_false (ro_wait opts)) cb in
        (Read (rs_start r) out, mkReadStream (rs_start r + 1) (rs_end r) false, s')
  end.

(** The stream is read again after a block has been handed over; it stops
    at its end, at an error, and while a [get] waits. *)
Fixpoint stream_reads (n : nat) (opts : ReadOpts) (r : ReadStream) (s : Feed.t)
    (cb : nat) : list Chunk * ReadStream * Feed.t :=
  match n with
  | O => ([], r, s)
  | S n' =>
      let '(c, r', s') := stream_read opts r s cb in
      match c with
      | Read _ (Done (Ok _)) =>
          let '(cs, r'', s'') := stream_reads n' opts r' s' cb in
          (c :: cs, r'', s'')
      | _ => ([c], r', s')
      end
  end.

End streams.

(** ** Callbacks with a time-out

    [timeoutCallback(cb, timeout)], lines 889-906, used by [get] and [seek]
    when [opts.timeout] is given.  The closure holds the flag [failed] and
    the timer; [timer] tells that the timer is set, that is, neither fired
    nor cleared.  What comes in, in the order the event loop hands it over,
    is the timer running out or a call of the function returned; what goes
    out are the calls of [cb]. *)
Module timeout.
Section timeout.
Context {A : Type}.

Record t := mk { failed : bool; timer : bool }.

(** A call of [cb]: with the error [ETIMEDOUT], or with what [done] was
    called with. *)
Inductive Call :=
| ETIMEDOUT
| Passed (answer : A).

Definition timeoutCallback : t := mk false true.

Definition ontimeout (s : t) : t * list Call :=
  (mk true (timer s), [ETIMEDOUT]).

Definition done (s : t) (answer : A) : t * list Call :=
  if failed s then (s, [])
  else (mk (failed s) false, [Passed answer]).

Inductive Event :=
| Elapsed
| Called (answer : A).

(** A timer fires once, and not after it was cleared. *)
Definition step (s : t) (e : Event) : t * list Call :=
  match e with
  | Elapsed => if timer s then ontimeout (mk (failed s) false) else (s, [])
  | Called answer => done s answer
  end.

Fixpoint run (s : t) (events : list Event) : list Call :=
  match events with
  | [] => []
  | e :: rest => let '(s', calls) := step s e in calls ++ run s' rest
  end.

(** The answers among the events. *)
Definition answers (events : list Event) : list A :=
  flat_map (fun e => match e with Elapsed => [] | Called a => [a] end) events.

End timeout.
Arguments t : clear implicits.
Arguments Call : clear implicits.
Arguments Event : clear implicits.
End timeout.

(** ** The nodes of a proof

    What a receiver that holds nothing computes from a block and the nodes
    of a proof, and how the full roots lie in the tree. *)

Section proof_nodes.
Context `{Crypto}.
Import storage_node.

(** The parent that the loop of [_verifyAndWrite] makes of the top and its
    sibling, line 537. *)
Definition join (top sib : Node digest) : Node digest :=
  mkNode (flat.parent (index top)) (hash.parent top sib) (size top + size sib).

(** The top after the siblings have been taken in, one level each. *)
Fixpoint climb (top : Node digest) (sibs : list (Node digest)) : Node digest :=
  match sibs with
  | [] => top
  | sib :: rest => climb (join top sib) rest
  end.

(** Each node of the list is the sibling of the top it meets. *)
Fixpoint along (top : Node digest) (sibs : list (Node digest)) : bool :=
  match sibs with
  | [] => true
  | sib :: rest =>
      (index sib =? flat.sibling (index top)) && along (join top sib) rest
  end.

(** The nodes the loop has put aside for writing on the way: each sibling
    and the top it was joined with. *)
Fixpoint trail (top : Node digest) (sibs : list (Node digest)) : list (Node digest) :=
  match sibs with
  | [] => []
  | sib :: rest => sib :: top :: trail (join top sib) rest
  end.

End proof_nodes.

(** Two nodes lie in order when the second begins after the first ends and
    is less deep, as two full roots do. *)
Definition ordered (a b : Z) : Prop :=
  flat.rightSpan a < flat.leftSpan b /\ flat.depth b < flat.depth a.

Fixpoint all_ordered (l : list Z) : Prop :=
  match l with
  | [] => True
  | a :: rest => Forall (ordered a) rest /\ all_ordered rest
  end.

(** * Properties *)

(** Projections of an updated feed are computed field by field. *)
Ltac fproj :=
  cbn [Feed.live Feed.sparse Feed.length Feed.byteLength Feed.key Feed.discoveryKey
       Feed.secretKey Feed.bitfield Feed.tree Feed.writable Feed.readable Feed.opened
       Feed._indexing Feed._createIfMissing Feed._overwrite Feed._merkle Feed._storage
       Feed._waiting Feed._selections
       Feed.with_live Feed.with_length Feed.with_byteLength Feed.with_key
       Feed.with_discoveryKey Feed.with_secretKey Feed.with_bitfield Feed.with_tree
       Feed.with_writable Feed.with_readable Feed.with_opened Feed.with_overwrite
       Feed.with_merkle Feed.with_storage Feed.with_waiting Feed.with_selections].

Ltac fproj_in H :=
  cbn [Feed.live Feed.sparse Feed.length Feed.byteLength Feed.key Feed.discoveryKey
       Feed.secretKey Feed.bitfield Feed.tree Feed.writable Feed.readable Feed.opened
       Feed._indexing Feed._createIfMissing Feed._overwrite Feed._merkle Feed._storage
       Feed._waiting Feed._selections
       Feed.with_live Feed.with_length Feed.with_byteLength Feed.with_key
       Feed.with_discoveryKey Feed.with_secretKey Feed.with_bitfield Feed.with_tree
       Feed.with_writable Feed.with_readable Feed.with_opened Feed.with_overwrite
       Feed.with_merkle Feed.with_storage Feed.with_waiting Feed.with_selections] in H.

Ltac sproj :=
  cbn [storage.tree storage.data storage.signatures storage.key storage.secretKey
       storage.bitfield storage.closed storage.putNode storage.putSignature
       storage.write_data storage.write_key storage.write_secretKey
       storage.putBitfield storage.close storage.data_bits storage.tree_bits].


(** ** Bit fields *)

Lemma bits_get_nat (b : bits.t) (n : nat) :
  bits.get b (Z.of_nat n) = nth n b false.
Proof.
  unfold bits.get.
  destruct (Z.ltb_spec (Z.of_nat n) 0); [lia|].
  now rewrite Nat2Z.id.
Qed.

Lemma bits_get_beyond (b : bits.t) (i : Z) :
  bits.length b <= i -> bits.get b i = false.
Proof.
  unfold bits.get, bits.length. intros Hi.
  destruct (Z.ltb_spec i 0); [reflexivity|].
  apply nth_overflow. lia.
Qed.

Lemma bits_get_true_lt (b : bits.t) (i : Z) :
  bits.get b i = true -> 0 <= i < bits.length b.
Proof.
  intros Hg. split.
  - unfold bits.get in Hg. destruct (Z.ltb_spec i 0); [discriminate|lia].
  - destruct (Z.lt_ge_cases i (bits.length b)) as [Hlt|Hge]; [exact Hlt|].
    rewrite (bits_get_beyond b i Hge) in Hg. discriminate.
Qed.

(** ** Length recovery on open *)



Lemma land_1_even (x : Z) : (Z.land x 1 =? 0) = Z.even x.
Proof.
  change 1 with (Z.ones 1). rewrite Z.land_ones by lia.
  rewrite Zeven_mod. change (2 ^ 1) with 2. reflexivity.
Qed.


Lemma trimLength_loop_fill0 (t : bits.t) (n : nat) :
  trimLength_loop (bits.fill0 t) n = 0.
Proof.
  induction n as [|n IH]; [reflexivity|].
  simpl. rewrite bits_get_nat.
  assert (Hn : nth n (bits.fill0 t) false = false).
  { unfold bits.fill0.
    destruct (nth_in_or_default n (map (fun _ : bool => false) t) false) as [Hin|Hd];
      [|exact Hd].
    apply in_map_iff in Hin. destruct Hin as (x & Hx & _). now rewrite <- Hx. }
  rewrite Hn. exact IH.
Qed.

Lemma open_length_fill0 (t : bits.t) : open_length (bits.fill0 t) = 0.
Proof.
  unfold open_length, trimLength.
  destruct (bits.length (bits.fill0 t) =? 0); [reflexivity|].
  now rewrite trimLength_loop_fill0.
Qed.

(** ** Opening a feed *)

Section open_facts.
Context `{Crypto} `{TreeIndex}.
Context (keyPair : digest * secret).

Lemma create_eq (st : storage.t) (key : option digest) (opts : Options) :
  create st key opts =
  Feed.mk (not_false (opt_live opts)) (truthy (opt_sparse opts)) 0 0 key
          (option_map hash.discoveryKey key) None [] [] false true false
          (truthy (opt_indexing opts)) (not_false (opt_createIfMissing opts))
          (truthy (opt_overwrite opts)) None st []
          (if truthy (opt_sparse opts) then []
           else [mkSelection 0 false 0 (-1) false None]).
Proof.
  unfold create. cbn [Feed.sparse].
  destruct (truthy (opt_sparse opts)); reflexivity.
Qed.

(** Without a stored key the tree bit field that [_open] loads is blank. *)
Lemma open_bitfield_no_key (s : Feed.t) :
  storage.key (Feed._storage s) = None ->
  open_length (storage.tree_bits (open_bitfield s)) = 0.
Proof.
  intros Hk. unfold open_bitfield, open_overwrite. rewrite Hk.
  cbn [is_some negb andb].
  destruct (Feed._overwrite s); cbn [orb].
  - apply open_length_fill0.
  - destruct (Z.eqb_spec (bits.length (storage.data_bits (storage.bitfield (Feed._storage s)))
                          + bits.length (storage.tree_bits (storage.bitfield (Feed._storage s)))) 0)
      as [Hz|Hnz]; cbn [negb].
    + unfold bits.length in Hz.
      destruct (storage.tree_bits (storage.bitfield (Feed._storage s))); [reflexivity|].
      simpl List.length in Hz. lia.
    + apply open_length_fill0.
Qed.

Lemma open_state_key_no_key (s : Feed.t) :
  storage.key (Feed._storage s) = None -> open_state_key s = None.
Proof.
  intros Hk. unfold open_state_key. rewrite Hk. now destruct (open_overwrite s).
Qed.

Lemma fullRoots_0 : flat.fullRoots 0 = [].
Proof. reflexivity. Qed.

End open_facts.

Section open_length_facts.
Context `{Crypto} `{TreeIndex}.
Context (keyPair : digest * secret).

Lemma open_keys_length k sk (s s' : Feed.t) :
  open_keys k sk s = Ok s' -> Feed.length s' = Feed.length s.
Proof.
  unfold open_keys. intros Hk.
  destruct (match k with Some k1 => _ | None => _ end); [discriminate|].
  injection Hk as <-. destruct sk, k; reflexivity.
Qed.

Lemma open_onsignature_length sig (s : Feed.t) :
  Feed.length (snd (open_onsignature keyPair sig s)) = Feed.length s.
Proof.
  unfold open_onsignature.
  repeat match goal with
         | |- context [if ?b then _ else _] => destruct b
         end; reflexivity.
Qed.



End open_length_facts.



(** C3 as stated fails for a store without a key.  A writer that is not
    live has no key until it is finalized; after it has appended "hello"
    its length is 1, the stored tree bit field has leaf 0 as its last
    present leaf and [open_length] finds 1, yet a feed opened on this store
    has length 0: the test for a store without a key, lines 117-125, resets
    the bit field before the length is read. *)
Lemma open_length_counterexample :
  let w := match append utf8 example.kp example.plain_writer ["hello"]%string with
           | Some (_, s) => s
           | None => example.plain_writer
           end in
  let st := Feed._storage w in
  Feed.length w = 1
  /\ bits.get (storage.tree_bits (storage.bitfield st)) 0 = true
  /\ open_length (storage.tree_bits (storage.bitfield st)) = (2 * 0 + 2) / 2
  /\ Feed.length (snd (_open example.kp
                         (create st None (mkOptions (Some false) None None None None))))
     = 0.
Proof. vm_compute. repeat split; reflexivity. Qed.

Section open_keys_facts.
Context `{Crypto} `{TreeIndex}.
Context (keyPair : digest * secret).

Lemma open_onroots_empty (s : Feed.t) :
  Feed.length s = 0 ->
  open_onroots s =
  (Ok tt, Feed.with_opened true
            (Feed.with_byteLength 0 (Feed.with_merkle (Some (merkle.create [])) s))).
Proof.
  intros Hl. unfold open_onroots, _roots. rewrite Hl.
  change (2 * 0) with 0. rewrite fullRoots_0. reflexivity.
Qed.

Lemma open_write_length b (s : Feed.t) : Feed.length (open_write b s) = Feed.length s.
Proof. reflexivity. Qed.

Lemma not_false_true (o : option bool) : o <> Some false -> not_false o = true.
Proof. destruct o as [[|]|]; try reflexivity. congruence. Qed.

Lemma open_no_stored_key (st : storage.t) (opts : Options) :
  storage.key st = None ->
  let r := _open keyPair (create st None opts) in
  (opt_createIfMissing opts = Some false -> fst r = Err NoneStored)
  /\ (opt_createIfMissing opts <> Some false ->
      fst r = Ok tt /\ Feed.writable (snd r) = true /\ Feed.opened (snd r) = true
      /\ (opt_live opts <> Some false ->
          Feed.key (snd r) = Some (fst keyPair)
          /\ Feed.secretKey (snd r) = Some (snd keyPair)
          /\ storage.key (Feed._storage (snd r)) = Some (fst keyPair)
          /\ storage.secretKey (Feed._storage (snd r)) = Some (snd keyPair))
      /\ (opt_live opts = Some false -> Feed.key (snd r) = None)).
Proof.
  intros Hk r. subst r. rewrite create_eq.
  set (s := Feed.mk _ _ _ _ _ _ _ _ _ _ _ _ _ _ _ _ _ _ _).
  assert (Hks : storage.key (Feed._storage s) = None) by exact Hk.
  unfold _open.
  unfold open_load. rewrite (open_bitfield_no_key s Hks). cbn [Z.ltb Z.compare].
  rewrite (open_state_key_no_key s Hks).
  unfold open_keys. cbn [negb].
  set (s1 := Feed.with_tree _ _).
  set (s2 := match open_state_secretKey s with Some k => _ | None => s1 end).
  assert (Hs2 : Feed.length s2 = 0 /\ Feed.key s2 = None
                /\ Feed._createIfMissing s2 = not_false (opt_createIfMissing opts)
                /\ Feed.live s2 = not_false (opt_live opts)).
  { subst s2 s1 s. destruct (open_state_secretKey _); fproj; auto. }
  destruct Hs2 as (Hl2 & Hk2 & Hc2 & Hv2).
  clearbody s2. clearbody s1. clear Hks. clearbody s.
  rewrite Hl2. cbn [Z.eqb].
  unfold open_onsignature. rewrite Hl2. cbn [Z.eqb]. rewrite Hk2, Hc2, Hv2. cbn [is_some negb andb].
  split.
  - intros ->. reflexivity.
  - intros Hc. rewrite (not_false_true _ Hc). cbn [negb].
    rewrite open_onroots_empty by (rewrite open_write_length; now destruct (not_false (opt_live opts))).
    cbn [fst snd]. fproj.
    destruct (not_false (opt_live opts)) eqn:Hlive.
    + fproj. cbn [is_some orb]. unfold open_write. fproj.
      split; [reflexivity|]. split; [reflexivity|]. split; [reflexivity|]. split.
      * intros _. repeat split; destruct (Feed._overwrite s2); reflexivity.
      * intros Hf. rewrite Hf in Hlive. discriminate.
    + fproj. rewrite Hk2. cbn [is_some negb]. rewrite orb_true_r.
      split; [reflexivity|]. split; [reflexivity|]. split; [reflexivity|]. split.
      * intros Hf. rewrite (not_false_true _ Hf) in Hlive. discriminate.
      * intros _. unfold open_write. fproj. exact Hk2.
Qed.

Lemma open_key_mismatch (st : storage.t) (k1 k2 : digest) (opts : Options) :
  storage.key st = Some k1 -> k1 <> k2 -> opt_overwrite opts <> Some true ->
  fst (_open keyPair (create st (Some k2) opts)) = Err AnotherStored.
Proof.
  intros Hk Hne Hov. rewrite create_eq.
  set (s := Feed.mk _ _ _ _ _ _ _ _ _ _ _ _ _ _ _ _ _ _ _).
  assert (Hovw : open_overwrite s = false).
  { unfold open_overwrite. subst s. fproj. rewrite Hk. cbn [is_some negb andb].
    destruct (opt_overwrite opts) as [[|]|]; try reflexivity. congruence. }
  unfold _open, open_state_key. rewrite Hovw.
  assert (Hkey : Feed.key (open_load s) = Some k2).
  { unfold open_load. destruct (0 <? _); subst s; reflexivity. }
  unfold open_keys. subst s. fproj. rewrite Hk, Hkey.
  rewrite bool_decide_false by exact Hne. reflexivity.
Qed.

End open_keys_facts.

(** C10, as amended (open key creation).  For every open of a store that
    holds no key by a feed constructed without a key: with
    [createIfMissing] false, open fails with 'No hypercore is stored here';
    otherwise open succeeds and the feed is writable, a live feed with the
    generated key pair, which is written to the store, a feed that is not
    live with no key.  When a stored key and a key given to the constructor
    both exist and differ, and the [overwrite] option is not set, open fails
    with 'Another hypercore is stored here'. *)
Theorem open_key_creation :
  forall `{Crypto} (keyPair : digest * secret) (st : storage.t) (opts : Options),
    (storage.key st = None ->
     let r := _open keyPair (create st None opts) in
     (opt_createIfMissing opts = Some false ->
      fst r = Err NoneStored
      /\ message NoneStored = "No hypercore is stored here"%string)
     /\ (opt_createIfMissing opts <> Some false ->
         fst r = Ok tt /\ Feed.writable (snd r) = true /\ Feed.opened (snd r) = true
         /\ (opt_live opts <> Some false ->
             Feed.key (snd r) = Some (fst keyPair)
             /\ Feed.secretKey (snd r) = Some (snd keyPair)
             /\ storage.key (Feed._storage (snd r)) = Some (fst keyPair)
             /\ storage.secretKey (Feed._storage (snd r)) = Some (snd keyPair))
         /\ (opt_live opts = Some false -> Feed.key (snd r) = None)))
    /\ (forall k1 k2 : digest,
          storage.key st = Some k1 -> k1 <> k2 -> opt_overwrite opts <> Some true ->
          fst (_open keyPair (create st (Some k2) opts)) = Err AnotherStored
          /\ message AnotherStored = "Another hypercore is stored here"%string).
Proof.
  intros C keyPair st opts. split.
  - intros Hk. destruct (open_no_stored_key keyPair st opts Hk) as [Hfalse Htrue].
    split.
    + intros Hc. split; [exact (Hfalse Hc)|reflexivity].
    + exact Htrue.
  - intros k1 k2 Hk Hne Hov. split; [|reflexivity].
    apply (open_key_mismatch keyPair st k1 k2 opts); assumption.
Qed.

Lemma open_key_creation_witness :
  let kp := ideal.key_pair 7 in
  let r := _open kp (create storage.empty None noOptions) in
  fst r = Ok tt /\ Feed.writable (snd r) = true
  /\ Feed.key (snd r) = Some (ideal.Public 7).
Proof.
  intros kp r.
  destruct (@open_key_creation ideal.crypto kp storage.empty noOptions) as [Hno _].
  destruct (Hno eq_refl) as [_ Hcreate].
  destruct (Hcreate ltac:(discriminate)) as (Hok & Hw & _ & Hlive & _).
  destruct (Hlive ltac:(discriminate)) as (Hkey & _).
  exact (conj Hok (conj Hw Hkey)).
Defined.

(** C10 as stated fails: a store that holds no key, opened with a key given
    to the constructor, opens without error although [createIfMissing] is
    false, and with [createIfMissing] true it gets no key pair and is not
    writable; and with the [overwrite] option a stored key that differs from
    the key given raises no error. *)
Lemma open_key_creation_counterexample :
  let kp := ideal.key_pair 7 in
  let given := Some (ideal.Public 1) in
  let stored := storage.write_key storage.empty (ideal.Public 2) in
  (storage.key storage.empty = None
   /\ fst (_open kp (create storage.empty given
                       (mkOptions None None None (Some false) None))) = Ok tt)
  /\ (let r := _open kp (create storage.empty given
                           (mkOptions None None None (Some true) None)) in
      fst r = Ok tt /\ Feed.writable (snd r) = false
      /\ Feed.secretKey (snd r) = None)
  /\ (storage.key stored = Some (ideal.Public 2)
      /\ fst (_open kp (create stored given
                          (mkOptions None None None None (Some true)))) = Ok tt).
Proof. vm_compute. repeat split; reflexivity. Qed.

(** ** Finalize and close *)

(** C8, as amended (finalize).  For every open feed without a key,
    [finalize] sets the key to [H_roots] of the generator's roots, sets the
    discovery key to the hash of the new key and writes the key to the
    store; for a feed that has a key, [finalize] keeps key and discovery key
    and writes the key it has.  Length, live flag and writability stay as
    they are. *)
Theorem finalize_postcondition :
  forall `{Crypto} (s : Feed.t) (g : merkle.t),
    Feed._merkle s = Some g ->
    let r := finalize s in
    fst r = Ok tt
    /\ (Feed.key s = None ->
        Feed.key (snd r) = Some (hash.tree (merkle.roots g))
        /\ Feed.discoveryKey (snd r)
           = Some (hash.discoveryKey (hash.tree (merkle.roots g)))
        /\ storage.key (Feed._storage (snd r)) = Some (hash.tree (merkle.roots g)))
    /\ (forall k, Feed.key s = Some k ->
        Feed.key (snd r) = Some k
        /\ Feed.discoveryKey (snd r) = Feed.discoveryKey s
        /\ storage.key (Feed._storage (snd r)) = Some k)
    /\ Feed.length (snd r) = Feed.length s
    /\ Feed.byteLength (snd r) = Feed.byteLength s
    /\ Feed.live (snd r) = Feed.live s
    /\ Feed.writable (snd r) = Feed.writable s.
Proof.
  intros C s g Hg r. subst r. unfold finalize. rewrite Hg.
  destruct (Feed.key s) as [k|] eqn:Hk; fproj.
  - rewrite Hk. cbn [fst snd]. fproj. sproj. rewrite ?Hk.
    split; [reflexivity|]. split; [intros Hd; discriminate|].
    split; [|repeat split; reflexivity].
    intros k' Hk'. injection Hk' as <-. repeat split; reflexivity.
  - cbn [fst snd]. fproj. sproj.
    split; [reflexivity|]. split; [intros _; repeat split; reflexivity|].
    split; [intros k' Hk'; discriminate|repeat split; reflexivity].
Qed.

Lemma finalize_postcondition_witness :
  let s := snd (_open (ideal.key_pair 7)
                  (create storage.empty None (mkOptions (Some false) None None None None))) in
  Feed.key s = None
  /\ Feed.key (snd (finalize s)) = Some (ideal.NoRoot).
Proof.
  intros s. split; [reflexivity|].
  destruct (@finalize_postcondition ideal.crypto s (merkle.create []) eq_refl)
    as (_ & Hnone & _).
  exact (proj1 (Hnone eq_refl)).
Defined.

(** C8 as stated fails on a feed that has a key: after two blocks were
    appended to a live feed, [finalize] leaves the public key in place, which
    is not [H_roots] of the roots. *)
Lemma finalize_counterexample :
  let kp := ideal.key_pair 7 in
  let s := snd (_open kp (create storage.empty None noOptions)) in
  match append utf8 kp s ["hello"; "world"]%string with
  | Some (_, s) =>
      match Feed._merkle s with
      | Some g =>
          Feed.opened s = true
          /\ Feed.key (snd (finalize s)) = Some (ideal.Public 7)
          /\ Feed.key (snd (finalize s)) <> Some (hash.tree (merkle.roots g))
      | None => False
      end
  | None => False
  end.
Proof. vm_compute. repeat split; try reflexivity. discriminate. Qed.

(** C9, as amended (close).  For every open feed, after [close] the feed is
    neither readable nor writable, the store is closed and every later
    append fails with 'This feed is not writable. Did you create it?';
    [close] calls no callback of a waiter: the waiters queued by [get] and
    [seek] stay queued as they are. *)
Theorem close_semantics :
  forall `{Crypto} `{TreeIndex} (keyPair : digest * secret) (s : Feed.t),
    Feed.opened s = true ->
    let '(r, rejected, s') := close keyPair s in
    r = Ok tt
    /\ rejected = []
    /\ Feed.writable s' = false
    /\ Feed.readable s' = false
    /\ storage.closed (Feed._storage s') = true
    /\ Feed._waiting s' = Feed._waiting s
    /\ (forall (value : Type) (codec : Codec value) (batch : list value),
          append codec keyPair s' batch = Some ([Err NotWritable], s'))
    /\ message NotWritable = "This feed is not writable. Did you create it?"%string.
Proof.
  intros C T keyPair s Hop. unfold close, _ready. rewrite Hop. cbn [snd].
  repeat split.
  intros value codec batch. unfold append, _append, _ready. fproj. rewrite Hop.
  reflexivity.
Qed.

Lemma close_semantics_witness :
  let kp := ideal.key_pair 7 in
  let s := snd (_open kp (create storage.empty None noOptions)) in
  Feed.writable s = true
  /\ Feed.writable (snd (close kp s)) = false
  /\ append utf8 kp (snd (close kp s)) ["x"%string]
     = Some ([Err NotWritable], snd (close kp s)).
Proof.
  intros kp s. split; [reflexivity|].
  pose proof (@close_semantics ideal.crypto tree_index.reference kp s eq_refl) as Hc.
  destruct (close kp s) as [[r rejected] s'].
  destruct Hc as (_ & _ & Hw & _ & _ & _ & Happ & _).
  exact (conj Hw (Happ string utf8 ["x"%string])).
Defined.

(** C9 as stated fails: a waiter queued by [get] for a block that is not
    there is not rejected by [close]; no error goes to its callback and it
    stays in the queue. *)
Lemma close_counterexample :
  let kp := ideal.key_pair 7 in
  let s := snd (_open kp (create storage.empty None noOptions)) in
  let waiter := mkWaiter false 0 5 0 0 1 in
  get utf8 s 5 true 1 = (Pending, Feed.with_waiting [waiter] s)
  /\ (let '(_, rejected, s') := close kp (Feed.with_waiting [waiter] s) in
      In waiter (Feed._waiting s')
      /\ ~ (exists e, In (waiter, e) rejected)).
Proof.
  vm_compute. split; [reflexivity|]. split; [left; reflexivity|].
  intros [e []].
Qed.

(** ** flat-tree arithmetic *)

Module flat_facts.
Import flat.

Lemma land_1_odd (x : Z) : Z.land x 1 = if Z.odd x then 1 else 0.
Proof.
  change 1 with (Z.ones 1) at 1. rewrite Z.land_ones by lia.
  change (2 ^ 1) with 2. rewrite Zmod_odd. reflexivity.
Qed.

Lemma rightShift_div2 (n : Z) : rightShift n = n / 2.
Proof.
  unfold rightShift. rewrite land_1_odd.
  rewrite (Z.div_mod n 2) at 1 by lia. rewrite Zmod_odd.
  destruct (Z.odd n).
  - replace (2 * (n / 2) + 1 - 1) with (n / 2 * 2) by lia. now rewrite Z.div_mul.
  - replace (2 * (n / 2) + 0 - 0) with (n / 2 * 2) by lia. now rewrite Z.div_mul.
Qed.

Lemma trailing_zeros_nonneg (p : positive) : 0 <= trailing_zeros p.
Proof. induction p; simpl; lia. Qed.

(** A positive number is an odd number times two to its trailing zeros. *)
Lemma trailing_zeros_spec (p : positive) :
  exists q, 0 <= q /\ Zpos p = (2 * q + 1) * 2 ^ trailing_zeros p.
Proof.
  induction p as [p _|p [q [Hq IH]]|].
  - exists (Zpos p). simpl trailing_zeros. split; [lia|]. rewrite Z.pow_0_r. lia.
  - exists q. split; [exact Hq|]. simpl trailing_zeros.
    rewrite Z.pow_add_r by (try lia; apply trailing_zeros_nonneg).
    change (2 ^ 1) with 2. rewrite Pos2Z.inj_xO, IH. lia.
  - exists 0. split; [lia|]. reflexivity.
Qed.

Lemma depth_nonneg (i : Z) : 0 <= depth i.
Proof.
  unfold depth. destruct (i + 1); try lia. apply trailing_zeros_nonneg.
Qed.

Lemma depth_spec (i : Z) :
  0 <= i -> exists q, 0 <= q /\ i + 1 = (2 * q + 1) * 2 ^ depth i.
Proof.
  intros Hi. unfold depth. destruct (i + 1) as [|p|p] eqn:Hp; try lia.
  apply trailing_zeros_spec.
Qed.

Lemma pow2_pos (d : Z) : 0 <= d -> 0 < 2 ^ d.
Proof. intros. apply Z.pow_pos_nonneg; lia. Qed.

(** The decomposition is unique. *)
Lemma odd_pow2_unique (q q' d d' : Z) :
  0 <= d -> 0 <= d' ->
  (2 * q + 1) * 2 ^ d = (2 * q' + 1) * 2 ^ d' -> d = d' /\ q = q'.
Proof.
  intros Hd. revert d' q q'.
  pattern d. apply natlike_ind; [| |exact Hd]; clear d Hd.
  - intros d' q q' Hd' Heq. rewrite Z.pow_0_r in Heq.
    destruct (Z.eq_dec d' 0) as [->|Hne].
    + rewrite Z.pow_0_r in Heq. lia.
    + replace d' with (Z.succ (d' - 1)) in Heq by lia.
      rewrite Z.pow_succ_r in Heq by lia. lia.
  - intros d Hd IH d' q q' Hd' Heq.
    rewrite Z.pow_succ_r in Heq by lia.
    destruct (Z.eq_dec d' 0) as [->|Hne].
    + rewrite Z.pow_0_r in Heq. lia.
    + replace d' with (Z.succ (d' - 1)) in Heq by lia.
      rewrite Z.pow_succ_r in Heq by lia.
      destruct (IH (d' - 1) q q') as [H1 H2]; [lia|lia|]. lia.
Qed.

Lemma index_succ (d o : Z) : index d o + 1 = (2 * o + 1) * 2 ^ d.
Proof. unfold index, twoPow. lia. Qed.

Lemma index_nonneg (d o : Z) : 0 <= d -> 0 <= o -> 0 <= index d o.
Proof.
  intros Hd Ho. pose proof (pow2_pos d Hd). pose proof (index_succ d o). nia.
Qed.

Lemma depth_index (d o : Z) : 0 <= d -> 0 <= o -> depth (index d o) = d.
Proof.
  intros Hd Ho.
  destruct (depth_spec (index d o) (index_nonneg d o Hd Ho)) as (q & Hq & Heq).
  rewrite index_succ in Heq.
  destruct (odd_pow2_unique o q d (depth (index d o)) Hd (depth_nonneg _) Heq)
    as [Hdd _].
  now symmetry.
Qed.

Lemma even_iff_depth0 (i : Z) : 0 <= i -> (Z.even i = true <-> depth i = 0).
Proof.
  intros Hi. destruct (depth_spec i Hi) as (q & Hq & Heq).
  pose proof (depth_nonneg i) as Hd. split.
  - intros Hev. destruct (Z.eq_dec (depth i) 0) as [|Hne]; [assumption|].
    replace (depth i) with (Z.succ (depth i - 1)) in Heq by lia.
    rewrite Z.pow_succ_r in Heq by lia.
    apply Zeven_bool_iff in Hev. destruct (Zeven_ex i Hev) as [m Hm]. lia.
  - intros H0. rewrite H0, Z.pow_0_r in Heq.
    replace i with (2 * q) by lia. rewrite Z.even_mul. reflexivity.
Qed.

Lemma offset_spec (i : Z) :
  0 <= i -> 0 <= offset i /\ i + 1 = (2 * offset i + 1) * 2 ^ depth i.
Proof.
  intros Hi. destruct (depth_spec i Hi) as (q & Hq & Heq).
  unfold offset. rewrite land_1_even.
  destruct (Z.even i) eqn:Hev.
  - apply (even_iff_depth0 i Hi) in Hev. rewrite Hev, Z.pow_0_r in *.
    replace i with (q * 2) by lia. rewrite Z.div_mul by lia. lia.
  - unfold twoPow. pose proof (pow2_pos (depth i) (depth_nonneg i)) as Hp.
    rewrite Heq. rewrite Z.div_mul by lia.
    replace (2 * q + 1 - 1) with (q * 2) by lia. rewrite Z.div_mul by lia.
    split; [exact Hq|reflexivity].
Qed.

Lemma offset_nonneg (i : Z) : 0 <= i -> 0 <= offset i.
Proof. intros Hi. apply (offset_spec i Hi). Qed.

Lemma index_depth_offset (i : Z) : 0 <= i -> index (depth i) (offset i) = i.
Proof.
  intros Hi. pose proof (index_succ (depth i) (offset i)).
  destruct (offset_spec i Hi) as [_ Heq]. lia.
Qed.

Lemma offset_index (d o : Z) : 0 <= d -> 0 <= o -> offset (index d o) = o.
Proof.
  intros Hd Ho.
  destruct (offset_spec (index d o) (index_nonneg d o Hd Ho)) as [Hq Heq].
  rewrite index_succ, (depth_index d o Hd Ho) in Heq.
  destruct (odd_pow2_unique o (offset (index d o)) d d Hd Hd Heq). lia.
Qed.

Lemma index_inj (d o d' o' : Z) :
  0 <= d -> 0 <= d' -> index d o = index d' o' -> d = d' /\ o = o'.
Proof.
  intros Hd Hd' Heq. apply odd_pow2_unique; try assumption.
  rewrite <- !index_succ. lia.
Qed.

(** Parent, sibling, children and spans in coordinates. *)
Lemma parent_index (d o : Z) :
  0 <= d -> 0 <= o -> parent (index d o) = index (d + 1) (o / 2).
Proof.
  intros Hd Ho. unfold parent.
  now rewrite depth_index, offset_index, rightShift_div2.
Qed.

Lemma sibling_index (d o : Z) :
  0 <= d -> 0 <= o ->
  sibling (index d o) = index d (if Z.even o then o + 1 else o - 1).
Proof.
  intros Hd Ho. unfold sibling.
  now rewrite depth_index, offset_index, land_1_even.
Qed.

Lemma rightSpan_index (d o : Z) :
  0 <= d -> 0 <= o -> rightSpan (index d o) = (o + 1) * 2 ^ (d + 1) - 2.
Proof.
  intros Hd Ho. unfold rightSpan. rewrite land_1_even.
  destruct (Z.even (index d o)) eqn:Hev.
  - apply (even_iff_depth0 _ (index_nonneg d o Hd Ho)) in Hev.
    rewrite depth_index in Hev by assumption. subst d.
    unfold index, twoPow. rewrite Z.pow_0_r. change (2 ^ (0 + 1)) with 2. lia.
  - now rewrite depth_index, offset_index.
Qed.

Lemma leftSpan_index (d o : Z) :
  0 <= d -> 0 <= o -> leftSpan (index d o) = o * 2 ^ (d + 1).
Proof.
  intros Hd Ho. unfold leftSpan. rewrite land_1_even.
  destruct (Z.even (index d o)) eqn:Hev.
  - apply (even_iff_depth0 _ (index_nonneg d o Hd Ho)) in Hev.
    rewrite depth_index in Hev by assumption. subst d.
    unfold index, twoPow. rewrite Z.pow_0_r. change (2 ^ (0 + 1)) with 2. lia.
  - now rewrite depth_index, offset_index.
Qed.

Lemma leftChild_index (d o : Z) :
  0 <= d -> 0 <= o -> leftChild (index (d + 1) o) = index d (2 * o).
Proof.
  intros Hd Ho. unfold leftChild. rewrite land_1_even.
  destruct (Z.even (index (d + 1) o)) eqn:Hev.
  - apply (even_iff_depth0 _ (index_nonneg (d + 1) o ltac:(lia) Ho)) in Hev.
    rewrite depth_index in Hev by lia. lia.
  - rewrite depth_index, offset_index by lia. f_equal; lia.
Qed.

Lemma index_leaf (o : Z) : index 0 o = 2 * o.
Proof. unfold index, twoPow. rewrite Z.pow_0_r. lia. Qed.

Lemma depth_leaf (o : Z) : 0 <= o -> depth (2 * o) = 0.
Proof. intros. rewrite <- index_leaf. now apply depth_index. Qed.

Lemma depth_parent (i : Z) : 0 <= i -> depth (parent i) = depth i + 1.
Proof.
  intros Hi. rewrite <- (index_depth_offset i Hi) at 1.
  pose proof (depth_nonneg i). pose proof (offset_nonneg i Hi).
  rewrite parent_index by assumption.
  apply depth_index; [lia|]. apply Z.div_pos; lia.
Qed.

Lemma depth_sibling (i : Z) : 0 <= i -> depth (sibling i) = depth i.
Proof.
  intros Hi. rewrite <- (index_depth_offset i Hi) at 1.
  pose proof (depth_nonneg i). pose proof (offset_spec i Hi) as [Ho _].
  rewrite sibling_index by assumption.
  apply depth_index; [lia|].
  destruct (Z.even (offset i)) eqn:Hev; [lia|].
  assert (offset i <> 0) by (intros Hz; rewrite Hz in Hev; discriminate). lia.
Qed.

Lemma parent_nonneg (i : Z) : 0 <= i -> 0 <= parent i.
Proof.
  intros Hi. rewrite <- (index_depth_offset i Hi).
  pose proof (depth_nonneg i). pose proof (offset_nonneg i Hi).
  rewrite parent_index by assumption.
  apply index_nonneg; [lia|]. apply Z.div_pos; lia.
Qed.

Lemma sibling_nonneg (i : Z) : 0 <= i -> 0 <= sibling i.
Proof.
  intros Hi. rewrite <- (index_depth_offset i Hi).
  pose proof (depth_nonneg i). pose proof (offset_nonneg i Hi) as Ho.
  rewrite sibling_index by assumption.
  apply index_nonneg; [lia|].
  destruct (Z.even (offset i)) eqn:Hev; [lia|].
  assert (offset i <> 0) by (intros Hz; rewrite Hz in Hev; discriminate). lia.
Qed.

(** An index is at least its depth. *)
Lemma depth_le_index (i : Z) : 0 <= i -> depth i <= i.
Proof.
  intros Hi. destruct (offset_spec i Hi) as [Ho Heq].
  pose proof (depth_nonneg i) as Hd.
  pose proof (Z.pow_gt_lin_r 2 (depth i) ltac:(lia)). nia.
Qed.

End flat_facts.

(** ** The operations give an answer *)

Section totality.
Context `{Crypto} `{TreeIndex}.
Context {value : Type} (codec : Codec value).
Context (keyPair : digest * secret).
Import flat_facts.

Lemma getNode_index (st : storage.t) (i : Z) (n : Node digest) :
  storage.getNode st i = Some n -> storage_node.index n = i.
Proof.
  unfold storage.getNode. destruct (storage.tree st !! i) as [[h sz]|]; [|discriminate].
  intros Hn. injection Hn as <-. reflexivity.
Qed.

Lemma isBlock_even (i : Z) : isBlock i = Z.even i.
Proof. apply land_1_even. Qed.

Lemma leftChild_depth (i : Z) :
  0 <= i -> isBlock i = false ->
  0 <= flat.leftChild i /\ flat.depth (flat.leftChild i) = flat.depth i - 1.
Proof.
  intros Hi Hb. rewrite isBlock_even in Hb.
  assert (Hd : flat.depth i <> 0).
  { intros Hd. apply (even_iff_depth0 i Hi) in Hd. congruence. }
  pose proof (depth_nonneg i) as Hdn. pose proof (offset_nonneg i Hi) as Ho.
  assert (Hl : flat.leftChild i = flat.index (flat.depth i - 1) (2 * flat.offset i)).
  { rewrite <- (index_depth_offset i Hi) at 1.
    replace (flat.index (flat.depth i) (flat.offset i))
      with (flat.index (flat.depth i - 1 + 1) (flat.offset i)) by (f_equal; lia).
    apply leftChild_index; lia. }
  rewrite Hl. split; [apply index_nonneg; lia|apply depth_index; lia].
Qed.

Lemma seek_left_total (s : Feed.t) (fuel : nat) (child nearest : Z) :
  0 <= child -> flat.depth child < Z.of_nat fuel ->
  exists r, seek_left s fuel child nearest = Some r
            /\ match r with
               | inl c => 0 <= c /\ flat.depth c <= flat.depth child
               | inr _ => True
               end.
Proof.
  revert child. induction fuel as [|fuel IH]; intros child Hc Hd.
  - pose proof (depth_nonneg child). lia.
  - simpl. destruct (bits.get (Feed.tree s) child).
    + eexists. split; [reflexivity|]. split; [exact Hc|lia].
    + destruct (isBlock child) eqn:Hb.
      * eexists. split; [reflexivity|exact I].
      * destruct (leftChild_depth child Hc Hb) as [Hl Hdl].
        destruct (IH (flat.leftChild child) Hl ltac:(lia)) as (r & Hr & Hprop).
        exists r. split; [exact Hr|]. destruct r; [|exact I]. lia.
Qed.

Lemma seek_onroot_total (s : Feed.t) (fuel : nat) (top offset nearest : Z) :
  0 <= top -> flat.depth top < Z.of_nat fuel ->
  exists r, seek_onroot s fuel top offset nearest = Some r.
Proof.
  revert top offset nearest. induction fuel as [|fuel IH]; intros top offset nearest Ht Hd.
  - pose proof (depth_nonneg top). lia.
  - cbn [seek_onroot]. destruct (isBlock top) eqn:Hb; [eauto|].
    destruct (leftChild_depth top Ht Hb) as [Hl Hdl].
    destruct (seek_left_total s (S fuel) (flat.leftChild top) nearest Hl ltac:(lia))
      as (r & Hr & Hprop).
    rewrite Hr. destruct r as [c|found]; [|eauto].
    destruct Hprop as [Hc Hdc].
    destruct (storage.getNode (Feed._storage s) c) as [node|] eqn:Hn; [|eauto].
    apply getNode_index in Hn. rewrite Hn.
    destruct (offset <? storage_node.size node).
    + apply IH; [exact Hc|lia].
    + apply IH; [now apply sibling_nonneg|rewrite depth_sibling by exact Hc; lia].
Qed.

Lemma fullRoots_loop_nonneg (fuel : nat) (leaves offset : Z) :
  0 <= offset -> Forall (fun r => 0 <= r) (flat.fullRoots_loop fuel leaves offset).
Proof.
  revert leaves offset. induction fuel as [|fuel IH]; intros leaves offset Ho; simpl.
  - constructor.
  - destruct (Z.leb_spec leaves 0); [constructor|].
    pose proof (pow2_pos (Z.log2 leaves) (Z.log2_nonneg leaves)) as Hp.
    unfold flat.twoPow. constructor; [lia|]. apply IH. lia.
Qed.

Lemma fullRoots_nonneg (i : Z) : Forall (fun r => 0 <= r) (flat.fullRoots i).
Proof. apply fullRoots_loop_nonneg. lia. Qed.

Lemma seek_loop_total (s : Feed.t) (roots : list Z) (offset : Z) :
  Forall (fun r => 0 <= r) roots ->
  exists r, seek_loop s roots offset = Some r.
Proof.
  revert offset. induction roots as [|r rest IH]; intros offset Hall;
    cbn [seek_loop]; [eauto|].
  inversion Hall as [|? ? Hr Hrest]; subst.
  destruct (storage.getNode (Feed._storage s) r) as [node|] eqn:Hn; [|eauto].
  apply getNode_index in Hn. rewrite Hn.
  destruct (offset <? storage_node.size node).
  - apply seek_onroot_total; [exact Hr|]. pose proof (depth_nonneg r). lia.
  - apply IH. exact Hrest.
Qed.

Lemma _seek_total (s : Feed.t) (offset : Z) : exists r, _seek s offset = Some r.
Proof.
  unfold _seek. destruct (offset =? 0); [eauto|].
  apply seek_loop_total, fullRoots_nonneg.
Qed.

Lemma seek_total (s : Feed.t) (bytes : Z) (opts : SeekOpts) (cb : nat) :
  exists r, seek s bytes opts cb = Some r.
Proof.
  unfold seek. destruct (_seek_total s bytes) as [r ->].
  repeat match goal with
         | |- context [match ?x with _ => _ end] => destruct x
         end; eauto.
Qed.

Lemma pollWaiting_loop_total (n : nat) (s : Feed.t) (i : nat) :
  exists r, pollWaiting_loop n s i = Some r.
Proof.
  revert s i. induction n as [|n IH]; intros s i; simpl; [eauto|].
  destruct (Feed._waiting s !! i) as [next|]; [|eauto].
  destruct ((w_bytes next =? 0) && negb (bits.get (Feed.bitfield s) (w_index next)));
    [apply IH|].
  destruct (w_bytes next =? 0); [apply IH|].
  match goal with
  | |- context [seek ?s' ?b ?o ?c] => destruct (seek_total s' b o c) as [[out s''] ->]
  end.
  apply IH.
Qed.

Lemma _pollWaiting_total (s : Feed.t) : exists s', _pollWaiting s = Some s'.
Proof. unfold _pollWaiting. apply pollWaiting_loop_total. Qed.

Lemma _syncBitfield_total (s : Feed.t) : exists s', _syncBitfield s = Some s'.
Proof. unfold _syncBitfield. apply _pollWaiting_total. Qed.

Lemma _write_total (s : Feed.t) (index : Z) (data : list byte)
    (ns : list (Node digest)) (sig : option (Z * signature)) :
  exists r, _write s index data ns sig = Some r.
Proof.
  unfold _write. destruct (storage.putData _ _ _ _); [|eauto].
  unfold _writeDone.
  match goal with
  | |- context [_syncBitfield ?s'] => destruct (_syncBitfield_total s') as [s'' ->]
  end.
  eauto.
Qed.

End totality.

(** ** Put: a missing signature *)

(** C7 (missing signature).  For every open live feed with [length > 0], a
    put whose verification reaches the root check with every root at hand
    but whose proof carries no signature fails with 'Remote did not include
    a signature', and the feed is left exactly as it was: length,
    byteLength, bit fields and the store, with all its nodes, are
    unchanged. *)
Theorem missing_signature_rejected :
  forall `{Crypto} `{TreeIndex} (value : Type) (codec : Codec value)
         (keyPair : digest * secret) (s : Feed.t) (index : Z) (v : value)
         (p : MerkleProof) (top : Node digest) (remote visited : list (Node digest)),
    Feed.opened s = true ->
    Feed.live s = true ->
    0 < Feed.length s ->
    proof_signature p = None ->
    reaches_roots s index (encode codec v) p top remote visited ->
    put codec keyPair s index v p = Some (Err NoSignature, s)
    /\ message NoSignature = "Remote did not include a signature"%string.
Proof.
  intros C T value codec keyPair s index v p top remote visited
         Hop Hlive Hlen Hsig (missingNodes & trustedNode & Hload & Hclimb & Hnr & Hns).
  split; [|reflexivity].
  unfold put, _ready. rewrite Hop.
  unfold _putBuffer. rewrite Hload.
  unfold _verifyAndWrite. rewrite Hclimb.
  unfold _verifyRootsAndWrite. rewrite Hnr, Hns, Hsig, Hlive.
  destruct (Z.eqb_spec (Feed.length s) 0); [lia|]. reflexivity.
Qed.

Lemma missing_signature_rejected_witness :
  put utf8 example.kp example.reader 1 "worle"%string (mkProof [] None)
  = Some (Err NoSignature, example.reader).
Proof.
  refine (proj1 (@missing_signature_rejected ideal.crypto tree_index.reference
                   string utf8 example.kp example.reader 1 "worle"%string
                   (mkProof [] None)
                   (mkNode 2 (ideal.Leaf (list_byte_of_string "worle")) 5) [] []
                   _ _ _ _ _)).
  - reflexivity.
  - reflexivity.
  - vm_compute. reflexivity.
  - reflexivity.
  - exists [], (Some (mkNode 2 (ideal.Leaf (list_byte_of_string "world")) 5)).
    vm_compute. repeat split; reflexivity.
Defined.

(** ** Put: the verification procedure *)

Module put_facts.
Import flat flat_facts.

Lemma pow2_succ (d : Z) : 0 <= d -> 2 ^ (d + 1) = 2 * 2 ^ d.
Proof. intros. rewrite Z.pow_add_r by lia. change (2 ^ 1) with 2. lia. Qed.

Lemma even_half (o : Z) : Z.even o = true -> o = 2 * (o / 2).
Proof.
  intros Hev. rewrite (Z.div_mod o 2) at 1 by lia.
  rewrite Zmod_even, Hev. lia.
Qed.

Lemma odd_half (o : Z) : Z.even o = false -> o = 2 * (o / 2) + 1.
Proof.
  intros Hev. rewrite (Z.div_mod o 2) at 1 by lia.
  rewrite Zmod_even, Hev. lia.
Qed.

(** The parent ends where its right child ends. *)
Lemma rightSpan_parent (i : Z) :
  0 <= i ->
  rightSpan i <= rightSpan (parent i)
  /\ rightSpan (sibling i) <= rightSpan (parent i).
Proof.
  intros Hi.
  pose proof (depth_nonneg i) as Hd. pose proof (offset_nonneg i Hi) as Ho.
  rewrite <- (index_depth_offset i Hi).
  set (d := depth i) in *. set (o := offset i) in *.
  assert (Hk : 0 <= o / 2) by (apply Z.div_pos; lia).
  rewrite parent_index, sibling_index by assumption.
  rewrite (rightSpan_index (d + 1) (o / 2)) by lia.
  rewrite (rightSpan_index d o) by lia.
  pose proof (pow2_pos (d + 1) ltac:(lia)) as Hp.
  replace (d + 1 + 1) with ((d + 1) + 1) by lia. rewrite (pow2_succ (d + 1)) by lia.
  destruct (Z.even o) eqn:Hev.
  - pose proof (even_half o Hev). rewrite rightSpan_index by lia. nia.
  - pose proof (odd_half o Hev). rewrite rightSpan_index by lia. nia.
Qed.

(** Of two siblings, the one at an even offset has the smaller index. *)
Lemma sibling_order (i : Z) :
  0 <= i ->
  if Z.even (offset i) then i < sibling i else sibling i < i.
Proof.
  intros Hi.
  pose proof (depth_nonneg i) as Hd. pose proof (offset_nonneg i Hi) as Ho.
  pose proof (index_depth_offset i Hi) as Hidx.
  unfold sibling. rewrite land_1_even.
  pose proof (pow2_pos (depth i) Hd) as Hp.
  destruct (Z.even (offset i)); unfold index, twoPow in *; nia.
Qed.

End put_facts.

Section put_procedure.
Context `{Crypto} `{TreeIndex}.
Context {value : Type} (codec : Codec value).
Context (keyPair : digest * secret).
Import flat_facts put_facts.

Lemma spec_equals_verifyNode trusted (top : Node digest) :
  spec_equals trusted top = verifyNode trusted top.
Proof. reflexivity. Qed.

(** With the sibling in hand, the parent that [_verifyAndWrite] builds is
    the parent with the children ordered left child first. *)
Lemma spec_parent_code (top node : Node digest) :
  0 <= storage_node.index top ->
  storage_node.index node = flat.sibling (storage_node.index top) ->
  spec_parent top node
  = mkNode (flat.parent (storage_node.index top)) (hash.parent top node)
           (storage_node.size top + storage_node.size node).
Proof.
  intros Ht Hn. unfold spec_parent, hash.parent.
  pose proof (sibling_order (storage_node.index top) Ht) as Hord.
  rewrite Hn.
  destruct (Z.even (flat.offset (storage_node.index top))).
  - destruct (Z.ltb_spec (flat.sibling (storage_node.index top)) (storage_node.index top));
      [lia|reflexivity].
  - destruct (Z.ltb_spec (flat.sibling (storage_node.index top)) (storage_node.index top));
      [reflexivity|lia].
Qed.

(** The planning loop of [_putBuffer] ends. *)
Lemma putBuffer_loop_total (fuel : nat) (tree : bits.t) (remote : list (Node digest))
    (next : Z) (missing : list Z) :
  0 <= next ->
  Z.of_nat (List.length remote) + Z.max 0 (bits.length tree - flat.depth next)
    < Z.of_nat fuel ->
  exists r, putBuffer_loop fuel tree remote next missing = Some r.
Proof.
  revert remote next missing. induction fuel as [|fuel IH];
    intros remote next missing Hn Hf; [lia|].
  cbn [putBuffer_loop]. destruct (bits.get tree next); [eauto|].
  pose proof (depth_parent next Hn) as Hdp.
  pose proof (parent_nonneg next Hn) as Hpn.
  destruct (head_is remote (flat.sibling next)) eqn:Hh.
  - apply IH; [exact Hpn|].
    destruct remote as [|n rest]; [discriminate|]. cbn [tl List.length] in *. lia.
  - destruct (bits.get tree (flat.sibling next)) eqn:Hs; cbn [negb]; [|eauto].
    apply IH; [exact Hpn|].
    apply bits_get_true_lt in Hs.
    pose proof (depth_le_index (flat.sibling next) (sibling_nonneg next Hn)) as Hdl.
    rewrite depth_sibling in Hdl by exact Hn. lia.
Qed.

Lemma putBuffer_load_total (s : Feed.t) (index : Z) (remote : list (Node digest)) :
  0 <= index -> exists r, putBuffer_load s index remote = Some r.
Proof.
  intros Hi. unfold putBuffer_load.
  destruct (putBuffer_loop_total
              (S (S (List.length remote + List.length (Feed.tree s))))
              (Feed.tree s) remote (2 * index) []) as [[trusted missing] ->].
  - lia.
  - rewrite depth_leaf by exact Hi. unfold bits.length. lia.
  - destruct (getNodes _ missing); [|eauto].
    destruct ((-1 <? trusted) && _); eauto.
Qed.

Lemma nth_error_skipn_cons {A : Type} (l : list A) (c : nat) (x : A) :
  nth_error l c = Some x -> skipn c l = x :: skipn (S c) l.
Proof.
  revert c. induction l as [|a l IH]; intros c Hn.
  - destruct c; discriminate.
  - destruct c as [|c]; cbn in *.
    + injection Hn as ->. reflexivity.
    + apply IH. exact Hn.
Qed.

Lemma nth_error_skipn_nil {A : Type} (l : list A) (c : nat) :
  nth_error l c = None -> skipn c l = [].
Proof.
  revert c. induction l as [|a l IH]; intros c Hn.
  - now destruct c.
  - destruct c as [|c]; cbn in *; [discriminate|]. apply IH. exact Hn.
Qed.

Lemma firstn_S_nth {A : Type} (l : list A) (c : nat) (x : A) :
  nth_error l c = Some x -> firstn (S c) l = firstn c l ++ [x].
Proof.
  revert c. induction l as [|a l IH]; intros c Hn.
  - destruct c; discriminate.
  - destruct c as [|c]; cbn in *.
    + injection Hn as ->. reflexivity.
    + f_equal. apply IH. exact Hn.
Qed.

Lemma verify_loop_spec_climb (proof_nodes : list (Node digest)) trusted :
  forall (fuel fuel' : nat) (top : Node digest) (cursor : nat)
         (localNodes visited : list (Node digest)),
    (List.length (skipn cursor proof_nodes) + List.length localNodes < fuel)%nat ->
    (fuel < fuel')%nat ->
    verifyNode trusted top = false ->
    0 <= storage_node.index top ->
    Forall (fun n => flat.rightSpan (storage_node.index n)
                     <= flat.rightSpan (storage_node.index top))
           (firstn cursor proof_nodes) ->
    exists c c',
      verify_loop fuel trusted top (skipn cursor proof_nodes) localNodes visited = Some c
      /\ spec_climb fuel' trusted proof_nodes cursor top localNodes visited = Some c'
      /\ climb_agrees proof_nodes c c'.
Proof.
  induction fuel as [|fuel IH];
    intros fuel' top cursor localNodes visited Hf Hff Hv Ht Hall; [lia|].
  destruct fuel' as [|fuel']; [lia|].
  cbn [verify_loop spec_climb]. change (@spec_equals H) with (@verifyNode H). rewrite Hv.
  pose proof (rightSpan_parent (storage_node.index top) Ht) as [Hrs Hrss].
  pose proof (parent_nonneg _ Ht) as Hpn.
  (* the step shared by both sides once the sibling [node] is chosen *)
  assert (Hstep : forall node cursor' localNodes' visited',
            storage_node.index node = flat.sibling (storage_node.index top) ->
            (List.length (skipn cursor' proof_nodes) + List.length localNodes' < fuel)%nat ->
            Forall (fun n => flat.rightSpan (storage_node.index n)
                             <= flat.rightSpan (flat.parent (storage_node.index top)))
                   (firstn cursor' proof_nodes) ->
            exists c c',
              (if verifyNode trusted
                    (mkNode (flat.parent (storage_node.index top)) (hash.parent top node)
                            (storage_node.size top + storage_node.size node))
               then Some (Anchored (visited' ++ [top]))
               else verify_loop fuel trusted
                      (mkNode (flat.parent (storage_node.index top)) (hash.parent top node)
                              (storage_node.size top + storage_node.size node))
                      (skipn cursor' proof_nodes) localNodes' (visited' ++ [top])) = Some c
              /\ spec_climb fuel' trusted proof_nodes cursor' (spec_parent top node)
                            localNodes' (visited' ++ [top]) = Some c'
              /\ climb_agrees proof_nodes c c').
  { intros node cursor' localNodes' visited' Hnode Hlen Hall'.
    rewrite (spec_parent_code top node Ht Hnode).
    destruct (verifyNode trusted (mkNode _ _ _)) eqn:Hv'.
    - destruct fuel' as [|fuel'']; [lia|].
      cbn [spec_climb]. change (@spec_equals H) with (@verifyNode H). rewrite Hv'.
      eexists _, _. split; [reflexivity|]. split; [reflexivity|]. reflexivity.
    - apply IH; try assumption; try lia. }
  (* the sibling is not among the proof nodes: the local list decides *)
  assert (Hlocal :
            shift_if (skipn cursor proof_nodes) (flat.sibling (storage_node.index top)) = None ->
            exists c c',
              match shift_if (skipn cursor proof_nodes)
                             (flat.sibling (storage_node.index top)) with
              | Some (node, remote') =>
                  (fun node remote0 localNodes0 visited0 =>
                     if verifyNode trusted
                          (mkNode (flat.parent (storage_node.index top))
                                  (hash.parent top node)
                                  (storage_node.size top + storage_node.size node))
                     then Some (Anchored (visited0 ++ [top]))
                     else verify_loop fuel trusted
                            (mkNode (flat.parent (storage_node.index top))
                                    (hash.parent top node)
                                    (storage_node.size top + storage_node.size node))
                            remote0 localNodes0 (visited0 ++ [top]))
                    node remote' localNodes (visited ++ [node])
              | None =>
                  match shift_if localNodes (flat.sibling (storage_node.index top)) with
                  | Some (node, local') =>
                      (fun node remote0 localNodes0 visited0 =>
                         if verifyNode trusted
                              (mkNode (flat.parent (storage_node.index top))
                                      (hash.parent top node)
                                      (storage_node.size top + storage_node.size node))
                         then Some (Anchored (visited0 ++ [top]))
                         else verify_loop fuel trusted
                                (mkNode (flat.parent (storage_node.index top))
                                        (hash.parent top node)
                                        (storage_node.size top + storage_node.size node))
                                remote0 localNodes0 (visited0 ++ [top]))
                        node (skipn cursor proof_nodes) local' visited
                  | None => Some (AtRoots top (skipn cursor proof_nodes) visited)
                  end
              end = Some c
              /\ match localNodes with
                 | l :: rest =>
                     if storage_node.index l =? flat.sibling (storage_node.index top)
                     then spec_climb fuel' trusted proof_nodes cursor (spec_parent top l)
                                     rest (visited ++ [top])
                     else Some (SpecRoots top cursor visited)
                 | [] => Some (SpecRoots top cursor visited)
                 end = Some c'
              /\ climb_agrees proof_nodes c c').
  { intros Hnone. rewrite Hnone.
    destruct localNodes as [|l lrest]; cbn [shift_if].
    - eexists _, _. split; [reflexivity|]. split; [reflexivity|]. cbn. auto.
    - destruct (Z.eqb_spec (storage_node.index l)
                           (flat.sibling (storage_node.index top))) as [Hl|Hl].
      + apply (Hstep l cursor lrest visited Hl).
        * cbn [List.length] in Hf. lia.
        * eapply Forall_impl; [exact Hall|]. cbn. intros; lia.
      + eexists _, _. split; [reflexivity|]. split; [reflexivity|]. cbn. auto. }
  destruct (nth_error proof_nodes cursor) as [n|] eqn:Hnth.
  - pose proof (nth_error_skipn_cons _ _ _ Hnth) as Hskip.
    destruct (Z.eqb_spec (storage_node.index n)
                         (flat.sibling (storage_node.index top))) as [Hn|Hn].
    + assert (Hsh : shift_if (skipn cursor proof_nodes)
                             (flat.sibling (storage_node.index top))
                    = Some (n, skipn (S cursor) proof_nodes)).
      { rewrite Hskip. cbn [shift_if]. apply Z.eqb_eq in Hn. now rewrite Hn. }
      rewrite Hsh.
      replace (visited ++ [n; top]) with ((visited ++ [n]) ++ [top])
        by (rewrite <- app_assoc; reflexivity).
      apply (Hstep n (S cursor) localNodes (visited ++ [n]) Hn).
      * rewrite Hskip in Hf. cbn [List.length] in Hf. lia.
      * rewrite (firstn_S_nth _ _ _ Hnth). apply Forall_app. split.
        -- eapply Forall_impl; [exact Hall|]. cbn. intros; lia.
        -- constructor; [|constructor]. rewrite Hn. exact Hrss.
    + apply Hlocal. rewrite Hskip. cbn [shift_if].
      apply Z.eqb_neq in Hn. now rewrite Hn.
  - apply Hlocal. now rewrite (nth_error_skipn_nil _ _ Hnth).
Qed.

End put_procedure.

Section put_theorem.
Context `{Crypto} `{TreeIndex}.
Import flat_facts put_facts.

(** [verifiedBy] as the code computes it, from the nodes left over, is
    [verifiedBy] as the specification words it, from the proof as sent: a
    proof node used up on the way lies under the top. *)
Lemma verifiedBy_agree (proof_nodes : list (Node digest)) (top : Node digest)
    (cursor : nat) :
  Forall (fun n => flat.rightSpan (storage_node.index n)
                   <= flat.rightSpan (storage_node.index top))
         (firstn cursor proof_nodes) ->
  verifiedBy_of top (skipn cursor proof_nodes) = spec_verifiedBy proof_nodes top.
Proof.
  intros Hall. unfold verifiedBy_of, spec_verifiedBy.
  rewrite <- (firstn_skipn cursor proof_nodes) at 2.
  rewrite last_app.
  destruct (last (skipn cursor proof_nodes)) as [n|]; [reflexivity|].
  destruct (last (firstn cursor proof_nodes)) as [n|] eqn:Hlast; cbv beta iota;
    rewrite Z.max_id; [|reflexivity].
  apply last_Some_elem_of in Hlast.
  rewrite Forall_forall in Hall. specialize (Hall n Hlast). cbn in Hall.
  rewrite Z.max_l by exact Hall. reflexivity.
Qed.

Lemma verifyRootsAndWrite_total (s : Feed.t) (index : Z) (data : list byte)
    (top : Node digest) (remote : list (Node digest)) (sig : option signature)
    (ns : list (Node digest)) :
  exists r, _verifyRootsAndWrite s index data top remote sig ns = Some r.
Proof.
  unfold _verifyRootsAndWrite.
  destruct (not_read _); [eauto|]. destruct (not_sent _); [eauto|].
  destruct (negb (Feed.length s =? 0) && Feed.live s && negb (is_some sig)); [eauto|].
  match goal with
  | |- context [match ?c with Err _ => _ | Ok _ => _ end] => destruct c as [e|signed]
  end; [eauto|].
  apply _write_total.
Qed.

(** The plan of [_putBuffer] is the trust frontier of the specification. *)
Lemma putBuffer_loop_frontier (tree : bits.t) (proof_nodes : list (Node digest)) :
  forall (fuel cursor : nat) (next : Z) (missing : list Z),
    putBuffer_loop fuel tree (skipn cursor proof_nodes) next missing
    = option_map (fun r => (match fst r with Some t => t | None => -1 end, snd r))
                 (spec_frontier fuel tree proof_nodes cursor next missing).
Proof.
  induction fuel as [|fuel IH]; intros cursor next missing; [reflexivity|].
  cbn [putBuffer_loop spec_frontier].
  destruct (bits.get tree next); [reflexivity|].
  destruct (nth_error proof_nodes cursor) as [n|] eqn:Hnth.
  - rewrite (nth_error_skipn_cons _ _ _ Hnth). cbn [head_is tl].
    destruct (storage_node.index n =? flat.sibling next); [apply IH|].
    rewrite <- (nth_error_skipn_cons _ _ _ Hnth).
    destruct (bits.get tree (flat.sibling next)); cbn [negb]; [apply IH|].
    destruct (bits.get tree (flat.parent next)); reflexivity.
  - rewrite (nth_error_skipn_nil _ _ Hnth). cbn [head_is].
    rewrite <- (nth_error_skipn_nil _ _ Hnth).
    destruct (bits.get tree (flat.sibling next)); cbn [negb]; [apply IH|].
    destruct (bits.get tree (flat.parent next)); reflexivity.
Qed.

Lemma spec_frontier_anchor (tree : bits.t) (proof_nodes : list (Node digest)) :
  forall (fuel cursor : nat) (next : Z) (stored stored' : list Z) (t : Z),
    spec_frontier fuel tree proof_nodes cursor next stored = Some (Some t, stored') ->
    bits.get tree t = true.
Proof.
  induction fuel as [|fuel IH]; intros cursor next stored stored' t; [discriminate|].
  cbn [spec_frontier].
  destruct (bits.get tree next) eqn:Hn.
  { intros Hs. injection Hs as <- _. exact Hn. }
  destruct (match nth_error proof_nodes cursor with Some n => _ | None => false end);
    [apply IH|].
  destruct (bits.get tree (flat.sibling next)); [apply IH|].
  destruct (bits.get tree (flat.parent next)) eqn:Hp; [|discriminate].
  intros Hs. injection Hs as <- _. exact Hp.
Qed.

Lemma spec_loads_getNodes (st : storage.t) (indexes : list Z) :
  spec_loads st indexes = getNodes st indexes.
Proof.
  induction indexes as [|i rest IH]; [reflexivity|].
  cbn [spec_loads fold_right getNodes]. fold (spec_loads st rest). rewrite IH.
  reflexivity.
Qed.

(** The loads of [_putBuffer] are those of the specification. *)
Lemma putBuffer_load_trust (s : Feed.t) (index : Z) (proof_nodes : list (Node digest)) :
  putBuffer_load s index proof_nodes = spec_trust s index proof_nodes.
Proof.
  unfold putBuffer_load, spec_trust.
  pose proof (putBuffer_loop_frontier (Feed.tree s) proof_nodes
                (S (S (List.length proof_nodes + List.length (Feed.tree s)))) 0
                (2 * index) []) as Hplan.
  rewrite skipn_O in Hplan. rewrite Hplan.
  destruct (spec_frontier _ _ _ _ _ _) as [[anchor stored]|] eqn:Hf; [|reflexivity].
  cbn [option_map fst snd]. rewrite spec_loads_getNodes.
  destruct anchor as [t|].
  - apply spec_frontier_anchor in Hf.
    assert (Ht : (-1 <? t) = true).
    { apply Z.ltb_lt. unfold bits.get in Hf. destruct (Z.ltb_spec t 0); [discriminate|lia]. }
    rewrite Ht. cbn [andb].
    destruct (getNodes (Feed._storage s) stored);
      destruct (storage.getNode (Feed._storage s) t); reflexivity.
  - cbn [Z.ltb Z.compare andb]. destruct (getNodes (Feed._storage s) stored); reflexivity.
Qed.

(** The loop over the root indices collects the candidate roots of the
    specification. *)
Lemma collect_roots_spec (s : Feed.t) (top : Node digest)
    (proof_nodes : list (Node digest)) (indexes : list Z) :
  forall (cursor : nat) (ns : list (Node digest)),
    let r := collect_roots s top indexes (skipn cursor proof_nodes) ns in
    let '(rs, fresh, sent, read) := spec_roots s top proof_nodes cursor indexes in
    roots r = rs /\ written r = ns ++ fresh
    /\ not_sent r = negb sent /\ not_read r = negb read.
Proof.
  induction indexes as [|i rest IH]; intros cursor ns; cbn [collect_roots spec_roots].
  - cbn. rewrite app_nil_r. auto.
  - rewrite (Z.eqb_sym (storage_node.index top) i).
    destruct (i =? storage_node.index top).
    + specialize (IH cursor (ns ++ [top])). cbv zeta in IH.
      destruct (spec_roots s top proof_nodes cursor rest) as [[[rs fresh] sent] read].
      destruct IH as (Hr & Hw & Hs & Hd). cbn [roots written not_sent not_read].
      rewrite Hr, Hw, Hs, Hd, <- app_assoc. auto.
    + destruct (nth_error proof_nodes cursor) as [n|] eqn:Hnth.
      * rewrite (nth_error_skipn_cons _ _ _ Hnth). cbn [shift_if].
        destruct (storage_node.index n =? i).
        -- specialize (IH (S cursor) (ns ++ [n])). cbv zeta in IH.
           destruct (spec_roots s top proof_nodes (S cursor) rest)
             as [[[rs fresh] sent] read].
           destruct IH as (Hr & Hw & Hs & Hd). cbn [roots written not_sent not_read].
           rewrite Hr, Hw, Hs, Hd, <- app_assoc. auto.
        -- rewrite <- (nth_error_skipn_cons _ _ _ Hnth).
           specialize (IH cursor ns). cbv zeta in IH.
           destruct (spec_roots s top proof_nodes cursor rest) as [[[rs fresh] sent] read].
           destruct IH as (Hr & Hw & Hs & Hd).
           destruct (bits.get (Feed.tree s) i);
             [destruct (storage.getNode (Feed._storage s) i)|];
             cbn [roots written not_sent not_read negb]; rewrite ?Hr, ?Hw, ?Hs, ?Hd; auto.
      * rewrite (nth_error_skipn_nil _ _ Hnth). cbn [shift_if].
        rewrite <- (nth_error_skipn_nil _ _ Hnth).
        specialize (IH cursor ns). cbv zeta in IH.
        destruct (spec_roots s top proof_nodes cursor rest) as [[[rs fresh] sent] read].
        destruct IH as (Hr & Hw & Hs & Hd).
        destruct (bits.get (Feed.tree s) i);
          [destruct (storage.getNode (Feed._storage s) i)|];
          cbn [roots written not_sent not_read negb]; rewrite ?Hr, ?Hw, ?Hs, ?Hd; auto.
Qed.

(** [_putBuffer] decides as the specification does, and acts on the
    decision. *)
Lemma putBuffer_spec (s : Feed.t) (index : Z) (data : list byte) (p : MerkleProof) :
  0 <= index ->
  (exists r, _putBuffer s index data p = Some r)
  /\ _putBuffer s index data p
     = match spec_put s index data p with
       | Some v => write_verdict s index data p v
       | None => None
       end.
Proof.
  intros Hi. unfold _putBuffer, spec_put. rewrite <- putBuffer_load_trust.
  destruct (putBuffer_load_total s index (nodes p) Hi) as [[e|[localNodes trusted]] ->].
  { split; [eauto|reflexivity]. }
  unfold _verifyAndWrite, verify_climb.
  change (hash.data data) with (H_leaf data).
  set (top := mkNode (2 * index) (H_leaf data) (Z.of_nat (List.length data))).
  destruct (verifyNode trusted top) eqn:Hv.
  - cbn [spec_climb]. change (@spec_equals H) with (@verifyNode H). rewrite Hv.
    split; [apply _write_total|reflexivity].
  - destruct (verify_loop_spec_climb (nodes p) trusted
                (S (List.length (nodes p) + List.length localNodes))
                (S (S (List.length (nodes p) + List.length localNodes)))
                top 0 localNodes []) as (c & c' & Hc & Hc' & Hagree).
    + rewrite skipn_O. lia.
    + lia.
    + exact Hv.
    + subst top. cbn. lia.
    + constructor.
    + rewrite skipn_O in Hc. rewrite Hc, Hc'.
      destruct c as [v|t remote v], c' as [v'|t' cursor v']; cbn in Hagree;
        try contradiction.
      * subst v'. split; [apply _write_total|reflexivity].
      * destruct Hagree as (<- & <- & -> & Ht & Hall).
        split; [apply verifyRootsAndWrite_total|].
        unfold _verifyRootsAndWrite. rewrite (verifiedBy_agree _ _ _ Hall).
        change (hash.tree ?r) with (H_roots r).
        pose proof (collect_roots_spec s t (nodes p)
                      (flat.fullRoots (spec_verifiedBy (nodes p) t)) cursor v) as Hroots.
        cbv zeta in Hroots.
        destruct (spec_roots s t (nodes p) cursor _) as [[[rs fresh] sent] read].
        destruct Hroots as (-> & -> & -> & ->).
        destruct read; cbn [negb]; [|reflexivity].
        destruct sent; cbn [negb]; [|reflexivity].
        unfold spec_check, write_verdict.
        destruct (proof_signature p) as [sg|]; cbn [is_some negb].
        -- rewrite andb_false_r.
           destruct (Feed.key s) as [k|]; [|reflexivity].
           destruct (verify _ sg k); reflexivity.
        -- rewrite andb_true_r.
           destruct (Feed.length s =? 0), (Feed.live s); cbn [negb andb];
             try reflexivity;
             destruct (Feed.key s) as [k|]; try reflexivity;
             destruct (bool_decide _); reflexivity.
Qed.

End put_theorem.

(** C2 (put verification procedure).  For every put on an open feed the
    code gives an answer, and it acts on the verdict of the procedure of the
    specification, every step of which is written a second time from the
    specification's words: the trusted node is the first node on the way up
    from [2 * index] that the local tree holds, the way going on as long as
    the sibling is sent or stored; start from the node
    [(2 * index, H_leaf(data), |data|)]; while the top is not the trusted
    node, take the sibling from [proof.nodes] at the cursor if its index
    matches, else from the local nodes, and replace the top by the parent,
    hashed with the children ordered left child first and sized by the sum;
    if the trusted node is not reached, collect the full roots at
    [max(rightSpan(top), rightSpan(lastProofNode)) + 2], [lastProofNode]
    being the last node of the proof as sent, from the pending top, the
    proof or the local storage, and check [H_roots] over them against the
    signature or, on a feed that is not live, against the key. *)
Theorem put_verification_procedure :
  forall `{Crypto} `{TreeIndex} (value : Type) (codec : Codec value)
         (keyPair : digest * secret) (s : Feed.t) (index : Z) (v : value)
         (p : MerkleProof),
    Feed.opened s = true ->
    0 <= index ->
    (exists r, put codec keyPair s index v p = Some r)
    /\ put codec keyPair s index v p
       = match spec_put s index (encode codec v) p with
         | Some verdict => write_verdict s index (encode codec v) p verdict
         | None => None
         end.
Proof.
  intros C T value codec keyPair s index v p Hop Hi.
  unfold put, _ready. rewrite Hop. apply putBuffer_spec. exact Hi.
Qed.

Lemma put_verification_procedure_witness :
  put utf8 example.kp example.reader 1 "world"%string (example.proof_of 1)
  = match spec_put example.reader 1 (list_byte_of_string "world") (example.proof_of 1) with
    | Some verdict =>
        write_verdict example.reader 1 (list_byte_of_string "world")
                      (example.proof_of 1) verdict
    | None => None
    end.
Proof.
  refine (proj2 (@put_verification_procedure ideal.crypto tree_index.reference
                   string utf8 example.kp example.reader 1 "world"%string
                   (example.proof_of 1) _ _)).
  - reflexivity.
  - lia.
Defined.

(** ** Length and byteLength *)

Section frames.
Context `{Crypto} `{TreeIndex}.
Context {value : Type} (codec : Codec value).
Context (keyPair : digest * secret).

Lemma but_waiting_refl (s : Feed.t) : but_waiting s s.
Proof. reflexivity. Qed.

Lemma but_waiting_trans (s1 s2 s3 : Feed.t) :
  but_waiting s1 s2 -> but_waiting s2 s3 -> but_waiting s1 s3.
Proof. unfold but_waiting. congruence. Qed.

Lemma but_waiting_set (w : list Waiter) (s : Feed.t) :
  but_waiting s (Feed.with_waiting w s).
Proof. reflexivity. Qed.

Lemma but_waiting_fields (s s' : Feed.t) :
  but_waiting s s' ->
  Feed.length s' = Feed.length s /\ Feed.byteLength s' = Feed.byteLength s
  /\ Feed.live s' = Feed.live s /\ Feed.key s' = Feed.key s
  /\ Feed.secretKey s' = Feed.secretKey s /\ Feed.bitfield s' = Feed.bitfield s
  /\ Feed.tree s' = Feed.tree s /\ Feed.writable s' = Feed.writable s
  /\ Feed.opened s' = Feed.opened s /\ Feed._indexing s' = Feed._indexing s
  /\ Feed._merkle s' = Feed._merkle s /\ Feed._storage s' = Feed._storage s.
Proof.
  unfold but_waiting. intros Hw.
  repeat split;
    match goal with
    | |- ?f s' = ?f s =>
        change (f (Feed.with_waiting [] s') = f (Feed.with_waiting [] s));
        now rewrite Hw
    end.
Qed.

Lemma seek_but_waiting (s s' : Feed.t) bytes opts cb r :
  seek s bytes opts cb = Some (r, s') -> but_waiting s s'.
Proof.
  unfold seek. destruct (_seek s bytes) as [res|]; [|discriminate].
  repeat match goal with
         | |- context [match ?x with _ => _ end] => destruct x
         end;
    intros Hs; inversion Hs; subst; reflexivity.
Qed.

Lemma get_but_waiting (s : Feed.t) index wait cb :
  but_waiting s (snd (get codec s index wait cb)).
Proof.
  unfold get.
  repeat match goal with
         | |- context [match ?x with _ => _ end] => destruct x
         end; reflexivity.
Qed.

Lemma pollWaiting_loop_but_waiting (n : nat) :
  forall (s : Feed.t) (i : nat) s',
    pollWaiting_loop n s i = Some s' -> but_waiting s s'.
Proof.
  induction n as [|n IH]; intros s i s'; cbn [pollWaiting_loop].
  - intros Hs. injection Hs as <-. reflexivity.
  - destruct (Feed._waiting s !! i) as [next|];
      [|intros Hs; injection Hs as <-; reflexivity].
    destruct ((w_bytes next =? 0) && _); [apply IH|].
    destruct (w_bytes next =? 0).
    + intros Hs. apply IH in Hs.
      eapply but_waiting_trans; [apply but_waiting_set|exact Hs].
    + destruct (seek _ _ _ _) as [[out s1]|] eqn:Hseek; [|discriminate].
      intros Hs. apply IH in Hs. apply seek_but_waiting in Hseek.
      eapply but_waiting_trans; [apply but_waiting_set|].
      eapply but_waiting_trans; [exact Hseek|exact Hs].
Qed.

Lemma _pollWaiting_but_waiting (s s' : Feed.t) :
  _pollWaiting s = Some s' -> but_waiting s s'.
Proof. unfold _pollWaiting. apply pollWaiting_loop_but_waiting. Qed.

(** [_syncBitfield] stores the bit field and polls the waiters. *)
Lemma _syncBitfield_spec (s s' : Feed.t) :
  _syncBitfield s = Some s' ->
  but_waiting
    (Feed.with_storage
       (storage.putBitfield (Feed._storage s)
          (storage.mkBitfield (Feed.bitfield s) (Feed.tree s))) s) s'.
Proof. unfold _syncBitfield. apply _pollWaiting_but_waiting. Qed.

Lemma _write_lengths (s s' : Feed.t) index data ns sig r :
  _write s index data ns sig = Some (r, s') ->
  Feed.length s' = Feed.length s /\ Feed.byteLength s' = Feed.byteLength s.
Proof.
  unfold _write. destruct (storage.putData _ _ _ _).
  - unfold _writeDone.
    destruct (_syncBitfield _) as [s1|] eqn:Hsync; [|discriminate].
    intros Hs. injection Hs as _ <-.
    apply _syncBitfield_spec in Hsync. apply but_waiting_fields in Hsync.
    destruct Hsync as (Hl & Hb & _). fproj_in Hl. fproj_in Hb. auto.
  - intros Hs. injection Hs as _ <-. fproj. auto.
Qed.

End frames.

Section append_facts.
Context `{Crypto} `{TreeIndex}.
Context {value : Type} (codec : Codec value).
Context (keyPair : digest * secret).

Lemma iter_flip_fields (n : nat) (s : Feed.t) :
  let s' := Nat.iter n append_flip s in
  Feed.length s' = Feed.length s + Z.of_nat n
  /\ Feed.byteLength s' = Feed.byteLength s
  /\ Feed.live s' = Feed.live s
  /\ Feed.key s' = Feed.key s
  /\ Feed.secretKey s' = Feed.secretKey s
  /\ Feed.writable s' = Feed.writable s
  /\ Feed.opened s' = Feed.opened s
  /\ Feed._indexing s' = Feed._indexing s
  /\ Feed._merkle s' = Feed._merkle s
  /\ Feed._storage s' = Feed._storage s.
Proof.
  induction n as [|n IH]; cbv zeta in *.
  - change (Nat.iter 0 append_flip s) with s. repeat split; try reflexivity. lia.
  - rewrite Nat.iter_succ. set (x := Nat.iter n append_flip s) in *.
    destruct IH as (Hl & Hb & Hv & Hk & Hs & Hw & Ho & Hi & Hm & Hst).
    unfold append_flip. fproj.
    repeat split; try assumption. lia.
Qed.

(** What a completed append leaves. *)
Lemma append_complete_fields (n : nat) (s s' : Feed.t) (offset : Z) :
  append_complete n s offset = Some s' ->
  Feed.length s' = Feed.length s + Z.of_nat n
  /\ Feed.byteLength s' = Feed.byteLength s + offset
  /\ Feed.live s' = Feed.live s
  /\ Feed.key s' = Feed.key s
  /\ Feed.secretKey s' = Feed.secretKey s
  /\ Feed.writable s' = Feed.writable s
  /\ Feed.opened s' = Feed.opened s
  /\ Feed._indexing s' = Feed._indexing s
  /\ Feed._merkle s' = Feed._merkle s
  /\ Feed.bitfield s'
     = Feed.bitfield (Nat.iter n append_flip
                        (Feed.with_byteLength (Feed.byteLength s + offset) s))
  /\ Feed._storage s'
     = storage.putBitfield (Feed._storage s)
         (storage.mkBitfield (Feed.bitfield s') (Feed.tree s')).
Proof.
  unfold append_complete. intros Hc.
  apply _syncBitfield_spec in Hc. apply but_waiting_fields in Hc.
  destruct Hc as (Hl & Hb & Hv & Hk & Hs & Hbf & Ht & Hw & Ho & Hi & Hm & Hst).
  fproj_in Hl. fproj_in Hb. fproj_in Hv. fproj_in Hk. fproj_in Hs. fproj_in Hbf.
  fproj_in Ht. fproj_in Hw. fproj_in Ho. fproj_in Hi. fproj_in Hm. fproj_in Hst.
  destruct (iter_flip_fields n (Feed.with_byteLength (Feed.byteLength s + offset) s))
    as (Hl' & Hb' & Hv' & Hk' & Hs' & Hw' & Ho' & Hi' & Hm' & Hst').
  fproj_in Hl'. fproj_in Hb'. fproj_in Hv'. fproj_in Hk'. fproj_in Hs'.
  fproj_in Hw'. fproj_in Ho'. fproj_in Hi'. fproj_in Hm'. fproj_in Hst'.
  repeat split; congruence.
Qed.

Lemma next_nodes_nonempty (g : merkle.t) (d : list byte) ns g' :
  merkle.next g d = (ns, g') -> (1 <= List.length ns)%nat.
Proof.
  unfold merkle.next. destruct (merkle.merge _ _) as [stack made].
  intros Hn. injection Hn as <- _. cbn [List.length]. lia.
Qed.

(** *** Neither length nor byteLength goes down *)

Lemma append_done_grown (s0 : Feed.t) (n : nat) (a a' : Appending) :
  grown s0 a -> append_done n a = Some a' -> grown s0 a'.
Proof.
  unfold grown, append_done. intros (Hl & Hb & Ho).
  destruct (negb (a_pending a - 1 =? 0)).
  - intros Ha. injection Ha as <-. cbn. auto.
  - destruct (append_complete n (a_feed a) (a_offset a)) as [s|] eqn:Hc; [|discriminate].
    intros Ha. injection Ha as <-. cbn.
    apply append_complete_fields in Hc. destruct Hc as (Hl' & Hb' & _). lia.
Qed.

Lemma append_item_grown (s0 : Feed.t) (n : nat) (a a' : Appending) (i : Z) (v : value) :
  grown s0 a -> append_item codec n a i v = Some a' -> grown s0 a'.
Proof.
  unfold append_item. intros Hg.
  destruct (Feed._merkle (a_feed a)) as [g|]; [|discriminate].
  destruct (merkle.next g (encode codec v)) as [ns g'].
  set (a1 := mkAppending (Feed.with_merkle (Some g') (a_feed a)) _ _ _ _).
  assert (Hg1 : grown s0 a1) by exact Hg.
  clearbody a1.
  destruct (if Feed._indexing (a_feed a1) then _ else _) as [a2|] eqn:Hw; [|discriminate].
  assert (Hg2 : grown s0 a2).
  { destruct (Feed._indexing (a_feed a1)).
    - eapply append_done_grown; eassumption.
    - injection Hw as <-. exact Hg1. }
  clear Hw.
  destruct (if Feed.live (a_feed a2) then _ else _) as [a3|] eqn:Hs; [|discriminate].
  assert (Hg3 : grown s0 a3).
  { destruct (Feed.live (a_feed a2)).
    - destruct (Feed.secretKey (a_feed a2)); [|discriminate].
      injection Hs as <-. exact Hg2.
    - injection Hs as <-. exact Hg2. }
  intros Ha. injection Ha as <-.
  destruct Hg3 as (Hl & Hb & Ho). unfold grown. cbn [a_feed a_offset]. fproj.
  repeat split; try assumption. lia.
Qed.

Lemma append_items_grown (s0 : Feed.t) (n : nat) (batch : list value) :
  forall (a a' : Appending) (i : Z),
    grown s0 a -> append_items codec n a i batch = Some a' -> grown s0 a'.
Proof.
  induction batch as [|v rest IH]; intros a a' i Hg; cbn [append_items].
  - intros Ha. injection Ha as <-. exact Hg.
  - destruct (append_item codec n a i v) as [a1|] eqn:Hi; [|discriminate].
    apply IH. eapply append_item_grown; eassumption.
Qed.

Lemma append_answers_grown (s0 : Feed.t) (n : nat) (requests : nat) :
  forall (a a' : Appending),
    grown s0 a -> append_answers n requests a = Some a' -> grown s0 a'.
Proof.
  induction requests as [|r IH]; intros a a' Hg; cbn [append_answers].
  - intros Ha. injection Ha as <-. exact Hg.
  - destruct (append_done n a) as [a1|] eqn:Hd; [|discriminate].
    apply IH. eapply append_done_grown; eassumption.
Qed.

Lemma append_grows (s s' : Feed.t) (batch : list value) calls :
  Feed.opened s = true ->
  append codec keyPair s batch = Some (calls, s') ->
  Feed.length s <= Feed.length s' /\ Feed.byteLength s <= Feed.byteLength s'.
Proof.
  intros Hop. unfold append, _append, _ready. rewrite Hop.
  destruct (negb (Feed.writable s)); [intros Ha; injection Ha as _ <-; lia|].
  destruct (_ =? 0); [intros Ha; injection Ha as _ <-; lia|].
  destruct (append_items _ _ _ _ _) as [a1|] eqn:Hi; [|discriminate].
  destruct (append_answers _ _ _) as [a2|] eqn:Ha2; [|discriminate].
  intros Ha. injection Ha as _ <-.
  assert (Hg : grown s a2).
  { eapply append_answers_grown; [|exact Ha2].
    eapply append_items_grown; [|exact Hi].
    unfold grown. cbn. lia. }
  destruct Hg as (Hl & Hb & _). auto.
Qed.

End append_facts.

Section append_closed.
Context `{Crypto} `{TreeIndex}.
Context {value : Type} (codec : Codec value).
Context (keyPair : digest * secret).
Variables (s0 : Feed.t) (sk : secret) (n : nat).
Hypothesis Hsk : Feed.live s0 = true -> Feed.secretKey s0 = Some sk.
Hypothesis Hslip : ~ (Feed._indexing s0 = true /\ Feed.live s0 = false /\ n = 1%nat).

Lemma append_item_running (k : nat) (a : Appending) acc (v : value) :
  (k < n)%nat -> running s0 n k a acc ->
  exists a', append_item codec n a (Z.of_nat k) v = Some a'
             /\ running s0 n (S k) a' (append_effect_item codec s0 sk acc v).
Proof.
  intros Hk. destruct acc as [[[st g] off] i]. intros (Hfeed & Hoff & Hi & Hcalls & Hpend & Hreq).
  destruct a as [feed pending offset requests calls]. cbn [a_feed a_offset a_calls a_pending a_requests] in *.
  subst feed offset i calls.
  unfold append_item, append_effect_item. cbn [a_feed a_offset a_calls a_pending a_requests]. fproj.
  destruct (merkle.next g (encode codec v)) as [ns g'] eqn:Hnext.
  pose proof (next_nodes_nonempty _ _ _ _ Hnext) as Hns.
  cbn [a_feed a_offset a_calls a_pending a_requests]. fproj.
  unfold per_leaf in *.
  assert (Hpending : pending - 1 <> 0 \/ Feed._indexing s0 = false).
  { destruct (Feed._indexing s0) eqn:Hind; [left|right; reflexivity].
    destruct (Feed.live s0) eqn:Hlive; [lia|].
    assert (n <> 1%nat) by (intros Hn; apply Hslip; auto). lia. }
  destruct (Feed._indexing s0) eqn:Hind.
  - destruct Hpending as [Hp|Hp]; [|discriminate].
    unfold append_done. cbn [a_feed a_offset a_calls a_pending a_requests].
    destruct (Z.eqb_spec (pending - 1) 0) as [Hz|_]; [contradiction|]. cbn [negb].
    cbn [a_feed a_offset a_calls a_pending a_requests]. fproj.
    destruct (Feed.live s0) eqn:Hlive.
    + rewrite (Hsk eq_refl).
      eexists. split; [reflexivity|].
      unfold running, per_leaf. rewrite ?Hlive.
      cbn [a_feed a_offset a_calls a_pending a_requests]. fproj. sproj.
      repeat split; try reflexivity; try lia.
    + eexists. split; [reflexivity|].
      unfold running, per_leaf. rewrite ?Hlive.
      cbn [a_feed a_offset a_calls a_pending a_requests]. fproj. sproj.
      repeat split; try reflexivity; try lia.
  - cbn [a_feed a_offset a_calls a_pending a_requests]. fproj.
    destruct (Feed.live s0) eqn:Hlive.
    + rewrite (Hsk eq_refl).
      eexists. split; [reflexivity|].
      unfold running, per_leaf. rewrite ?Hlive.
      cbn [a_feed a_offset a_calls a_pending a_requests]. fproj. sproj.
      repeat split; try reflexivity; try lia.
    + eexists. split; [reflexivity|].
      unfold running, per_leaf. rewrite ?Hlive.
      cbn [a_feed a_offset a_calls a_pending a_requests]. fproj. sproj.
      repeat split; try reflexivity; try lia.
Qed.

Lemma append_items_running (batch : list value) :
  forall (k : nat) (a : Appending) acc,
    (k + List.length batch = n)%nat -> running s0 n k a acc ->
    exists a', append_items codec n a (Z.of_nat k) batch = Some a'
               /\ running s0 n n a' (fold_left (append_effect_item codec s0 sk) batch acc).
Proof.
  induction batch as [|v rest IH]; intros k a acc Hk Hr; cbn [append_items fold_left].
  - cbn [List.length] in Hk. assert (k = n) by lia. subst k. eauto.
  - cbn [List.length] in Hk.
    destruct (append_item_running k a acc v ltac:(lia) Hr) as (a1 & -> & Hr1).
    replace (Z.of_nat k + 1) with (Z.of_nat (S k)) by lia.
    apply IH; [lia|exact Hr1].
Qed.

End append_closed.

Section append_result.
Context `{Crypto} `{TreeIndex}.
Context {value : Type} (codec : Codec value).
Context (keyPair : digest * secret).

Lemma append_answers_complete (n r : nat) :
  forall a : Appending,
    (1 <= r)%nat -> a_pending a = Z.of_nat r ->
    exists s', append_complete n (a_feed a) (a_offset a) = Some s'
               /\ append_answers n r a
                  = Some (mkAppending s' 0 (a_offset a) (a_requests a)
                                      (a_calls a ++ [Ok tt])).
Proof.
  induction r as [|r IH]; intros a Hr Hp; [lia|].
  cbn [append_answers]. unfold append_done.
  destruct (Z.eqb_spec (a_pending a - 1) 0) as [Hz|Hnz]; cbn [negb].
  - destruct (_syncBitfield_total
                (Nat.iter n append_flip
                   (Feed.with_byteLength (Feed.byteLength (a_feed a) + a_offset a)
                      (a_feed a)))) as [s' Hs'].
    unfold append_complete. rewrite Hs'.
    assert (r = 0%nat) by lia. subst r. cbn [append_answers].
    exists s'. split; [reflexivity|]. rewrite Hz. reflexivity.
  - destruct (IH (mkAppending (a_feed a) (a_pending a - 1) (a_offset a)
                              (a_requests a) (a_calls a))) as (s' & Hc & Ha).
    + lia.
    + cbn. lia.
    + exists s'. split; [exact Hc|exact Ha].
Qed.

Lemma feed_eta (s : Feed.t) (g : merkle.t) :
  Feed._merkle s = Some g ->
  s = Feed.with_storage (Feed._storage s) (Feed.with_merkle (Some g) s).
Proof. destruct s. cbn. intros ->. reflexivity. Qed.

(** An append that is not the single block of an indexing feed that is not
    live answers once, after everything is written, and completes on the
    feed that the loop has left. *)
Lemma append_closed_form (s : Feed.t) (sk : secret) (g : merkle.t)
    (batch : list value) :
  Feed.opened s = true ->
  Feed.writable s = true ->
  Feed._merkle s = Some g ->
  (Feed.live s = true -> Feed.secretKey s = Some sk) ->
  ~ (Feed._indexing s = true /\ Feed.live s = false /\ List.length batch = 1%nat) ->
  batch <> [] ->
  let '(st, g', off, _) := append_effect codec s sk g batch in
  exists s',
    append_complete (List.length batch)
                    (Feed.with_storage st (Feed.with_merkle (Some g') s)) off = Some s'
    /\ append codec keyPair s batch = Some ([Ok tt], s').
Proof.
  intros Hop Hw Hm Hsk Hslip Hne.
  destruct (append_items_running codec s sk (List.length batch) Hsk Hslip batch 0
              (mkAppending s (if Feed.live s then 2 * Z.of_nat (List.length batch)
                              else Z.of_nat (List.length batch)) 0 0 [])
              (Feed._storage s, g, 0, 0)) as (a1 & Hitems & Hrun).
  - lia.
  - unfold running, per_leaf. cbn. repeat split; try reflexivity; try lia.
    + apply feed_eta. exact Hm.
    + destruct (Feed.live s); lia.
  - fold (append_effect codec s sk g batch) in Hrun.
    destruct (append_effect codec s sk g batch) as [[[st g'] off] i].
    destruct Hrun as (Hfeed & Hoff & Hi & Hcalls & Hpend & Hreq).
    destruct (append_answers_complete (List.length batch) (a_requests a1) a1)
      as (s' & Hc & Ha).
    + destruct batch; [contradiction|]. cbn [List.length] in *. lia.
    + rewrite Hpend. lia.
    + exists s'. rewrite Hfeed, Hoff in Hc. split; [exact Hc|].
      unfold append, _append, _ready. rewrite Hop, Hw. cbn [negb].
      assert (Hnz : ((if Feed.live s then 2 * Z.of_nat (List.length batch)
                      else Z.of_nat (List.length batch)) =? 0) = false).
      { apply Z.eqb_neq. destruct batch; [contradiction|]. cbn [List.length].
        destruct (Feed.live s); lia. }
      rewrite Hnz. change (Z.of_nat 0) with 0 in Hitems. rewrite Hitems, Ha.
      rewrite Hcalls. reflexivity.
Qed.

End append_result.


Section lengths.
Context `{Crypto} `{TreeIndex}.
Context {value : Type} (codec : Codec value).
Context (keyPair : digest * secret).

Lemma append_effect_item_offset (s0 : Feed.t) (sk : secret) acc (v : value) :
  snd (fst (append_effect_item codec s0 sk acc v))
  = snd (fst acc) + Z.of_nat (List.length (encode codec v)).
Proof.
  destruct acc as [[[st g] off] i]. unfold append_effect_item.
  destruct (merkle.next g (encode codec v)). reflexivity.
Qed.

Lemma append_effect_offset (s0 : Feed.t) (sk : secret) (batch : list value) :
  forall acc,
    snd (fst (fold_left (append_effect_item codec s0 sk) batch acc))
    = snd (fst acc) + encoded_size codec batch.
Proof.
  induction batch as [|v rest IH]; intros acc; cbn [fold_left encoded_size fold_right].
  - lia.
  - rewrite IH, append_effect_item_offset. unfold encoded_size. lia.
Qed.

(** A put leaves length and byteLength alone, or raises the length to
    [verifiedBy / 2] and sets byteLength to the total size of the roots it
    has collected. *)
Lemma verifyRootsAndWrite_lengths (s s' : Feed.t) index data top remote sig ns r :
  _verifyRootsAndWrite s index data top remote sig ns = Some (r, s') ->
  (Feed.length s' = Feed.length s /\ Feed.byteLength s' = Feed.byteLength s)
  \/ (Feed.length s < Feed.length s'
      /\ Feed.length s' = verifiedBy_of top remote / 2
      /\ Feed.byteLength s'
         = fold_left addSize
             (roots (collect_roots s top (flat.fullRoots (verifiedBy_of top remote))
                                   remote ns)) 0).
Proof.
  unfold _verifyRootsAndWrite.
  destruct (not_read _); [intros Hs; injection Hs as _ <-; auto|].
  destruct (not_sent _); [intros Hs; injection Hs as _ <-; auto|].
  destruct (negb (Feed.length s =? 0) && Feed.live s && negb (is_some sig));
    [intros Hs; injection Hs as _ <-; auto|].
  match goal with
  | |- context [match ?c with Err _ => _ | Ok _ => _ end] => destruct c as [e|signed]
  end; [intros Hs; injection Hs as _ <-; auto|].
  fproj. destruct (Z.ltb_spec (Feed.length s) (verifiedBy_of top remote / 2)) as [Hlt|Hge];
    intros Hs; apply _write_lengths in Hs; fproj_in Hs; destruct Hs as [Hl Hb].
  - right. rewrite Hl, Hb. auto.
  - left. auto.
Qed.

Lemma putBuffer_lengths (s s' : Feed.t) index data p r :
  _putBuffer s index data p = Some (r, s') ->
  (Feed.length s' = Feed.length s /\ Feed.byteLength s' = Feed.byteLength s)
  \/ (exists top remote ns,
        Feed.length s < Feed.length s'
        /\ Feed.length s' = verifiedBy_of top remote / 2
        /\ Feed.byteLength s'
           = fold_left addSize
               (roots (collect_roots s top (flat.fullRoots (verifiedBy_of top remote))
                                     remote ns)) 0).
Proof.
  unfold _putBuffer.
  destruct (putBuffer_load s index (nodes p)) as [[e|[missingNodes trusted]]|];
    [intros Hs; injection Hs as _ <-; auto| |discriminate].
  unfold _verifyAndWrite.
  destruct (verify_climb _ _ _ _ _) as [[visited|top remote visited]|]; [| |discriminate].
  - intros Hs. apply _write_lengths in Hs. auto.
  - intros Hs. apply verifyRootsAndWrite_lengths in Hs.
    destruct Hs as [Hs|Hs]; [auto|right; eauto].
Qed.

End lengths.

Section put_spans.
Context `{Crypto} `{TreeIndex}.
Context {value : Type} (codec : Codec value).
Context (keyPair : digest * secret).

Lemma shift_if_length (ns : list (Node digest)) (i : Z) n rest :
  shift_if ns i = Some (n, rest) -> List.length ns = S (List.length rest).
Proof.
  destruct ns as [|x ns]; [discriminate|]. cbn [shift_if].
  destruct (storage_node.index x =? i); [|discriminate].
  intros Hs. injection Hs as _ <-. reflexivity.
Qed.

(** The loop of [_verifyAndWrite] ends: every turn takes a node. *)
Lemma verify_loop_total (fuel : nat) :
  forall trusted top remote localNodes visited,
    (List.length remote + List.length localNodes < fuel)%nat ->
    exists c, verify_loop fuel trusted top remote localNodes visited = Some c.
Proof.
  induction fuel as [|fuel IH]; intros trusted top remote localNodes visited Hfuel;
    [lia|].
  cbn [verify_loop].
  destruct (shift_if remote _) as [[node remote']|] eqn:Hr.
  - apply shift_if_length in Hr.
    destruct (verifyNode trusted _); [eauto|]. apply IH. lia.
  - destruct (shift_if localNodes _) as [[node local']|] eqn:Hl; [|eauto].
    apply shift_if_length in Hl.
    destruct (verifyNode trusted _); [eauto|]. apply IH. lia.
Qed.

Lemma putBuffer_total (s : Feed.t) (index : Z) (data : list byte) (p : MerkleProof) :
  0 <= index -> exists r s', _putBuffer s index data p = Some (r, s').
Proof.
  intros Hi. unfold _putBuffer.
  destruct (putBuffer_load_total s index (nodes p) Hi) as [[e|[localNodes trusted]] ->];
    [eauto|].
  unfold _verifyAndWrite, verify_climb.
  destruct (verifyNode trusted _).
  - destruct (_write_total s index data [] None) as [[r s'] ->]. eauto.
  - destruct (verify_loop_total (S (List.length (nodes p) + List.length localNodes))
                trusted
                (mkNode (2 * index) (hash.data data) (Z.of_nat (List.length data)))
                (nodes p) localNodes [] ltac:(lia)) as [[visited|top remote visited] ->].
    + destruct (_write_total s index data visited None) as [[r s'] ->]. eauto.
    + destruct (verifyRootsAndWrite_total s index data top remote (proof_signature p)
                  visited) as [[r s'] ->]. eauto.
Qed.

(** A put that succeeds through the check of the roots, with
    [verifiedBy / 2] above the length, has raised the length to it. *)
Lemma verifyRootsAndWrite_span (s s' : Feed.t) index data top remote sig ns :
  _verifyRootsAndWrite s index data top remote sig ns = Some (Ok tt, s') ->
  Feed.length s < verifiedBy_of top remote / 2 ->
  Feed.length s' = verifiedBy_of top remote / 2
  /\ Feed.byteLength s'
     = fold_left addSize
         (roots (collect_roots s top (flat.fullRoots (verifiedBy_of top remote))
                               remote ns)) 0.
Proof.
  unfold _verifyRootsAndWrite.
  destruct (not_read _); [discriminate|].
  destruct (not_sent _); [discriminate|].
  destruct (negb (Feed.length s =? 0) && Feed.live s && negb (is_some sig));
    [discriminate|].
  match goal with
  | |- context [match ?c with Err _ => _ | Ok _ => _ end] => destruct c as [e|signed]
  end; [discriminate|].
  fproj. intros Hs Hlt.
  destruct (Z.ltb_spec (Feed.length s) (verifiedBy_of top remote / 2)) as [_|]; [|lia].
  apply _write_lengths in Hs. fproj_in Hs. exact Hs.
Qed.

(** What a put does to length and byteLength, in terms of its own plan and
    climb. *)
Lemma putBuffer_spans (s s' : Feed.t) index data p r :
  _putBuffer s index data p = Some (r, s') ->
  ((Feed.length s' = Feed.length s /\ Feed.byteLength s' = Feed.byteLength s)
   \/ exists localNodes trusted top remote visited,
        putBuffer_load s index (nodes p) = Some (Ok (localNodes, trusted))
        /\ verify_climb index data (nodes p) localNodes trusted
           = Some (AtRoots top remote visited)
        /\ Feed.length s < verifiedBy_of top remote / 2
        /\ Feed.length s' = verifiedBy_of top remote / 2
        /\ Feed.byteLength s'
           = fold_left addSize
               (roots (collect_roots s top (flat.fullRoots (verifiedBy_of top remote))
                                     remote visited)) 0)
  /\ (forall localNodes trusted top remote visited,
        putBuffer_load s index (nodes p) = Some (Ok (localNodes, trusted)) ->
        verify_climb index data (nodes p) localNodes trusted
        = Some (AtRoots top remote visited) ->
        r = Ok tt ->
        Feed.length s < verifiedBy_of top remote / 2 ->
        Feed.length s' = verifiedBy_of top remote / 2
        /\ Feed.byteLength s'
           = fold_left addSize
               (roots (collect_roots s top (flat.fullRoots (verifiedBy_of top remote))
                                     remote visited)) 0).
Proof.
  unfold _putBuffer.
  destruct (putBuffer_load s index (nodes p)) as [[e|[localNodes trusted]]|] eqn:Hload;
    [|  |discriminate].
  { intros Hs. injection Hs as _ <-. split; [auto|]. intros; discriminate. }
  unfold _verifyAndWrite.
  destruct (verify_climb _ _ _ _ _) as [[visited|top remote visited]|] eqn:Hclimb;
    [| |discriminate].
  - intros Hs. apply _write_lengths in Hs. split; [auto|].
    intros l t top remote v Hl Hc. injection Hl as <- <-. rewrite Hclimb in Hc.
    discriminate.
  - intros Hs. split.
    + pose proof (verifyRootsAndWrite_lengths _ _ _ _ _ _ _ _ _ Hs) as Hlen.
      destruct Hlen as [Hlen|(Hlt & Hl & Hb)]; [auto|].
      right. exists localNodes, trusted, top, remote, visited.
      repeat split; try assumption; try reflexivity. lia.
    + intros l t top' remote' v Hl Hc Hr Hlt. injection Hl as <- <-.
      rewrite Hclimb in Hc. injection Hc as <- <- <-. subst r.
      exact (verifyRootsAndWrite_span _ _ _ _ _ _ _ _ Hs Hlt).
Qed.

End put_spans.

(** C6, as amended (length and byteLength).  For every open feed and every
    operation (append, put, get, seek, download, undownload, finalize,
    flush) the length never decreases, and under every operation but put
    the byteLength never decreases.  A put gives an answer and changes
    length and byteLength only when its own climb ends at the roots with
    [verifiedBy / 2] above the length: then the length becomes
    [verifiedBy / 2] and the byteLength the total size of the roots
    collected for this [verifiedBy]; a put that succeeds through the check
    of the roots with [verifiedBy / 2] above the length does change them
    so.  An append on a writable feed, other than the append of a single
    value to an indexing feed that is not live, succeeds, increases the
    length by the size of the batch and the byteLength by the number of
    bytes the batch encodes to. *)
Theorem length_monotone :
  forall `{Crypto} `{TreeIndex} (value : Type) (codec : Codec value)
         (keyPair : digest * secret) (s : Feed.t) (op : Op),
    Feed.opened s = true ->
    (forall s', run codec keyPair s op = Some s' -> Feed.length s <= Feed.length s')
    /\ match op with
       | OpPut index v p =>
           0 <= index ->
           exists r s',
             put codec keyPair s index v p = Some (r, s')
             /\ ((Feed.length s' = Feed.length s
                  /\ Feed.byteLength s' = Feed.byteLength s)
                 \/ exists localNodes trusted top remote visited,
                      putBuffer_load s index (nodes p) = Some (Ok (localNodes, trusted))
                      /\ verify_climb index (encode codec v) (nodes p) localNodes trusted
                         = Some (AtRoots top remote visited)
                      /\ Feed.length s < verifiedBy_of top remote / 2
                      /\ Feed.length s' = verifiedBy_of top remote / 2
                      /\ Feed.byteLength s'
                         = fold_left addSize
                             (roots (collect_roots s top
                                       (flat.fullRoots (verifiedBy_of top remote))
                                       remote visited)) 0)
             /\ (forall localNodes trusted top remote visited,
                   putBuffer_load s index (nodes p) = Some (Ok (localNodes, trusted)) ->
                   verify_climb index (encode codec v) (nodes p) localNodes trusted
                   = Some (AtRoots top remote visited) ->
                   r = Ok tt ->
                   Feed.length s < verifiedBy_of top remote / 2 ->
                   Feed.length s' = verifiedBy_of top remote / 2
                   /\ Feed.byteLength s'
                      = fold_left addSize
                          (roots (collect_roots s top
                                    (flat.fullRoots (verifiedBy_of top remote))
                                    remote visited)) 0)
       | OpAppend batch =>
           (forall s', run codec keyPair s op = Some s' ->
                       Feed.byteLength s <= Feed.byteLength s')
           /\ (Feed.writable s = true ->
               is_some (Feed._merkle s) = true ->
               (Feed.live s = true -> is_some (Feed.secretKey s) = true) ->
               ~ (Feed._indexing s = true /\ Feed.live s = false
                  /\ List.length batch = 1%nat) ->
               exists s',
                 append codec keyPair s batch = Some ([Ok tt], s')
                 /\ Feed.length s' = Feed.length s + Z.of_nat (List.length batch)
                 /\ Feed.byteLength s' = Feed.byteLength s + encoded_size codec batch)
       | _ =>
           exists s',
             run codec keyPair s op = Some s'
             /\ Feed.byteLength s <= Feed.byteLength s'
       end.
Proof.
  intros C T value codec keyPair s op Hop.
  destruct op as [batch|index v p|index wait cb|bytes opts cb|range cb|range| |];
    cbn [run].
  - (* append *)
    assert (Hgrows : forall s', option_map snd (append codec keyPair s batch) = Some s' ->
                                Feed.length s <= Feed.length s'
                                /\ Feed.byteLength s <= Feed.byteLength s').
    { intros s' Hrun.
      destruct (append codec keyPair s batch) as [[calls s1]|] eqn:Ha; [|discriminate].
      injection Hrun as <-. exact (append_grows codec keyPair s s1 batch calls Hop Ha). }
    split; [intros s' Hrun; apply (Hgrows s' Hrun)|].
    split; [intros s' Hrun; apply (Hgrows s' Hrun)|].
    intros Hw Hm Hsk Hslip.
    destruct (Feed._merkle s) as [g|] eqn:Hg; [|discriminate].
    destruct batch as [|v rest].
    + unfold append, _append, _ready. rewrite Hop, Hw. cbn.
      destruct (Feed.live s); cbn; eexists; (split; [reflexivity|]); cbn; lia.
    + assert (Hsk' : exists sk, Feed.live s = true -> Feed.secretKey s = Some sk).
      { destruct (Feed.live s).
        - destruct (Feed.secretKey s) as [sk|]; [eauto|]. specialize (Hsk eq_refl).
          discriminate.
        - destruct (Feed.secretKey s) as [sk|] eqn:Hs.
          + exists sk. discriminate.
          + exists (snd keyPair). discriminate. }
      destruct Hsk' as [sk Hsk'].
      pose proof (append_closed_form codec keyPair s sk g (v :: rest)
                    Hop Hw Hg Hsk' Hslip ltac:(discriminate)) as Hcf.
      pose proof (append_effect_offset codec s sk (v :: rest) (Feed._storage s, g, 0, 0))
        as Hoff.
      fold (append_effect codec s sk g (v :: rest)) in Hoff.
      destruct (append_effect codec s sk g (v :: rest)) as [[[st g'] off] i].
      destruct Hcf as (s2 & Hc & Ha2). exists s2. split; [exact Ha2|].
      apply append_complete_fields in Hc. destruct Hc as (Hl' & Hb' & _).
      fproj_in Hl'. fproj_in Hb'. cbn [fst snd] in Hoff. split; [exact Hl'|]. lia.
  - (* put *)
    split.
    + intros s' Hrun. unfold put, _ready in Hrun. rewrite Hop in Hrun.
      destruct (_putBuffer s index (encode codec v) p) as [[r s1]|] eqn:Hp;
        [|discriminate].
      injection Hrun as <-.
      destruct (putBuffer_lengths s s1 _ _ _ _ Hp) as [[Hl _]|(top & remote & ns & Hl & _)];
        lia.
    + intros Hi. unfold put, _ready. rewrite Hop.
      destruct (putBuffer_total s index (encode codec v) p Hi) as (r & s' & Hp).
      exists r, s'. split; [exact Hp|]. exact (putBuffer_spans s s' _ _ _ _ Hp).
  - (* get *)
    destruct (but_waiting_fields _ _ (get_but_waiting codec s index wait cb))
      as (Hl & Hb & _).
    split; [intros s' Hs; injection Hs as <-; lia|].
    eexists. split; [reflexivity|lia].
  - (* seek *)
    destruct (seek_total s bytes opts cb) as [[r s1] Hs]. rewrite Hs. cbn [option_map snd].
    destruct (but_waiting_fields _ _ (seek_but_waiting _ _ _ _ _ _ Hs)) as (Hl & Hb & _).
    split; [intros s' Hs'; injection Hs' as <-; lia|].
    eexists. split; [reflexivity|lia].
  - (* download *)
    split; [intros s' Hs; injection Hs as <-; cbn; lia|].
    eexists. split; [reflexivity|cbn; lia].
  - (* undownload *)
    assert (Hu : Feed.length (snd (undownload s range)) = Feed.length s
                 /\ Feed.byteLength (snd (undownload s range)) = Feed.byteLength s).
    { unfold undownload.
      destruct range as [sel|r]; [destruct (-1 <? sel_index sel)|]; cbn; auto. }
    destruct Hu as [Hl Hb].
    split; [intros s' Hs; injection Hs as <-; lia|].
    eexists. split; [reflexivity|lia].
  - (* finalize *)
    assert (Hf : Feed.length (snd (finalize s)) = Feed.length s
                 /\ Feed.byteLength (snd (finalize s)) = Feed.byteLength s).
    { unfold finalize.
      destruct (Feed.key s) as [k|] eqn:Hk.
      - rewrite Hk. cbn. auto.
      - destruct (Feed._merkle s); fproj; [cbn; auto|]. rewrite Hk. cbn. auto. }
    destruct Hf as [Hl Hb].
    split; [intros s' Hs; injection Hs as <-; lia|].
    eexists. split; [reflexivity|lia].
  - (* flush *)
    unfold flush, _append, _ready. rewrite Hop.
    destruct (negb (Feed.writable s)); cbn [option_map snd].
    + split; [intros s' Hs; injection Hs as <-; lia|]. eexists. split; [reflexivity|lia].
    + destruct (Feed.live s); cbn;
        [change (2 * Z.of_nat 0 =? 0) with true|change (Z.of_nat 0 =? 0) with true];
        cbn [option_map snd];
        (split; [intros s' Hs; injection Hs as <-; lia|]);
        eexists; (split; [reflexivity|lia]).
Qed.

Lemma length_monotone_witness :
  (exists s',
     append utf8 example.kp example.fresh_writer ["hello"; "world"]%string
     = Some ([Ok tt], s')
     /\ Feed.length s' = Feed.length example.fresh_writer + 2)
  /\ (exists r s',
        put utf8 example.kp example.fresh_reader 0 "hello"%string (example.proof_of 0)
        = Some (r, s')).
Proof.
  split.
  - destruct (@length_monotone ideal.crypto tree_index.reference string utf8
                example.kp example.fresh_writer
                (OpAppend ["hello"; "world"]%string) eq_refl) as (_ & _ & Hexact).
    destruct (Hexact eq_refl eq_refl (fun _ => eq_refl)
                ltac:(intros (Hi & _); discriminate)) as (s' & Ha & Hl & _).
    exists s'. split; [exact Ha|exact Hl].
  - destruct (@length_monotone ideal.crypto tree_index.reference string utf8
                example.kp example.fresh_reader
                (OpPut 0 "hello"%string (example.proof_of 0)) eq_refl) as (_ & Hput).
    destruct (Hput ltac:(lia)) as (r & s' & Hp & _).
    exists r, s'. exact Hp.
Defined.

(** C6 as stated fails for byteLength under put: a reader that holds the
    one block "0123456789" (length 1, byteLength 10) takes block 1 with the
    proof of a second writer that holds the same key and wrote "a" and "b";
    the signature verifies, the length becomes 2 and the byteLength 2. *)
Lemma byteLength_counterexample :
  Feed.opened example.long_reader = true
  /\ Feed.byteLength example.long_reader = 10
  /\ match run utf8 example.kp example.long_reader
               (OpPut 1 "b"%string (example.other_proof 1)) with
     | Some s' => Feed.length s' = 2 /\ Feed.byteLength s' = 2
     | None => False
     end.
Proof. vm_compute. repeat split; reflexivity. Qed.

(** ** The full roots, from the last one *)

Module roots_facts.
Import flat flat_facts.

Lemma fullRoots_rootsOf (n : Z) : fullRoots (2 * n) = rootsOf n 0.
Proof.
  unfold fullRoots, rootsOf. rewrite (Z.mul_comm 2 n), Z.div_mul by lia. reflexivity.
Qed.

Lemma log2_peel (n : Z) :
  0 < n -> let n' := n - 2 ^ Z.log2 n in 0 <= n' /\ (n' <= 0 \/ Z.log2 n' < Z.log2 n).
Proof.
  intros Hn n'. subst n'. destruct (Z.log2_spec n Hn) as [Hlo Hhi].
  rewrite Z.pow_succ_r in Hhi by apply Z.log2_nonneg.
  split; [lia|].
  destruct (Z.eq_dec (n - 2 ^ Z.log2 n) 0) as [|Hne]; [left; lia|right].
  apply Z.log2_lt_pow2; lia.
Qed.

Lemma loop_fuel (fuel : nat) :
  forall fuel' n offset,
    n <= 0 \/ Z.log2 n < Z.of_nat fuel ->
    n <= 0 \/ Z.log2 n < Z.of_nat fuel' ->
    fullRoots_loop fuel n offset = fullRoots_loop fuel' n offset.
Proof.
  induction fuel as [|fuel IH]; intros fuel' n offset Hfuel Hfuel';
    pose proof (Z.log2_nonneg n).
  - destruct fuel'; cbn [fullRoots_loop]; [reflexivity|].
    destruct (Z.leb_spec n 0); [reflexivity|lia].
  - cbn [fullRoots_loop].
    destruct (Z.leb_spec n 0) as [|Hn]; [destruct fuel'; cbn [fullRoots_loop]|].
    + reflexivity.
    + destruct (Z.leb_spec n 0); [reflexivity|lia].
    + destruct fuel' as [|fuel']; [lia|]. cbn [fullRoots_loop].
      destruct (Z.leb_spec n 0); [lia|].
      destruct (log2_peel n Hn) as [Hn' Hlog].
      f_equal. apply IH; destruct Hlog; try (left; unfold twoPow; lia);
        right; unfold twoPow; lia.
Qed.

Lemma loop_enough (fuel : nat) (n offset : Z) :
  n <= 0 \/ Z.log2 n < Z.of_nat fuel ->
  fullRoots_loop fuel n offset = rootsOf n offset.
Proof.
  intros Hfuel. unfold rootsOf. apply loop_fuel; [assumption|].
  pose proof (Z.log2_nonneg n). right. lia.
Qed.

Lemma rootsOf_0 (n offset : Z) : n <= 0 -> rootsOf n offset = [].
Proof.
  intros Hn. unfold rootsOf. cbn [fullRoots_loop].
  destruct (Z.leb_spec n 0); [reflexivity|lia].
Qed.

Lemma rootsOf_eq (n offset : Z) :
  0 < n ->
  rootsOf n offset
  = (offset + 2 ^ Z.log2 n - 1)
      :: rootsOf (n - 2 ^ Z.log2 n) (offset + 2 * 2 ^ Z.log2 n).
Proof.
  intros Hn. unfold rootsOf at 1. cbn [fullRoots_loop].
  destruct (Z.leb_spec n 0); [lia|].
  destruct (log2_peel n Hn) as [Hn' Hlog]. pose proof (Z.log2_nonneg n).
  unfold twoPow. f_equal. apply loop_enough. destruct Hlog; [left; lia|right; lia].
Qed.

(** The last full root of [n = (2q+1) * 2^t] leaves spans the last [2^t]
    of them. *)
Lemma rootsOf_last (n : Z) :
  0 <= n ->
  forall t q offset,
    0 <= t -> 0 <= q -> n = (2 * q + 1) * 2 ^ t ->
    rootsOf n offset
    = rootsOf (n - 2 ^ t) offset ++ [offset + 2 * (n - 2 ^ t) + 2 ^ t - 1].
Proof.
  intros Hn0. pattern n. apply Z_lt_induction; [|exact Hn0].
  clear n Hn0. intros n IH t q offset Ht Hq Hn.
  pose proof (pow2_pos t Ht) as Hpt.
  assert (Hpos : 0 < n) by nia.
  rewrite (rootsOf_eq n offset Hpos).
  destruct (Z.log2_spec n Hpos) as [Hlo Hhi].
  pose proof (Z.log2_nonneg n) as Hk.
  rewrite Z.pow_succ_r in Hhi by assumption.
  set (k := Z.log2 n) in *.
  destruct (Z.eq_dec q 0) as [->|Hq0].
  - assert (k = t).
    { subst k. rewrite Hn. replace ((2 * 0 + 1) * 2 ^ t) with (2 ^ t) by lia.
      apply Z.log2_pow2. assumption. }
    subst t. replace (n - 2 ^ k) with 0 by lia.
    rewrite !rootsOf_0 by lia. cbn. f_equal. lia.
  - assert (Htk : t < k).
    { assert (H2 : 2 ^ (t + 1) <= n).
      { rewrite Z.pow_add_r by lia. change (2 ^ 1) with 2. nia. }
      apply Z.log2_le_pow2 in H2; [|lia]. subst k. lia. }
    assert (Hkt : 2 ^ k = 2 * 2 ^ (k - t - 1) * 2 ^ t).
    { replace k with ((k - t - 1) + 1 + t) at 1 by lia.
      rewrite !Z.pow_add_r by lia. change (2 ^ 1) with 2. lia. }
    pose proof (pow2_pos (k - t - 1) ltac:(lia)) as Hpe.
    set (e := 2 ^ (k - t - 1)) in *.
    assert (Hq' : 0 <= q - e) by nia.
    assert (Hn' : n - 2 ^ k = (2 * (q - e) + 1) * 2 ^ t) by nia.
    rewrite (IH (n - 2 ^ k) ltac:(nia) t (q - e) (offset + 2 * 2 ^ k) Ht Hq' Hn').
    assert (Hlog : Z.log2 (n - 2 ^ t) = k).
    { apply Z.log2_unique; [assumption|].
      rewrite Z.pow_succ_r by assumption. nia. }
    rewrite (rootsOf_eq (n - 2 ^ t) offset) by nia. rewrite Hlog.
    replace (n - 2 ^ t - 2 ^ k) with (n - 2 ^ k - 2 ^ t) by lia.
    cbn [app]. f_equal. f_equal. f_equal. lia.
Qed.

Lemma rootsOf_nonempty (n offset : Z) : 0 < n -> rootsOf n offset <> [].
Proof. intros Hn. rewrite rootsOf_eq by assumption. discriminate. Qed.

Lemma odd_part (n : Z) :
  0 < n -> exists t q, 0 <= t /\ 0 <= q /\ n = (2 * q + 1) * 2 ^ t.
Proof.
  intros Hn. destruct (depth_spec (n - 1) ltac:(lia)) as (q & Hq & Heq).
  exists (depth (n - 1)), q. split; [apply depth_nonneg|]. split; [assumption|lia].
Qed.

(** In coordinates: the last full root of [(2q+1) * 2^t] leaves is the node
    of depth [t] and offset [2q]. *)
Lemma rootsOf_snoc (t q : Z) :
  0 <= t -> 0 <= q ->
  rootsOf ((2 * q + 1) * 2 ^ t) 0 = rootsOf (2 * q * 2 ^ t) 0 ++ [index t (2 * q)].
Proof.
  intros Ht Hq. pose proof (pow2_pos t Ht).
  rewrite (rootsOf_last ((2 * q + 1) * 2 ^ t) ltac:(nia) t q 0 Ht Hq eq_refl).
  f_equal; [f_equal; lia|]. f_equal. unfold index, twoPow. lia.
Qed.

(** Every full root of a tree of [n] leaves ends before leaf [n]. *)
Lemma rootsOf_rightSpan (n : Z) :
  0 <= n ->
  forall x, In x (rootsOf n 0) -> 0 <= x /\ rightSpan x <= 2 * n - 2.
Proof.
  intros Hn0. pattern n. apply Z_lt_induction; [|exact Hn0].
  clear n Hn0. intros n IH x Hx.
  destruct (Z.eq_dec n 0) as [->|Hne]; [rewrite rootsOf_0 in Hx by lia; destruct Hx|].
  destruct (Z_lt_le_dec 0 n) as [Hpos|]; [|rewrite rootsOf_0 in Hx by lia; destruct Hx].
  destruct (odd_part n Hpos) as (t & q & Ht & Hq & ->).
  pose proof (pow2_pos t Ht).
  rewrite rootsOf_snoc in Hx by assumption. apply in_app_or in Hx.
  destruct Hx as [Hx|[<-|[]]].
  - destruct (IH (2 * q * 2 ^ t) ltac:(nia) x Hx). split; [assumption|nia].
  - split; [apply index_nonneg; lia|].
    rewrite rightSpan_index by lia. rewrite Z.pow_add_r by lia. change (2 ^ 1) with 2. lia.
Qed.

Lemma rootsOf_last_rightSpan (n : Z) :
  0 < n ->
  exists x, List.last (rootsOf n 0) (-1) = x /\ 0 <= x /\ rightSpan x = 2 * n - 2.
Proof.
  intros Hpos. destruct (odd_part n Hpos) as (t & q & Ht & Hq & ->).
  rewrite rootsOf_snoc by assumption. rewrite List.last_last.
  eexists. split; [reflexivity|]. split; [apply index_nonneg; lia|].
  rewrite rightSpan_index by lia. rewrite Z.pow_add_r by lia. change (2 ^ 1) with 2. lia.
Qed.

End roots_facts.

(** ** The generator keeps the full roots *)

Section generator.
Context `{Crypto}.
Import storage_node flat_facts roots_facts.

Lemma merge_spec (fuel : nat) :
  forall rest r d q,
    0 <= d -> 0 <= q ->
    index r = flat.index d q ->
    map index rest = rev (rootsOf (q * 2 ^ d) 0) ->
    fuel = List.length rest ->
    exists top' rest' made,
      merkle.merge fuel (r :: rest) = (top' :: rest', made)
      /\ last (r :: made) = Some top'
      /\ (exists dropped, rest = dropped ++ rest')
      /\ Forall (fun x => flat.rightSpan (index x) = flat.rightSpan (index r))
                (r :: made)
      /\ map index (rev (top' :: rest')) = rootsOf ((q + 1) * 2 ^ d) 0
      /\ sizes (top' :: rest') = sizes (r :: rest)
      /\ Forall (fun x => d < flat.depth (index x)) made.
Proof.
  induction fuel as [|fuel IH]; intros rest r d q Hd Hq Hr Hrest Hfuel;
    pose proof (pow2_pos d Hd) as Hpd.
  - destruct rest; [|discriminate]. cbn [merkle.merge].
    exists r, [], []. split; [reflexivity|]. split; [reflexivity|].
    split; [exists []; reflexivity|]. split; [repeat constructor|].
    split; [|split; [reflexivity|constructor]].
    assert (q = 0) as ->.
    { destruct (Z.eq_dec q 0) as [|Hne]; [assumption|exfalso].
      apply (rootsOf_nonempty (q * 2 ^ d) 0); [nia|].
      cbn [map] in Hrest. symmetry in Hrest.
      apply (f_equal (@rev Z)) in Hrest. rewrite rev_involutive in Hrest. exact Hrest. }
    pose proof (rootsOf_snoc d 0 Hd ltac:(lia)) as Hs.
    replace (2 * 0 + 1) with (0 + 1) in Hs by lia. rewrite Hs.
    rewrite rootsOf_0 by lia. cbn. rewrite Hr. reflexivity.
  - destruct rest as [|l rest0]; [discriminate|]. injection Hfuel as Hfuel.
    assert (Hq0 : 0 < q).
    { destruct (Z.eq_dec q 0) as [->|]; [|lia].
      rewrite rootsOf_0 in Hrest by lia. discriminate. }
    destruct (odd_part (q * 2 ^ d) ltac:(nia)) as (t & q' & Ht & Hq' & Hm).
    pose proof (pow2_pos t Ht) as Hpt.
    rewrite Hm, rootsOf_snoc, rev_app_distr in Hrest by assumption.
    cbn [rev app map] in Hrest. injection Hrest as Hl Hrest0.
    destruct (Z.lt_trichotomy t d) as [Hlt|[->|Hgt]].
    + exfalso.
      assert (Hdt : 2 ^ d = 2 * 2 ^ (d - t - 1) * 2 ^ t).
      { replace d with ((d - t - 1) + 1 + t) at 1 by lia.
        rewrite !Z.pow_add_r by lia. change (2 ^ 1) with 2. lia. }
      rewrite Hdt in Hm.
      assert (q * (2 * 2 ^ (d - t - 1)) = 2 * q' + 1) by nia. lia.
    + assert (q = 2 * q' + 1) as -> by nia.
      assert (Hpar : flat.parent (index l) = flat.parent (index r)).
      { rewrite Hl, Hr, !parent_index by lia. f_equal.
        rewrite (Z.mul_comm 2 q'), Z.div_mul by lia.
        replace (q' * 2 + 1) with (1 + q' * 2) by lia.
        rewrite Z.div_add by lia. reflexivity. }
      cbn [merkle.merge]. rewrite Hpar, Z.eqb_refl.
      set (p := mkNode (flat.parent (index r)) (hash.parent l r) (size l + size r)).
      assert (Hp : index p = flat.index (d + 1) q').
      { cbn. rewrite Hr, parent_index by lia. f_equal.
        replace (2 * q' + 1) with (1 + q' * 2) by lia.
        rewrite Z.div_add by lia. reflexivity. }
      assert (Hrest1 : map index rest0 = rev (rootsOf (q' * 2 ^ (d + 1)) 0)).
      { rewrite Hrest0. do 2 f_equal. rewrite Z.pow_add_r by lia.
        change (2 ^ 1) with 2. lia. }
      destruct (IH rest0 p (d + 1) q' ltac:(lia) Hq' Hp Hrest1 Hfuel)
        as (top' & rest' & made & Hmerge & Hlast & (dropped & Hdrop) & Hall & Hidx & Hsz
            & Hdepth).
      rewrite Hmerge. exists top', rest', (p :: made).
      split; [reflexivity|]. split; [exact Hlast|].
      split; [exists (l :: dropped); rewrite Hdrop; reflexivity|].
      assert (Hspan : flat.rightSpan (index p) = flat.rightSpan (index r)).
      { rewrite Hp, Hr, !rightSpan_index by lia.
        rewrite !Z.pow_add_r by lia. change (2 ^ 1) with 2. lia. }
      split.
      { constructor; [reflexivity|].
        eapply Forall_impl; [exact Hall|]. cbn beta. intros x Hx. congruence. }
      split.
      { rewrite Hidx. f_equal. rewrite Z.pow_add_r by lia. change (2 ^ 1) with 2. lia. }
      split; [rewrite Hsz; cbn; lia|].
      constructor; [rewrite Hp, depth_index by lia; lia|].
      eapply Forall_impl; [exact Hdepth|]. cbn beta. intros x Hx. lia.
    + assert (Htd : 2 ^ t = 2 * 2 ^ (t - d - 1) * 2 ^ d).
      { replace t with ((t - d - 1) + 1 + d) at 1 by lia.
        rewrite !Z.pow_add_r by lia. change (2 ^ 1) with 2. lia. }
      pose proof (pow2_pos (t - d - 1) ltac:(lia)) as Hpe.
      set (e := 2 ^ (t - d - 1)) in *.
      assert (Hqe : q = 2 * ((2 * q' + 1) * e)) by nia.
      assert (Hne : flat.parent (index l) <> flat.parent (index r)).
      { rewrite Hl, Hr, !parent_index by lia. intros Heq.
        apply index_inj in Heq; [|lia|lia]. lia. }
      cbn [merkle.merge]. apply Z.eqb_neq in Hne. rewrite Hne.
      exists r, (l :: rest0), []. split; [reflexivity|]. split; [reflexivity|].
      split; [exists []; reflexivity|]. split; [repeat constructor|].
      split; [|split; [reflexivity|constructor]].
      pose proof (rootsOf_snoc d ((2 * q' + 1) * e) Hd ltac:(nia)) as Hs.
      replace (2 * ((2 * q' + 1) * e) + 1) with (q + 1) in Hs by lia.
      rewrite <- Hqe in Hs. rewrite Hs.
      change (rev (r :: l :: rest0)) with (rev (l :: rest0) ++ [r]).
      rewrite map_app. cbn [map]. rewrite Hr. f_equal.
      rewrite map_rev. cbn [map]. rewrite Hl, Hrest0. cbn [rev].
      rewrite rev_involutive.
      rewrite Hm, rootsOf_snoc by assumption. reflexivity.
Qed.

Lemma sizes_app (l l' : list (Node digest)) : sizes (l ++ l') = sizes l + sizes l'.
Proof.
  unfold sizes. induction l as [|x l IH]; cbn [app fold_right]; [reflexivity|].
  rewrite IH. lia.
Qed.

Lemma sizes_rev (l : list (Node digest)) : sizes (rev l) = sizes l.
Proof.
  induction l as [|x l IH]; [reflexivity|]. cbn [rev]. rewrite sizes_app, IH.
  unfold sizes. cbn [fold_right]. lia.
Qed.

Lemma next_spec (g g' : merkle.t) (data : list byte) (ns : list (Node digest)) :
  gen_ok g ->
  merkle.next g data = (ns, g') ->
  gen_ok g'
  /\ merkle.blocks g' = merkle.blocks g + 1
  /\ (exists made,
        ns = mkNode (2 * merkle.blocks g) (hash.data data) (Z.of_nat (List.length data))
               :: made
        /\ Forall (fun x => index x <> 2 * merkle.blocks g) made)
  /\ (exists top' kept dropped,
        merkle.roots g' = kept ++ [top'] /\ last ns = Some top'
        /\ merkle.roots g = kept ++ dropped)
  /\ Forall (fun x => flat.rightSpan (index x) = 2 * merkle.blocks g) ns
  /\ sizes (merkle.roots g') = sizes (merkle.roots g) + Z.of_nat (List.length data).
Proof.
  intros [Hb Hroots] Hnext. unfold merkle.next in Hnext.
  set (leaf := mkNode (2 * merkle.blocks g) (hash.data data)
                      (Z.of_nat (List.length data))) in *.
  assert (Hleaf : index leaf = flat.index 0 (merkle.blocks g))
    by (rewrite index_leaf; reflexivity).
  assert (Hrest : map index (rev (merkle.roots g))
                  = rev (rootsOf (merkle.blocks g * 2 ^ 0) 0)).
  { rewrite map_rev, Hroots, Z.pow_0_r, Z.mul_1_r. reflexivity. }
  destruct (merge_spec (List.length (merkle.roots g)) (rev (merkle.roots g)) leaf 0
              (merkle.blocks g) ltac:(lia) Hb Hleaf Hrest
              ltac:(symmetry; apply List.length_rev))
    as (top' & rest' & made & Hmerge & Hlast & (dropped & Hdrop) & Hall & Hidx & Hsz
        & Hdepth).
  rewrite Hmerge in Hnext. injection Hnext as <- <-.
  unfold gen_ok. cbn [merkle.roots merkle.blocks].
  split; [split; [lia|]|].
  { change (rev rest' ++ [top']) with (rev (top' :: rest')).
    rewrite Hidx, Z.pow_0_r, Z.mul_1_r. reflexivity. }
  split; [reflexivity|].
  split.
  { exists made. split; [reflexivity|].
    eapply Forall_impl; [exact Hdepth|]. cbn beta. intros x Hx Heq.
    rewrite Heq, depth_leaf in Hx by assumption. lia. }
  split.
  { exists top', (rev rest'), (rev dropped). split; [reflexivity|]. split; [exact Hlast|].
    rewrite <- rev_app_distr, <- Hdrop, rev_involutive. reflexivity. }
  split.
  { eapply Forall_impl; [exact Hall|]. cbn beta. intros x ->.
    rewrite Hleaf, rightSpan_index by lia. change (2 ^ (0 + 1)) with 2. lia. }
  change (rev rest' ++ [top']) with (rev (top' :: rest')).
  rewrite sizes_rev, Hsz.
  change (sizes (leaf :: rev (merkle.roots g)))
    with (size leaf + sizes (rev (merkle.roots g))).
  rewrite sizes_rev. subst leaf. cbn [size]. lia.
Qed.

End generator.

(** ** Files and stored nodes *)

Module raf_facts.

Lemma write_length (file : list byte) (offset : Z) (bytes : list byte) :
  (List.length file <= List.length (raf.write file offset bytes))%nat
  /\ (Z.to_nat offset + List.length bytes
      <= List.length (raf.write file offset bytes))%nat.
Proof.
  unfold raf.write. rewrite !length_app, repeat_length, length_firstn, length_skipn. lia.
Qed.

(** What is written can be read back. *)
Lemma read_write (file : list byte) (offset : Z) (bytes : list byte) :
  0 <= offset ->
  raf.read (raf.write file offset bytes) offset (Z.of_nat (List.length bytes))
  = Some bytes.
Proof.
  intros Ho. unfold raf.read.
  destruct (write_length file offset bytes) as [_ Hlen].
  replace (0 <=? offset) with true by (symmetry; apply Z.leb_le; lia).
  replace (0 <=? Z.of_nat (List.length bytes)) with true
    by (symmetry; apply Z.leb_le; lia).
  replace (offset + Z.of_nat (List.length bytes)
           <=? Z.of_nat (List.length (raf.write file offset bytes))) with true
    by (symmetry; apply Z.leb_le; lia).
  cbn [andb]. f_equal. rewrite Nat2Z.id. unfold raf.write.
  rewrite app_assoc.
  rewrite skipn_app.
  assert (Hpre : List.length (firstn (Z.to_nat offset) file
                              ++ repeat x00 (Z.to_nat offset - List.length file))
                 = Z.to_nat offset).
  { rewrite length_app, repeat_length, length_firstn. lia. }
  rewrite Hpre, Nat.sub_diag.
  rewrite skipn_all2 by lia. cbn [app]. rewrite skipn_O.
  rewrite firstn_app, Nat.sub_diag, firstn_all. cbn [firstn]. apply app_nil_r.
Qed.

(** A write leaves what lies before it. *)
Lemma read_write_before (file : list byte) (offset : Z) (bytes x : list byte)
    (a len : Z) :
  0 <= a -> 0 <= len -> a + len <= offset ->
  raf.read file a len = Some x ->
  raf.read (raf.write file offset bytes) a len = Some x.
Proof.
  intros Ha Hl Hend. unfold raf.read.
  destruct (write_length file offset bytes) as [Hlen _].
  replace (0 <=? a) with true by (symmetry; apply Z.leb_le; lia).
  replace (0 <=? len) with true by (symmetry; apply Z.leb_le; lia).
  cbn [andb].
  destruct (Z.leb_spec (a + len) (Z.of_nat (List.length file))) as [Hin|]; [|discriminate].
  replace (a + len <=? Z.of_nat (List.length (raf.write file offset bytes))) with true
    by (symmetry; apply Z.leb_le; lia).
  intros Hx. injection Hx as <-. f_equal. unfold raf.write.
  rewrite skipn_app, firstn_app.
  match goal with
  | |- context [firstn ?k (skipn ?j (repeat _ _ ++ _))] =>
      replace k with 0%nat by (rewrite length_skipn, length_firstn; lia)
  end.
  cbn [firstn]. rewrite app_nil_r.
  rewrite skipn_firstn_comm, firstn_firstn. f_equal. lia.
Qed.

End raf_facts.

Section stored_nodes.
Context `{Crypto}.
Import storage_node flat_facts roots_facts.

Lemma putNodes_other (ns : list (Node digest)) :
  forall st j,
    Forall (fun x => index x <> j) ns ->
    storage.tree (putNodes ns st) !! j = storage.tree st !! j.
Proof.
  induction ns as [|x ns IH]; intros st j Hall; [reflexivity|].
  inversion Hall as [|? ? Hx Hrest]; subst. cbn [putNodes fold_left].
  fold (putNodes ns (storage.putNode st (index x) x)). rewrite IH by assumption.
  sproj. apply lookup_insert_ne. assumption.
Qed.

Lemma putNodes_frame (ns : list (Node digest)) :
  forall st,
    storage.signatures (putNodes ns st) = storage.signatures st
    /\ storage.data (putNodes ns st) = storage.data st.
Proof.
  induction ns as [|x ns IH]; intros st; [split; reflexivity|].
  cbn [putNodes fold_left]. fold (putNodes ns (storage.putNode st (index x) x)).
  destruct (IH (storage.putNode st (index x) x)) as [-> ->]. split; reflexivity.
Qed.

Lemma putNode_stored (st : storage.t) (x : Node digest) :
  stored (storage.putNode st (index x) x) x.
Proof.
  unfold stored, storage.getNode. sproj. rewrite lookup_insert_eq.
  destruct x; reflexivity.
Qed.

Lemma stored_tree (st st' : storage.t) (x : Node digest) :
  storage.tree st' !! index x = storage.tree st !! index x ->
  stored st x -> stored st' x.
Proof. unfold stored, storage.getNode. intros ->. auto. Qed.

Lemma putNodes_last (ns : list (Node digest)) :
  forall st x, last ns = Some x -> stored (putNodes ns st) x.
Proof.
  induction ns as [|y ns IH]; intros st x Hlast; [discriminate|].
  destruct ns as [|z ns].
  - injection Hlast as <-. apply putNode_stored.
  - cbn [putNodes fold_left]. apply (IH (storage.putNode st (index y) y)). exact Hlast.
Qed.

Lemma putNodes_head (x : Node digest) (ns : list (Node digest)) (st : storage.t) :
  Forall (fun y => index y <> index x) ns ->
  stored (putNodes (x :: ns) st) x.
Proof.
  intros Hall. cbn [putNodes fold_left].
  fold (putNodes ns (storage.putNode st (index x) x)).
  eapply stored_tree; [|apply putNode_stored]. apply putNodes_other. assumption.
Qed.

Lemma getNodes_stored (st : storage.t) (l : list (Node digest)) :
  Forall (stored st) l -> getNodes st (map index l) = Some l.
Proof.
  induction 1 as [|x l Hx _ IH]; [reflexivity|].
  cbn [map getNodes]. rewrite Hx, IH. reflexivity.
Qed.

Lemma sumSizes_stored (st : storage.t) (l : list (Node digest)) :
  Forall (stored st) l -> storage.sumSizes st [] (map index l) = Some (sizes l).
Proof.
  induction 1 as [|x l Hx _ IH]; [reflexivity|].
  cbn [map storage.sumSizes]. unfold storage.lookupNode. cbn [storage.findNode find].
  rewrite Hx, IH. reflexivity.
Qed.

End stored_nodes.

(** ** What an append leaves in the store *)

Section append_store.
Context `{Crypto} `{TreeIndex}.
Context {value : Type} (codec : Codec value).
Variables (s0 : Feed.t) (sk : secret).
Import storage_node flat_facts roots_facts.

Lemma acc_frame_refl (acc : (storage.t * merkle.t * Z * Z)) : acc_frame s0 acc acc.
Proof.
  destruct acc as [[[st g] off] i]. cbn.
  split; [lia|]. split; [lia|]. split; [lia|]. auto.
Qed.

Lemma acc_frame_trans (a b c : (storage.t * merkle.t * Z * Z)) :
  acc_frame s0 a b -> acc_frame s0 b c -> acc_frame s0 a c.
Proof.
  destruct a as [[[st g] off] i], b as [[[st1 g1] off1] i1], c as [[[st2 g2] off2] i2].
  cbn. intros (Hb & Ho & Hi & Ht & Hs & Hd) (Hb' & Ho' & Hi' & Ht' & Hs' & Hd').
  split; [lia|]. split; [lia|]. split; [lia|].
  split; [intros j Hj; rewrite Ht' by lia; apply Ht; assumption|].
  split; [intros j Hj; rewrite Hs' by lia; apply Hs; assumption|].
  intros Hbl a len x Ha Hl Hend Hx.
  apply (Hd' Hbl); [assumption|assumption|lia|]. apply (Hd Hbl); assumption.
Qed.

Lemma stored_frame (acc acc' : (storage.t * merkle.t * Z * Z)) (x : Node digest) :
  acc_frame s0 acc acc' ->
  flat.rightSpan (index x) < 2 * merkle.blocks (snd (fst (fst acc))) ->
  stored (fst (fst (fst acc))) x -> stored (fst (fst (fst acc'))) x.
Proof.
  destruct acc as [[[st g] off] i], acc' as [[[st' g'] off'] i']. cbn [fst snd].
  intros (_ & _ & _ & Ht & _) Hspan. apply stored_tree. apply Ht. assumption.
Qed.

Lemma roots_before (g : merkle.t) (x : Node digest) :
  gen_ok g -> In x (merkle.roots g) ->
  flat.rightSpan (index x) <= 2 * merkle.blocks g - 2.
Proof.
  intros [Hb Hroots] Hx.
  apply (rootsOf_rightSpan (merkle.blocks g) Hb). rewrite <- Hroots.
  apply in_map. assumption.
Qed.

(** One turn of the loop. *)
Lemma step_spec (st : storage.t) (g : merkle.t) (off i : Z) (v : value) :
  acc_ok s0 (st, g, off, i) ->
  exists st' g' made,
    append_effect_item codec s0 sk (st, g, off, i) v
    = (st', g', off + Z.of_nat (List.length (encode codec v)), i + 1)
    /\ merkle.next g (encode codec v)
       = (mkNode (2 * merkle.blocks g) (hash.data (encode codec v))
                 (Z.of_nat (List.length (encode codec v))) :: made, g')
    /\ acc_ok s0 (st', g', off + Z.of_nat (List.length (encode codec v)), i + 1)
    /\ acc_frame s0 (st, g, off, i)
                 (st', g', off + Z.of_nat (List.length (encode codec v)), i + 1)
    /\ (acc_sized s0 (st, g, off, i) ->
        acc_sized s0 (st', g', off + Z.of_nat (List.length (encode codec v)), i + 1))
    /\ (Feed.live s0 = true ->
        storage.getSignature st' (Feed.length s0 + i)
        = Some (sign (hash.tree (merkle.roots g')) sk))
    /\ stored st' (mkNode (2 * merkle.blocks g) (hash.data (encode codec v))
                          (Z.of_nat (List.length (encode codec v))))
    /\ (Feed._indexing s0 = false -> 0 <= Feed.byteLength s0 ->
        raf.read (storage.data st') (Feed.byteLength s0 + off)
                 (Z.of_nat (List.length (encode codec v)))
        = Some (encode codec v)).
Proof.
  intros (Hg & Hst & Hoff & Hi & Hblocks).
  unfold append_effect_item.
  destruct (merkle.next g (encode codec v)) as [ns g'] eqn:Hnext.
  destruct (next_spec g g' _ ns Hg Hnext)
    as (Hg' & Hb' & (made & -> & Hmade) & (top' & kept & dropped & Hroots' & Hlast & Hroots)
        & Hspan & Hsz).
  set (data := encode codec v) in *.
  set (leaf := mkNode (2 * merkle.blocks g) (hash.data data)
                      (Z.of_nat (List.length data))) in *.
  set (st1 := if Feed._indexing s0 then st
              else storage.write_data st (Feed.byteLength s0 + off) data).
  set (st2 := if Feed.live s0
              then storage.putSignature st1 (Feed.length s0 + i)
                     (sign (hash.tree (merkle.roots g')) sk)
              else st1).
  fold (putNodes (leaf :: made) st2).
  assert (Htree2 : storage.tree st2 = storage.tree st).
  { subst st2 st1. destruct (Feed.live s0), (Feed._indexing s0); reflexivity. }
  assert (Hother : forall j, flat.rightSpan j <> 2 * merkle.blocks g ->
                     storage.tree (putNodes (leaf :: made) st2) !! j
                     = storage.tree st !! j).
  { intros j Hj. rewrite putNodes_other, Htree2; [reflexivity|].
    eapply Forall_impl; [exact Hspan|]. cbn beta. intros x Hx Heq. congruence. }
  destruct (putNodes_frame (leaf :: made) st2) as [Hsigs Hdata].
  exists (putNodes (leaf :: made) st2), g', made.
  split; [reflexivity|]. split; [reflexivity|].
  split.
  { split; [exact Hg'|]. split; [|lia].
    rewrite Hroots'. apply Forall_app. split.
    - rewrite Hroots in Hst. apply Forall_app in Hst. destruct Hst as [Hkept _].
      rewrite Forall_forall in Hkept |- *. intros x Hx.
      eapply stored_tree; [|apply Hkept; exact Hx]. apply Hother.
      pose proof (roots_before g x Hg) as Hlt. rewrite Hroots in Hlt.
      specialize (Hlt ltac:(apply in_or_app; left; apply list_elem_of_In; exact Hx)).
      lia.
    - constructor; [|constructor]. apply putNodes_last. exact Hlast. }
  split.
  { unfold acc_frame. cbv beta iota zeta. split; [lia|]. split; [lia|]. split; [lia|].
    split; [intros j Hj; apply Hother; lia|].
    split.
    - intros j Hj. rewrite Hsigs. subst st2 st1.
      destruct (Feed.live s0), (Feed._indexing s0); sproj;
        rewrite ?lookup_insert_ne by lia; reflexivity.
    - intros Hbl a len x Ha Hl Hend Hx. rewrite Hdata. subst st2 st1.
      destruct (Feed.live s0), (Feed._indexing s0); sproj; try exact Hx;
        apply raf_facts.read_write_before; assumption. }
  split; [intros [Hbl Hsized]; split; [exact Hbl|]; rewrite Hsz, Hsized; lia|].
  split.
  { intros Hlive. unfold storage.getSignature. rewrite Hsigs. subst st2.
    rewrite Hlive. sproj. apply lookup_insert_eq. }
  split.
  { apply putNodes_head. eapply Forall_impl; [exact Hmade|]. cbn beta. auto. }
  intros Hidx Hbl. rewrite Hdata. subst st2 st1. rewrite Hidx.
  destruct (Feed.live s0); sproj; apply raf_facts.read_write; lia.
Qed.

Lemma fold_spec (batch : list value) :
  forall acc,
    acc_ok s0 acc ->
    let acc' := fold_left (append_effect_item codec s0 sk) batch acc in
    acc_ok s0 acc' /\ acc_frame s0 acc acc' /\ (acc_sized s0 acc -> acc_sized s0 acc').
Proof.
  induction batch as [|v rest IH]; intros acc Hok; cbn [fold_left].
  - split; [assumption|]. split; [apply acc_frame_refl|auto].
  - destruct acc as [[[st g] off] i].
    destruct (step_spec st g off i v Hok)
      as (st1 & g1 & made & -> & _ & Hok1 & Hframe1 & Hsized1 & _).
    destruct (IH _ Hok1) as (Hok' & Hframe' & Hsized').
    split; [exact Hok'|]. split; [|auto].
    eapply acc_frame_trans; [exact Hframe1|exact Hframe'].
Qed.

Lemma rightSpan_leaf (b : Z) : 0 <= b -> flat.rightSpan (2 * b) = 2 * b.
Proof.
  intros Hb. rewrite <- (index_leaf b), rightSpan_index by lia.
  change (2 ^ (0 + 1)) with 2. rewrite index_leaf. lia.
Qed.

(** Value [k] of a batch, once the loop has gone through the whole batch:
    the full roots after that value are stored, the signature in its slot
    is over them, and the block reads back. *)
Lemma fold_at (batch : list value) :
  forall st g off i k v,
    acc_ok s0 (st, g, off, i) ->
    nth_error batch k = Some v ->
    exists st' g' off' i' roots,
      fold_left (append_effect_item codec s0 sk) batch (st, g, off, i)
      = (st', g', off', i')
      /\ getNodes st' (rootsOf (merkle.blocks g + Z.of_nat k + 1) 0) = Some roots
      /\ (Feed.live s0 = true ->
          storage.getSignature st' (Feed.length s0 + i + Z.of_nat k)
          = Some (sign (hash.tree roots) sk))
      /\ (Feed._indexing s0 = false -> acc_sized s0 (st, g, off, i) ->
          storage.getData st' (merkle.blocks g + Z.of_nat k) = Some (encode codec v)).
Proof.
  induction batch as [|v0 rest IH]; intros st g off i k v Hok Hnth;
    [destruct k; discriminate|].
  cbn [fold_left].
  destruct (step_spec st g off i v0 Hok)
    as (st1 & g1 & made & -> & Hnext & Hok1 & Hframe1 & Hsized1 & Hsig & Hleaf & Hread).
  destruct k as [|k].
  - injection Hnth as ->.
    destruct (fold_spec rest _ Hok1) as (Hok' & Hframe' & _).
    destruct (fold_left (append_effect_item codec s0 sk) rest _)
      as [[[st' g'] off'] i'] eqn:Hfold.
    exists st', g', off', i', (merkle.roots g1).
    pose proof Hok as (Hg & Hst & Hoff & Hi & Hblocks).
    pose proof Hok1 as (Hg1 & Hst1 & _ & _ & Hblocks1).
    split; [reflexivity|].
    assert (Hroots1 : Forall (stored st') (merkle.roots g1)).
    { rewrite Forall_forall in Hst1 |- *. intros x Hx.
      apply (stored_frame _ _ x Hframe'); cbn [fst snd]; [|auto].
      pose proof (roots_before g1 x Hg1 ltac:(apply list_elem_of_In; exact Hx)). lia. }
    assert (Hframe : acc_frame s0 (st, g, off, i) (st', g', off', i'))
      by (eapply acc_frame_trans; [exact Hframe1|exact Hframe']).
    assert (Hroots0 : Forall (stored st') (merkle.roots g)).
    { rewrite Forall_forall in Hst |- *. intros x Hx.
      apply (stored_frame _ _ x Hframe); cbn [fst snd]; [|auto].
      pose proof (roots_before g x Hg ltac:(apply list_elem_of_In; exact Hx)). lia. }
    assert (Hleaf' : stored st' (mkNode (2 * merkle.blocks g) (hash.data (encode codec v))
                                        (Z.of_nat (List.length (encode codec v))))).
    { apply (stored_frame _ _ _ Hframe'); cbn [fst snd index]; [|exact Hleaf].
      destruct Hg as [Hb _]. rewrite rightSpan_leaf by assumption. lia. }
    destruct Hframe' as (_ & _ & _ & _ & Hsigs & Hdata).
    split.
    { replace (merkle.blocks g + Z.of_nat 0 + 1) with (merkle.blocks g1) by lia.
      destruct Hg1 as [_ Hidx1]. rewrite <- Hidx1. apply getNodes_stored. exact Hroots1. }
    split.
    { intros Hlive. unfold storage.getSignature. rewrite Hsigs by lia.
      replace (Feed.length s0 + i + Z.of_nat 0) with (Feed.length s0 + i) by lia.
      apply Hsig. exact Hlive. }
    intros Hidx [Hbl Hsized]. unfold storage.getData, storage.dataOffset.
    replace (merkle.blocks g + Z.of_nat 0) with (merkle.blocks g) by lia.
    rewrite fullRoots_rootsOf. destruct Hg as [Hb Hrootsg]. rewrite <- Hrootsg.
    rewrite (sumSizes_stored st' _ Hroots0).
    unfold storage.lookupNode. cbn [storage.findNode find].
    unfold stored in Hleaf'. cbn [index] in Hleaf'. rewrite Hleaf'. cbn [size].
    rewrite Hsized. apply (Hdata Hbl); [lia|lia|lia|]. apply Hread; assumption.
  - destruct (IH st1 g1 _ _ k v Hok1 Hnth)
      as (st' & g' & off' & i' & roots & Hfold & Hnodes & Hsig' & Hdata').
    exists st', g', off', i', roots.
    pose proof Hok as (_ & _ & _ & _ & Hblocks).
    pose proof Hok1 as (_ & _ & _ & _ & Hblocks1).
    split; [exact Hfold|].
    split.
    { replace (merkle.blocks g + Z.of_nat (S k) + 1)
        with (merkle.blocks g1 + Z.of_nat k + 1) by lia. exact Hnodes. }
    split.
    { intros Hlive.
      replace (Feed.length s0 + i + Z.of_nat (S k))
        with (Feed.length s0 + (i + 1) + Z.of_nat k) by lia. auto. }
    intros Hidx Hsz.
    replace (merkle.blocks g + Z.of_nat (S k)) with (merkle.blocks g1 + Z.of_nat k) by lia.
    auto.
Qed.

End append_store.

Section synced_feeds.
Context `{Crypto} `{TreeIndex}.
Context {value : Type} (codec : Codec value).
Context (keyPair : digest * secret).
Import storage_node flat_facts roots_facts.

Lemma fold_count (s0 : Feed.t) (sk : secret) (batch : list value) :
  forall acc,
    snd (fold_left (append_effect_item codec s0 sk) batch acc)
    = snd acc + Z.of_nat (List.length batch).
Proof.
  induction batch as [|v rest IH]; intros acc; cbn [fold_left List.length].
  - lia.
  - rewrite IH. destruct acc as [[[st g] off] i]. unfold append_effect_item.
    destruct (merkle.next g (encode codec v)). cbn [snd]. lia.
Qed.

Lemma getNodes_tree (st st' : storage.t) (l : list Z) :
  storage.tree st' = storage.tree st -> getNodes st' l = getNodes st l.
Proof.
  intros Ht. induction l as [|i l IH]; [reflexivity|].
  cbn [getNodes]. unfold storage.getNode. rewrite Ht, IH. reflexivity.
Qed.

Lemma iter_flip_bitfield (n : nat) (s s' : Feed.t) :
  Feed.bitfield s = Feed.bitfield s' -> Feed.length s = Feed.length s' ->
  Feed.bitfield (Nat.iter n append_flip s) = Feed.bitfield (Nat.iter n append_flip s')
  /\ Feed.length (Nat.iter n append_flip s) = Feed.length (Nat.iter n append_flip s').
Proof.
  intros Hb Hl. induction n as [|n [IHb IHl]]; [split; assumption|].
  rewrite !Nat.iter_succ.
  set (x := Nat.iter n append_flip s) in *. set (x' := Nat.iter n append_flip s') in *.
  unfold append_flip. fproj. rewrite IHb, IHl. split; reflexivity.
Qed.

(** What a completed append leaves, in terms of what its loop wrote. *)
Lemma append_store_form (s : Feed.t) (sk : secret) (g : merkle.t)
    (batch : list value) :
  Feed.opened s = true ->
  Feed.writable s = true ->
  Feed._merkle s = Some g ->
  (Feed.live s = true -> Feed.secretKey s = Some sk) ->
  ~ (Feed._indexing s = true /\ Feed.live s = false /\ List.length batch = 1%nat) ->
  batch <> [] ->
  exists s' st' g' off',
    append_effect codec s sk g batch = (st', g', off', Z.of_nat (List.length batch))
    /\ append codec keyPair s batch = Some ([Ok tt], s')
    /\ Feed._merkle s' = Some g'
    /\ storage.tree (Feed._storage s') = storage.tree st'
    /\ storage.signatures (Feed._storage s') = storage.signatures st'
    /\ storage.data (Feed._storage s') = storage.data st'
    /\ Feed.length s' = Feed.length s + Z.of_nat (List.length batch)
    /\ Feed.byteLength s' = Feed.byteLength s + off'
    /\ Feed.key s' = Feed.key s
    /\ Feed.bitfield s'
       = Feed.bitfield (Nat.iter (List.length batch) append_flip s).
Proof.
  intros Hop Hw Hm Hsk Hslip Hne.
  pose proof (append_closed_form codec keyPair s sk g batch Hop Hw Hm Hsk Hslip Hne)
    as Hcf.
  pose proof (fold_count s sk batch (Feed._storage s, g, 0, 0)) as Hcount.
  fold (append_effect codec s sk g batch) in Hcount.
  destruct (append_effect codec s sk g batch) as [[[st' g'] off'] i'].
  cbn [snd] in Hcount. destruct Hcf as (s' & Hc & Ha).
  exists s', st', g', off'. split; [f_equal; lia|]. split; [exact Ha|].
  destruct (append_complete_fields _ _ _ _ Hc)
    as (Hl & Hb & _ & Hk & _ & _ & _ & _ & Hmk & Hbits & Hst).
  fproj_in Hl. fproj_in Hb. fproj_in Hk. fproj_in Hmk. fproj_in Hst.
  split; [exact Hmk|]. rewrite Hst. sproj.
  split; [reflexivity|]. split; [reflexivity|]. split; [reflexivity|].
  split; [exact Hl|]. split; [exact Hb|]. split; [exact Hk|].
  rewrite Hbits. apply iter_flip_bitfield; reflexivity.
Qed.

End synced_feeds.


Lemma bits_set_nat_nth (i : nat) :
  forall (b : bits.t) (j : nat) (v : bool),
    nth j (bits.set_nat b i v) false = if Nat.eqb i j then v else nth j b false.
Proof.
  induction i as [|i IH]; intros b j v.
  - destruct b, j as [|[|j]]; reflexivity.
  - destruct b as [|x b], j as [|j]; cbn [bits.set_nat nth Nat.eqb]; try reflexivity.
    + rewrite IH. destruct (Nat.eqb i j); [reflexivity|]. destruct j; reflexivity.
    + apply IH.
Qed.

Lemma bits_get_set (b : bits.t) (i j : Z) (v : bool) :
  0 <= i ->
  bits.get (bits.set b i v) j = if i =? j then v else bits.get b j.
Proof.
  intros Hi. unfold bits.get, bits.set.
  destruct (Z.ltb_spec i 0); [lia|].
  destruct (Z.ltb_spec j 0).
  - destruct (Z.eqb_spec i j); [lia|reflexivity].
  - rewrite bits_set_nat_nth.
    destruct (Z.eqb_spec i j) as [->|Hne].
    + rewrite Nat.eqb_refl. reflexivity.
    + destruct (Nat.eqb_spec (Z.to_nat i) (Z.to_nat j)); [lia|reflexivity].
Qed.

Section round_trip.
Context `{Crypto} `{TreeIndex}.
Context {value : Type} (codec : Codec value).

(** The bits of the blocks an append adds are set. *)
Lemma iter_flip_bits (n : nat) (s : Feed.t) (j : Z) :
  0 <= Feed.length s ->
  Feed.length s <= j < Feed.length s + Z.of_nat n ->
  bits.get (Feed.bitfield (Nat.iter n append_flip s)) j = true.
Proof.
  intros Hl. induction n as [|n IH]; intros Hj; [lia|].
  rewrite Nat.iter_succ.
  destruct (iter_flip_fields n s) as (Hlen & _). cbv zeta in Hlen.
  set (x := Nat.iter n append_flip s) in *.
  unfold append_flip. fproj. rewrite bits_get_set by lia.
  destruct (Z.eqb_spec (Feed.length x) j); [reflexivity|]. apply IH. lia.
Qed.

Lemma getData_frame (st st' : storage.t) (index : Z) :
  storage.tree st' = storage.tree st -> storage.data st' = storage.data st ->
  storage.getData st' index = storage.getData st index.
Proof.
  intros Ht Hd. unfold storage.getData, storage.dataOffset. rewrite Hd.
  assert (Hnode : forall i, storage.lookupNode st' [] i = storage.lookupNode st [] i).
  { intros i. unfold storage.lookupNode, storage.getNode. rewrite Ht. reflexivity. }
  assert (Hsum : forall l, storage.sumSizes st' [] l = storage.sumSizes st [] l).
  { induction l as [|i l IH]; [reflexivity|]. cbn [storage.sumSizes].
    rewrite Hnode, IH. reflexivity. }
  rewrite Hsum, Hnode. reflexivity.
Qed.

End round_trip.

(** C5, as amended (append / get round trip).  On an open, writable feed
    that is not indexing, whose generator is in step with it and whose
    byteLength is the size of its roots, appending a batch succeeds, adds
    the size of the batch to the length and the bytes it encodes to to the
    byteLength, and for the value [v] at position [k] of the batch, with
    [decode (encode v) = v], getting block [length + k] afterwards returns
    [v]: decoded, or as the raw block under the binary codec. *)
Theorem append_get_round_trip :
  forall `{Crypto} `{TreeIndex} (value : Type) (codec : Codec value)
         (keyPair : digest * secret) (s : Feed.t) (batch : list value)
         (k : nat) (v : value) (wait : bool) (cb : nat),
    Feed.opened s = true -> Feed.writable s = true -> Feed._indexing s = false ->
    (Feed.live s = true -> is_some (Feed.secretKey s) = true) ->
    in_sync s -> sized s ->
    nth_error batch k = Some v ->
    decode codec (encode codec v) = v ->
    exists s',
      append codec keyPair s batch = Some ([Ok tt], s')
      /\ Feed.length s' = Feed.length s + Z.of_nat (List.length batch)
      /\ Feed.byteLength s' = Feed.byteLength s + encoded_size codec batch
      /\ in_sync s' /\ sized s'
      /\ get codec s' (Feed.length s + Z.of_nat k) wait cb
         = (Done (Ok (if binary codec then Raw (encode codec v) else Value v)), s').
Proof.
  intros C T value codec keyPair s batch k v wait cb Hop Hw Hidx Hsk Hsync Hsized
         Hnth Hrt.
  assert (Hne : batch <> []) by (intros ->; destruct k; discriminate).
  assert (Hk : (k < List.length batch)%nat)
    by (apply nth_error_Some; congruence).
  unfold in_sync in Hsync. unfold sized in Hsized.
  destruct (Feed._merkle s) as [g|] eqn:Hm; [|contradiction].
  destruct Hsync as (Hg & Hblocks & Hstored). destruct Hsized as (Hbl & Hsz).
  assert (Hsk' : exists sk, Feed.live s = true -> Feed.secretKey s = Some sk).
  { destruct (Feed.secretKey s) as [sk|]; [exists sk; auto|].
    exists (snd keyPair). intros Hl. specialize (Hsk Hl). discriminate. }
  destruct Hsk' as [sk Hsk'].
  destruct (append_store_form codec keyPair s sk g batch Hop Hw Hm Hsk'
              ltac:(intros (Hi & _); congruence) Hne)
    as (s' & st' & g' & off' & Heff & Ha & Hm' & Htree & _ & Hdata & Hlen & Hbyte & _
        & Hbits).
  assert (Hok : acc_ok s (Feed._storage s, g, 0, 0)).
  { split; [exact Hg|]. split; [exact Hstored|]. lia. }
  assert (Hsized0 : acc_sized s (Feed._storage s, g, 0, 0)).
  { split; [exact Hbl|]. lia. }
  pose proof (append_effect_offset codec s sk batch (Feed._storage s, g, 0, 0)) as Hoff.
  unfold append_effect in Heff. rewrite Heff in Hoff. cbn [fst snd] in Hoff.
  destruct (fold_spec codec s sk batch _ Hok) as (Hok' & _ & Hsized').
  rewrite Heff in Hok', Hsized'.
  destruct Hok' as (Hg' & Hst' & Hoff' & _ & Hb'). destruct (Hsized' Hsized0) as (_ & Hsz').
  exists s'. split; [exact Ha|]. split; [exact Hlen|]. split; [lia|].
  split.
  { unfold in_sync. rewrite Hm'. split; [exact Hg'|]. split; [lia|].
    eapply Forall_impl; [exact Hst'|]. cbn beta. intros x.
    apply stored_tree. rewrite Htree. reflexivity. }
  split; [unfold sized; rewrite Hm'; split; lia|].
  destruct (fold_at codec s sk batch _ _ _ _ k v Hok Hnth)
    as (st1 & g1 & off1 & i1 & roots & Hfold & _ & _ & Hget).
  rewrite Heff in Hfold. injection Hfold as <- <- <- <-.
  specialize (Hget Hidx Hsized0).
  unfold get. rewrite Hbits, iter_flip_bits by (destruct Hg; lia). cbn [negb].
  rewrite (getData_frame _ _ _ Htree Hdata), <- Hblocks, Hget, Hrt. reflexivity.
Qed.

(** ** Opening a feed puts the generator in step *)

Section open_sync.
Context `{Crypto} `{TreeIndex}.
Context (keyPair : digest * secret).
Import storage_node flat_facts roots_facts.

Lemma getNodes_spec (st : storage.t) (l : list Z) :
  forall roots,
    getNodes st l = Some roots -> map index roots = l /\ Forall (stored st) roots.
Proof.
  induction l as [|i l IH]; intros roots Hget; cbn [getNodes] in Hget.
  - injection Hget as <-. split; [reflexivity|constructor].
  - destruct (storage.getNode st i) as [n|] eqn:Hn; [|discriminate].
    destruct (getNodes st l) as [ns|]; [|discriminate].
    injection Hget as <-. destruct (IH ns eq_refl) as [Hidx Hall].
    pose proof (getNode_index _ _ _ Hn) as Hi.
    split; [cbn [map]; rewrite Hidx, Hi; reflexivity|].
    constructor; [|exact Hall]. unfold stored. rewrite Hi. exact Hn.
Qed.

Lemma create_blocks (roots : list (Node digest)) (n : Z) :
  0 <= n -> map index roots = rootsOf n 0 -> merkle.blocks (merkle.create roots) = n.
Proof.
  intros Hn Hroots. unfold merkle.create. cbn [merkle.blocks].
  destruct (Z.eq_dec n 0) as [->|Hne].
  - rewrite rootsOf_0 in Hroots by lia. destruct roots; [reflexivity|discriminate].
  - destruct (odd_part n ltac:(lia)) as (t & q & Ht & Hq & ->).
    rewrite rootsOf_snoc in Hroots by assumption.
    apply map_eq_app in Hroots. destruct Hroots as (front & back & -> & _ & Hback).
    destruct back as [|r [|]]; try discriminate. injection Hback as Hr.
    rewrite last_snoc, Hr, rightSpan_index by lia.
    pose proof (pow2_pos t Ht). rewrite Z.pow_add_r by lia. change (2 ^ 1) with 2.
    replace ((2 * q + 1) * (2 ^ t * 2) - 2) with (((2 * q + 1) * 2 ^ t - 1) * 2) by lia.
    rewrite Z.div_mul by lia. lia.
Qed.

Lemma addSize_sizes (roots : list (Node digest)) :
  forall total, fold_left addSize roots total = total + sizes roots.
Proof.
  induction roots as [|r roots IH]; intros total; cbn [fold_left].
  - unfold sizes. cbn. lia.
  - rewrite IH. unfold addSize. change (sizes (r :: roots)) with (size r + sizes roots).
    lia.
Qed.

Lemma open_onroots_in_sync (s s' : Feed.t) :
  0 <= Feed.length s ->
  open_onroots s = (Ok tt, s') ->
  in_sync s'
  /\ (exists g, Feed._merkle s' = Some g /\ Feed.byteLength s' = sizes (merkle.roots g)).
Proof.
  intros Hl. unfold open_onroots, _roots.
  destruct (getNodes (Feed._storage s) (flat.fullRoots (2 * Feed.length s)))
    as [roots|] eqn:Hget; [|discriminate].
  intros Ho. injection Ho as <-.
  apply getNodes_spec in Hget. destruct Hget as [Hidx Hall].
  rewrite fullRoots_rootsOf in Hidx.
  pose proof (create_blocks roots (Feed.length s) Hl Hidx) as Hb.
  split.
  - unfold in_sync. fproj. split; [split|split].
    + rewrite Hb. exact Hl.
    + rewrite Hb. exact Hidx.
    + exact Hb.
    + exact Hall.
  - exists (merkle.create roots). fproj. split; [reflexivity|].
    rewrite addSize_sizes. cbn [merkle.create merkle.roots]. lia.
Qed.

(** A feed that opens comes out with its generator in step. *)
Lemma open_in_sync (s s' : Feed.t) :
  0 <= Feed.length s ->
  _open keyPair s = (Ok tt, s') ->
  in_sync s'.
Proof.
  intros Hl. unfold _open.
  assert (Hload : 0 <= Feed.length (open_load s)).
  { unfold open_load.
    match goal with |- context [0 <? ?x] => destruct (Z.ltb_spec 0 x) end; fproj; lia. }
  destruct (open_keys _ _ (open_load s)) as [e|s2] eqn:Hk; [discriminate|].
  apply open_keys_length in Hk.
  match goal with
  | |- context [open_onsignature keyPair ?sg s2] =>
      pose proof (open_onsignature_length keyPair sg s2) as Hs;
      destruct (open_onsignature keyPair sg s2) as [[e|] s3]
  end; cbn [snd] in Hs; [discriminate|].
  intros Ho. apply open_onroots_in_sync in Ho; [apply Ho|].
  unfold open_write. fproj. lia.
Qed.

End open_sync.


Lemma fresh_writer_in_sync : in_sync example.fresh_writer.
Proof.
  apply (open_in_sync example.kp (create storage.empty None noOptions)).
  - cbn. lia.
  - vm_compute. reflexivity.
Qed.

Lemma fresh_writer_sized : sized example.fresh_writer.
Proof. vm_compute. split; [discriminate|reflexivity]. Qed.


(** C4 as stated fails for a live writable feed that has taken a put.
    [put] does not test [writable] and does not feed the generator.  The
    fresh writer takes block 0 of the two-block feed with the writer's
    proof: its length is 2 and its generator has seen no block.  It then
    appends "x": the generator makes leaf 0 of it, the roots signed are
    this one leaf, the signature goes into slot 2 and the length becomes 3.
    The full roots of three blocks are not all stored, and the signature
    in the last slot is not one over them. *)
Lemma per_leaf_signatures_counterexample :
  let s1 := match put utf8 example.kp example.fresh_writer 0 "hello"%string
                      (example.proof_of 0) with
            | Some (_, s) => s
            | None => example.fresh_writer
            end in
  Feed.opened s1 = true /\ Feed.live s1 = true /\ Feed.writable s1 = true
  /\ Feed.length s1 = 2
  /\ exists s2,
       append utf8 example.kp s1 ["x"]%string = Some ([Ok tt], s2)
       /\ Feed.length s2 = 3
       /\ is_some (storage.getSignature (Feed._storage s2) 2) = true
       /\ getNodes (Feed._storage s2) (flat.fullRoots (2 * 3)) = None
       /\ ~ signed s2.
Proof.
  intros s1. split; [vm_compute; reflexivity|]. split; [vm_compute; reflexivity|].
  split; [vm_compute; reflexivity|]. split; [vm_compute; reflexivity|].
  eexists. split; [vm_compute; reflexivity|]. split; [vm_compute; reflexivity|].
  split; [vm_compute; reflexivity|].
  assert (Hnone : forall s2 : Feed.t,
             getNodes (Feed._storage s2) (flat.fullRoots (2 * Feed.length s2)) = None ->
             0 < Feed.length s2 -> ~ signed s2).
  { intros s2 Hn Hl Hs. destruct (Hs Hl) as (pk & sig & roots & _ & _ & Hr & _).
    rewrite Hn in Hr. discriminate. }
  split; [vm_compute; reflexivity|].
  apply Hnone; [vm_compute; reflexivity|vm_compute; reflexivity].
Qed.

Lemma append_get_round_trip_witness :
  exists s',
    append utf8 example.kp example.fresh_writer ["hello"; "world"]%string
    = Some ([Ok tt], s')
    /\ Feed.length s' = 2 /\ Feed.byteLength s' = 10
    /\ get utf8 s' 0 true 0 = (Done (Ok (Value "hello"%string)), s')
    /\ get utf8 s' 1 true 0 = (Done (Ok (Value "world"%string)), s').
Proof.
  destruct (@append_get_round_trip ideal.crypto tree_index.reference string utf8
              example.kp example.fresh_writer ["hello"; "world"]%string
              0 "hello"%string true 0 eq_refl eq_refl eq_refl (fun _ => eq_refl)
              fresh_writer_in_sync fresh_writer_sized eq_refl eq_refl)
    as (s' & Ha & Hl & Hb & _ & _ & Hg0).
  destruct (@append_get_round_trip ideal.crypto tree_index.reference string utf8
              example.kp example.fresh_writer ["hello"; "world"]%string
              1 "world"%string true 0 eq_refl eq_refl eq_refl (fun _ => eq_refl)
              fresh_writer_in_sync fresh_writer_sized eq_refl eq_refl)
    as (s'' & Ha' & _ & _ & _ & _ & Hg1).
  rewrite Ha in Ha'. injection Ha' as <-.
  exists s'. split; [exact Ha|]. split; [exact Hl|]. split; [exact Hb|].
  split; [exact Hg0|exact Hg1].
Defined.

(** C5 as stated fails on an indexing feed, which keeps the tree and leaves
    the data to its owner: appending "hello" and "world" succeeds, the
    length is 2 and the byteLength 10, and no block was written, so
    [get(0)] answers with the error of the storage. *)
Lemma append_get_counterexample :
  Feed.opened example.indexing_writer = true
  /\ Feed.writable example.indexing_writer = true
  /\ match append utf8 example.kp example.indexing_writer ["hello"; "world"]%string with
     | Some (calls, s') =>
         calls = [Ok tt] /\ Feed.length s' = 2 /\ Feed.byteLength s' = 10
         /\ fst (get utf8 s' 0 true 0) = Done (Err StorageNotFound)
     | None => False
     end.
Proof. vm_compute. repeat split; reflexivity. Qed.

(** ** Proofs and the put that takes them *)

Section put_anchored.
Context `{Crypto} `{TreeIndex}.
Context {value : Type} (codec : Codec value).
Context (keyPair : digest * secret).

(** A put whose leaf the feed already trusts reads nothing of the proof. *)
Lemma putBuffer_trusted_leaf (s : Feed.t) (index : Z) (data : list byte)
    (p : MerkleProof) :
  bits.get (Feed.tree s) (2 * index) = true ->
  storage.getNode (Feed._storage s) (2 * index)
  = Some (mkNode (2 * index) (hash.data data) (Z.of_nat (List.length data))) ->
  _putBuffer s index data p = _write s index data [] None.
Proof.
  intros Hbit Hnode. unfold _putBuffer, putBuffer_load.
  cbn [putBuffer_loop]. rewrite Hbit. cbn [getNodes].
  assert (Hpos : (-1 <? 2 * index) = true).
  { apply Z.ltb_lt. unfold bits.get in Hbit.
    destruct (Z.ltb_spec (2 * index) 0); [discriminate|lia]. }
  rewrite Hpos, Hnode. cbn [is_some negb andb].
  unfold _verifyAndWrite, verify_climb, verifyNode.
  cbn [storage_node.index storage_node.hash]. rewrite Z.eqb_refl.
  rewrite bool_decide_eq_true_2 by reflexivity. reflexivity.
Qed.




End put_anchored.




(** * Further properties of the feed *)

(** X1 (open and the generator).  A feed that opens comes out marked open,
    with a generator made from the stored nodes at the full roots of
    [2 * length]: the generator has been fed [length] blocks, its roots are
    stored, and byteLength is the sum of their sizes. *)
Theorem open_generator :
  forall `{Crypto} `{TreeIndex} (keyPair : digest * secret) (s s' : Feed.t),
    0 <= Feed.length s ->
    _open keyPair s = (Ok tt, s') ->
    Feed.opened s' = true
    /\ in_sync s'
    /\ exists roots,
         _roots s' (Feed.length s') = Ok roots
         /\ Feed._merkle s' = Some (merkle.create roots)
         /\ Feed.byteLength s' = sizes roots.
Proof.
  intros C T keyPair s s' Hl Hopen.
  split; [|split; [apply (open_in_sync keyPair _ _ Hl Hopen)|]].
  - revert Hopen. unfold _open.
    destruct (open_keys _ _ (open_load s)) as [e|s2]; [discriminate|].
    match goal with
    | |- context [open_onsignature keyPair ?sg s2] =>
        destruct (open_onsignature keyPair sg s2) as [[e|] s3]
    end; [discriminate|].
    unfold open_onroots.
    match goal with
    | |- context [_roots ?a ?b] => destruct (_roots a b)
    end; [discriminate|].
    intros Ho. injection Ho as <-. reflexivity.
  - revert Hopen. unfold _open.
    destruct (open_keys _ _ (open_load s)) as [e|s2]; [discriminate|].
    match goal with
    | |- context [open_onsignature keyPair ?sg s2] =>
        destruct (open_onsignature keyPair sg s2) as [[e|] s3]
    end; [discriminate|].
    match goal with
    | |- context [open_write ?b s3] => set (s4 := open_write b s3)
    end.
    unfold open_onroots.
    destruct (_roots s4 (Feed.length s4)) as [e|roots] eqn:Hroots; [discriminate|].
    intros Ho. injection Ho as <-. exists roots. fproj.
    split; [|split; [reflexivity|]].
    + unfold _roots in *. fproj. exact Hroots.
    + rewrite addSize_sizes. lia.
Qed.

Lemma open_generator_witness :
  Feed.opened example.fresh_writer = true /\ in_sync example.fresh_writer.
Proof.
  assert (Hl : 0 <= Feed.length (create storage.empty None noOptions))
    by (vm_compute; discriminate).
  assert (Ho : _open example.kp (create storage.empty None noOptions)
               = (Ok tt, example.fresh_writer)) by (vm_compute; reflexivity).
  destruct (@open_generator ideal.crypto tree_index.reference example.kp
              _ _ Hl Ho) as (Hopened & Hs & _).
  split; [exact Hopened|exact Hs].
Defined.
Section single_indexing.
Context `{Crypto} `{TreeIndex}.
Context {value : Type} (codec : Codec value).

(** The one turn of the loop of [_append] on an indexing feed that is not
    live, when the counter stands at one: [done] completes the append
    before the nodes are counted. *)
Lemma append_item_completes (s : Feed.t) (g : merkle.t) (v : value) :
  Feed._indexing s = true -> Feed.live s = false -> Feed._merkle s = Some g ->
  exists s1 ns g',
    merkle.next g (encode codec v) = (ns, g')
    /\ append_complete 1 (Feed.with_merkle (Some g') s) 0 = Some s1
    /\ append_item codec 1 (mkAppending s 1 0 0 []) 0 v
       = Some (mkAppending (Feed.with_storage (putNodes ns (Feed._storage s1)) s1)
                           (Z.of_nat (List.length ns))
                           (Z.of_nat (List.length (encode codec v)))
                           (List.length ns) [Ok tt]).
Proof.
  intros Hidx Hlive Hg.
  destruct (merkle.next g (encode codec v)) as [ns g'] eqn:Hnext.
  assert (Hc : exists s1, append_complete 1 (Feed.with_merkle (Some g') s) 0 = Some s1)
    by (unfold append_complete; apply _syncBitfield_total).
  destruct Hc as [s1 Hc1].
  exists s1, ns, g'. split; [reflexivity|]. split; [exact Hc1|].
  destruct (append_complete_fields _ _ _ _ Hc1) as (_ & _ & Hv1 & _).
  fproj_in Hv1.
  unfold append_item. cbn [a_feed a_pending a_offset a_requests a_calls].
  rewrite Hg, Hnext. cbn [a_feed a_pending a_offset a_requests a_calls]. fproj.
  rewrite Hidx. unfold append_done.
  cbn [a_feed a_pending a_offset a_requests a_calls].
  change (1 - 1 =? 0) with true. cbn [negb]. rewrite Hc1.
  cbn [a_feed a_pending a_offset a_requests a_calls]. rewrite Hv1, Hlive.
  cbn [a_feed a_pending a_offset a_requests a_calls app]. reflexivity.
Qed.

End single_indexing.

(** X2 (an append that completes twice).  On an open, writable feed that is
    indexing and not live, the append of a single value counts its one
    request down before the node writes are counted: [done] completes the
    append at once and again when the nodes are written.  The callback is
    called twice, the length grows by two and the byteLength by the size of
    the one block. *)
Theorem append_single_indexing_completes_twice :
  forall `{Crypto} `{TreeIndex} (value : Type) (codec : Codec value)
         (keyPair : digest * secret) (s : Feed.t) (v : value),
    Feed.opened s = true -> Feed.writable s = true ->
    Feed._indexing s = true -> Feed.live s = false ->
    is_some (Feed._merkle s) = true ->
    exists s',
      append codec keyPair s [v] = Some ([Ok tt; Ok tt], s')
      /\ Feed.length s' = Feed.length s + 2
      /\ Feed.byteLength s'
         = Feed.byteLength s + Z.of_nat (List.length (encode codec v)).
Proof.
  intros C T value codec keyPair s v Hop Hw Hidx Hlive Hm.
  destruct (Feed._merkle s) as [g|] eqn:Hg; [|discriminate].
  destruct (append_item_completes codec s g v Hidx Hlive Hg)
    as (s1 & ns & g' & Hnext & Hc1 & Hitem).
  pose proof (next_nodes_nonempty _ _ _ _ Hnext) as Hns.
  destruct (append_complete_fields _ _ _ _ Hc1) as (Hl1 & Hb1 & _).
  fproj_in Hl1. fproj_in Hb1.
  set (a2 := mkAppending (Feed.with_storage (putNodes ns (Feed._storage s1)) s1)
                         (Z.of_nat (List.length ns))
                         (Z.of_nat (List.length (encode codec v)))
                         (List.length ns) [Ok tt]) in *.
  destruct (append_answers_complete 1 (List.length ns) a2 Hns eq_refl)
    as (s2 & Hc2 & Ha).
  destruct (append_complete_fields _ _ _ _ Hc2) as (Hl2 & Hb2 & _).
  cbn [a2 a_feed a_offset] in Hl2, Hb2. fproj_in Hl2. fproj_in Hb2.
  exists s2. split; [|split; lia].
  unfold append, _append, _ready. rewrite Hop, Hw, Hlive. cbn [negb List.length].
  change (Z.of_nat 1 =? 0) with false. cbv iota.
  cbn [append_items]. change (Z.of_nat 1) with 1. rewrite Hitem.
  change (a_requests a2) with (List.length ns). rewrite Ha. reflexivity.
Qed.

Lemma append_single_indexing_completes_twice_witness :
  exists s',
    append utf8 example.kp example.plain_indexing_writer ["a"]%string
    = Some ([Ok tt; Ok tt], s')
    /\ Feed.length s' = 2 /\ Feed.byteLength s' = 1.
Proof.
  destruct (@append_single_indexing_completes_twice ideal.crypto tree_index.reference
              string utf8 example.kp example.plain_indexing_writer "a"%string)
    as (s' & Ha & Hl & Hb); try (vm_compute; reflexivity).
  exists s'. split; [exact Ha|]. split; [rewrite Hl|rewrite Hb]; vm_compute; reflexivity.
Defined.

(** ** Selections *)

Section selections.
Context `{Crypto}.

Lemma with_selections_same (s : Feed.t) :
  Feed.with_selections (Feed._selections s) s = s.
Proof. destruct s. reflexivity. Qed.

Lemma with_selections_twice (l l' : list Selection) (s : Feed.t) :
  Feed.with_selections l (Feed.with_selections l' s) = Feed.with_selections l s.
Proof. destruct s. reflexivity. Qed.

Lemma splice_first_none (f : Selection -> bool) (l : list Selection) :
  Forall (fun x => f x = false) l -> splice_first l f = l.
Proof.
  induction 1 as [|x l Hx _ IH]; [reflexivity|].
  cbn [splice_first]. rewrite Hx, IH. reflexivity.
Qed.

Lemma splice_first_some (f : Selection -> bool) (l : list Selection) :
  Exists (fun x => f x = true) l ->
  exists front x back,
    l = front ++ x :: back /\ f x = true
    /\ Forall (fun y => f y = false) front
    /\ splice_first l f = front ++ back.
Proof.
  induction l as [|y l IH]; intros Hex; [inversion Hex|].
  cbn [splice_first]. destruct (f y) eqn:Hy.
  - exists [], y, l. repeat split; [assumption|constructor].
  - destruct IH as (front & x & back & -> & Hx & Hfront & Hsplice).
    { inversion Hex as [? ? Hy'|]; subst; [congruence|assumption]. }
    exists (y :: front), x, back. rewrite Hsplice.
    repeat split; [assumption|constructor; assumption].
Qed.

End selections.

(** X3 (download, then undownload).  Handing the selection that
    [download] returned to [undownload] takes it off the selections again,
    answers 'Download was cancelled' to it, and leaves the feed as it was
    before the download. *)
Theorem download_undownload :
  forall `{Crypto} (s : Feed.t) (range : Range) (cb : option nat),
    let '(sel, s1) := download s range cb in
    sel_index sel = Z.of_nat (List.length (Feed._selections s))
    /\ Feed._selections s1 = Feed._selections s ++ [sel]
    /\ undownload s1 (inl sel) = (Some DownloadCancelled, s).
Proof.
  intros C s range cb. unfold download.
  set (sel := mkSelection _ _ _ _ _ _).
  split; [reflexivity|]. split; [reflexivity|].
  unfold undownload. cbn [sel_index sel].
  replace (-1 <? Z.of_nat (List.length (Feed._selections s))) with true
    by (symmetry; apply Z.ltb_lt; lia).
  f_equal. cbn [Feed._selections Feed.with_selections].
  assert (Hhas : set_has (Feed._selections s ++ [sel]) sel = true).
  { unfold set_has. cbn [sel_index sel].
    replace (Z.of_nat (List.length (Feed._selections s)) <? 0) with false
      by (symmetry; apply Z.ltb_ge; lia).
    rewrite Nat2Z.id, list_lookup_middle by reflexivity.
    apply bool_decide_eq_true_2. reflexivity. }
  unfold set_remove. rewrite Hhas. cbn [negb].
  rewrite last_snoc, removelast_last, bool_decide_eq_true_2 by reflexivity.
  rewrite with_selections_twice. apply with_selections_same.
Qed.

(** X4 (undownload by bounds).  Undownload of a range given by its bounds
    never answers to a callback.  When no selection has these bounds, hash
    and linear flags, the feed is left as it is; otherwise the first such
    selection, and only that one, is taken off. *)
Theorem undownload_by_bounds :
  forall `{Crypto} (s : Feed.t) (r : Range),
    let matches :=
      selection_matches (or_default (r_start r) 0) (or_default (r_end r) (-1))
                        (r_hash r) (r_linear r) in
    fst (undownload s (inr r)) = None
    /\ (Forall (fun x => matches x = false) (Feed._selections s) ->
        snd (undownload s (inr r)) = s)
    /\ (Exists (fun x => matches x = true) (Feed._selections s) ->
        exists front x back,
          Feed._selections s = front ++ x :: back
          /\ matches x = true
          /\ Forall (fun y => matches y = false) front
          /\ Feed._selections (snd (undownload s (inr r))) = front ++ back).
Proof.
  intros C s r matches. unfold undownload. cbn [fst snd]. fold matches.
  split; [reflexivity|]. split.
  - intros Hnone. rewrite (splice_first_none _ _ Hnone). apply with_selections_same.
  - intros Hsome.
    destruct (splice_first_some _ _ Hsome) as (front & x & back & Hl & Hx & Hf & Hs).
    exists front, x, back. cbn [Feed._selections Feed.with_selections].
    repeat split; assumption.
Qed.

(** ** Seeking a byte offset *)

Section seeking.
Context `{Crypto} `{TreeIndex}.
Import storage_node flat_facts roots_facts.






End seeking.






(** ** A put on a feed that holds no node *)

Section bare_put.
Context `{Crypto} `{TreeIndex}.
Context {value : Type} (codec : Codec value).
Context (keyPair : digest * secret).
Import storage_node flat_facts.

(** With no bit set the plan of [_putBuffer] finds nothing to trust and
    nothing to load. *)
Lemma putBuffer_loop_bare (tree : bits.t) (fuel : nat) :
  (forall j, bits.get tree j = false) ->
  forall remote next missing r,
    putBuffer_loop fuel tree remote next missing = Some r -> r = (-1, missing).
Proof.
  intros Hbare. induction fuel as [|fuel IH]; intros remote next missing r;
    cbn [putBuffer_loop]; [discriminate|].
  rewrite !Hbare. cbn [negb].
  destruct (head_is remote (flat.sibling next)).
  - apply IH.
  - intros Hr. injection Hr as <-. reflexivity.
Qed.

Lemma putBuffer_load_bare (s : Feed.t) (index : Z) (remote : list (Node digest)) r :
  (forall j, bits.get (Feed.tree s) j = false) ->
  putBuffer_load s index remote = Some r -> r = Ok ([], None).
Proof.
  intros Hbare. unfold putBuffer_load.
  destruct (putBuffer_loop _ _ _ _ _) as [[trusted missing]|] eqn:Hloop; [|discriminate].
  apply (putBuffer_loop_bare _ _ Hbare) in Hloop. injection Hloop as -> ->.
  cbn. intros Hr. injection Hr as <-. reflexivity.
Qed.

(** With nothing to trust the climb ends on a top above the leaf. *)
Lemma verify_loop_untrusted (fuel : nat) :
  forall top remote visited c,
    0 <= index top ->
    verify_loop fuel None top remote [] visited = Some c ->
    exists top' remote' visited',
      c = AtRoots top' remote' visited'
      /\ 0 <= index top'
      /\ flat.rightSpan (index top) <= flat.rightSpan (index top').
Proof.
  induction fuel as [|fuel IH]; intros top remote visited c Htop;
    cbn [verify_loop]; [discriminate|].
  destruct (shift_if remote (flat.sibling (index top))) as [[node remote']|].
  - cbn [verifyNode]. intros Hc.
    apply IH in Hc; [|cbn [index]; apply parent_nonneg; assumption].
    destruct Hc as (top' & r' & v' & -> & Hpos & Hspan). cbn [index] in Hspan.
    exists top', r', v'. split; [reflexivity|]. split; [assumption|].
    pose proof (put_facts.rightSpan_parent (index top) Htop). lia.
  - cbn [shift_if]. intros Hc. injection Hc as <-.
    exists top, remote, visited. split; [reflexivity|]. split; [assumption|lia].
Qed.

End bare_put.

(** X7 (the first put of a reader).  On an open feed that holds no tree
    node yet, a put that succeeds has checked the roots: the feed is live
    afterwards exactly when the proof carried a signature, the block lies
    below the new length, and its bit is set. *)
Theorem put_on_bare_feed :
  forall `{Crypto} `{TreeIndex} (value : Type) (codec : Codec value)
         (keyPair : digest * secret) (s s' : Feed.t) (index : Z) (v : value)
         (p : MerkleProof),
    Feed.opened s = true ->
    (forall j, bits.get (Feed.tree s) j = false) ->
    0 <= index ->
    put codec keyPair s index v p = Some (Ok tt, s') ->
    Feed.live s' = is_some (proof_signature p)
    /\ index < Feed.length s'
    /\ bits.get (Feed.bitfield s') index = true.
Proof.
  intros C T value codec keyPair s s' index v p Hop Hbare Hi.
  unfold put, _ready. rewrite Hop. unfold _putBuffer.
  destruct (putBuffer_load s index (nodes p)) as [r|] eqn:Hload; [|discriminate].
  apply (putBuffer_load_bare _ _ _ _ Hbare) in Hload. subst r.
  unfold _verifyAndWrite, verify_climb. cbn [verifyNode].
  destruct (verify_loop _ None _ (nodes p) [] []) as [c|] eqn:Hclimb; [|discriminate].
  apply verify_loop_untrusted in Hclimb; [|cbn; lia].
  destruct Hclimb as (top & remote & visited & -> & Htop & Hspan).
  cbn [storage_node.index] in Hspan.
  rewrite (rightSpan_leaf index Hi) in Hspan.
  unfold _verifyRootsAndWrite.
  destruct (not_read _); [discriminate|]. destruct (not_sent _); [discriminate|].
  destruct (negb (Feed.length s =? 0) && Feed.live s && negb (is_some (proof_signature p)));
    [discriminate|].
  set (vb := verifiedBy_of top remote).
  assert (Hvb : index + 1 <= vb / 2).
  { subst vb. unfold verifiedBy_of. apply Z.div_le_lower_bound; lia. }
  match goal with
  | |- context [match ?c with Err _ => _ | Ok _ => _ end] =>
      destruct c as [e|signed] eqn:Hchecked
  end; [discriminate|].
  assert (Hsigned : is_some signed = is_some (proof_signature p)).
  { revert Hchecked. destruct (proof_signature p) as [sg|], (Feed.key s) as [k|];
      try discriminate.
    - destruct (verify _ sg k); [|discriminate]. intros Hc. injection Hc as <-. reflexivity.
    - destruct (bool_decide _); [|discriminate]. intros Hc. injection Hc as <-. reflexivity. }
  intros Hw. unfold _write in Hw.
  destruct (storage.putData _ _ _ _); [|discriminate].
  unfold _writeDone in Hw.
  destruct (_syncBitfield _) as [s2|] eqn:Hsync; [|discriminate].
  injection Hw as <-.
  apply _syncBitfield_spec in Hsync. apply but_waiting_fields in Hsync.
  destruct Hsync as (Hl & _ & Hv & _ & _ & Hbf & _).
  fproj_in Hl. fproj_in Hv. fproj_in Hbf.
  rewrite Hv, Hl, Hbf, Hsigned.
  split; [|split].
  - destruct (Feed.length s <? vb / 2); fproj; reflexivity.
  - destruct (Z.ltb_spec (Feed.length s) (vb / 2)); fproj; lia.
  - destruct (Feed.length s <? vb / 2); fproj; rewrite bits_get_set by lia;
      rewrite Z.eqb_refl; reflexivity.
Qed.

Lemma put_on_bare_feed_witness :
  Feed.live example.reader = true
  /\ 0 < Feed.length example.reader
  /\ bits.get (Feed.bitfield example.reader) 0 = true.
Proof.
  assert (Hbare : forall j, bits.get (Feed.tree example.fresh_reader) j = false).
  { intros j. change (Feed.tree example.fresh_reader) with (@nil bool).
    unfold bits.get. destruct (j <? 0); [reflexivity|]. destruct (Z.to_nat j); reflexivity. }
  assert (Hput : put utf8 example.kp example.fresh_reader 0 "hello"%string
                     (example.proof_of 0) = Some (Ok tt, example.reader))
    by (vm_compute; reflexivity).
  apply (@put_on_bare_feed ideal.crypto tree_index.reference string utf8 example.kp
           example.fresh_reader example.reader 0 "hello"%string (example.proof_of 0)
           eq_refl Hbare ltac:(lia) Hput).
Defined.

(** X8 (put, then get).  On an open feed that trusts the leaf of block [v]
    at [index] and whose data file has a place for the block (the blocks
    before it are accounted for by stored nodes), a put of the block
    succeeds and a get of [index] afterwards returns the block: decoded, or
    as the raw bytes under the binary codec. *)
Theorem put_then_get :
  forall `{Crypto} `{TreeIndex} (value : Type) (codec : Codec value)
         (keyPair : digest * secret) (s : Feed.t) (index : Z) (v : value)
         (p : MerkleProof) (offset : Z) (wait : bool) (cb : nat),
    Feed.opened s = true ->
    bits.get (Feed.tree s) (2 * index) = true ->
    storage.getNode (Feed._storage s) (2 * index)
    = Some (mkNode (2 * index) (hash.data (encode codec v))
                   (Z.of_nat (List.length (encode codec v)))) ->
    storage.dataOffset (Feed._storage s) index []
    = Some (offset, Z.of_nat (List.length (encode codec v))) ->
    0 <= offset ->
    exists s',
      put codec keyPair s index v p = Some (Ok tt, s')
      /\ get codec s' index wait cb
         = (Done (Ok (if binary codec then Raw (encode codec v)
                      else Value (decode codec (encode codec v)))), s').
Proof.
  intros C T value codec keyPair s index v p offset wait cb Hop Hbit Hnode Hoff Hpos.
  assert (Hi : 0 <= index).
  { unfold bits.get in Hbit. destruct (Z.ltb_spec (2 * index) 0); [discriminate|lia]. }
  unfold put, _ready. rewrite Hop.
  rewrite (putBuffer_trusted_leaf s index _ p Hbit Hnode).
  unfold _write, storage.putData. cbn [fold_left]. rewrite Hoff.
  unfold _writeDone.
  destruct (_syncBitfield _) as [s'|] eqn:Hsync.
  2: { match type of Hsync with
       | _syncBitfield ?x = None => destruct (_syncBitfield_total x) as [y Hy]
       end. congruence. }
  exists s'. split; [reflexivity|].
  apply _syncBitfield_spec in Hsync. apply but_waiting_fields in Hsync.
  destruct Hsync as (_ & _ & _ & _ & _ & Hbf & _ & _ & _ & _ & _ & Hst).
  fproj_in Hbf. fproj_in Hst.
  unfold get. rewrite Hbf, bits_get_set, Z.eqb_refl by assumption. cbn [negb].
  assert (Hdata : storage.getData (Feed._storage s') index = Some (encode codec v)).
  { rewrite Hst.
    rewrite (getData_frame (storage.write_data (Feed._storage s) offset (encode codec v)))
      by reflexivity.
    unfold storage.getData.
    assert (Hsame : storage.dataOffset
                      (storage.write_data (Feed._storage s) offset (encode codec v))
                      index []
                    = storage.dataOffset (Feed._storage s) index []).
    { unfold storage.dataOffset.
      assert (Hnodes : forall i,
                 storage.lookupNode
                   (storage.write_data (Feed._storage s) offset (encode codec v)) [] i
                 = storage.lookupNode (Feed._storage s) [] i) by reflexivity.
      assert (Hsum : forall l,
                 storage.sumSizes
                   (storage.write_data (Feed._storage s) offset (encode codec v)) [] l
                 = storage.sumSizes (Feed._storage s) [] l).
      { induction l as [|i l IH]; [reflexivity|]. cbn [storage.sumSizes].
        rewrite Hnodes, IH. reflexivity. }
      rewrite Hsum, Hnodes. reflexivity. }
    rewrite Hsame, Hoff. sproj. apply raf_facts.read_write. assumption. }
  rewrite Hdata. reflexivity.
Qed.

Lemma put_then_get_witness :
  exists s',
    put utf8 example.kp example.reader 1 "world"%string (example.proof_of 1)
    = Some (Ok tt, s')
    /\ get utf8 s' 1 true 0 = (Done (Ok (Value "world"%string)), s').
Proof.
  apply (@put_then_get ideal.crypto tree_index.reference string utf8 example.kp
           example.reader 1 "world"%string (example.proof_of 1) 5 true 0);
    try (vm_compute; reflexivity).
  vm_compute. discriminate.
Defined.

(** X10 (opening with [overwrite]).  A feed constructed with a key and the
    [overwrite] option opens whatever the store holds: the stored key is
    not compared, the stored secret key is not loaded, and the stored bit
    field is zeroed and written back.  The feed comes out empty (length 0,
    byteLength 0), with the key it was given, and not writable. *)
Theorem open_overwrite_resets :
  forall `{Crypto} `{TreeIndex} (keyPair : digest * secret) (st : storage.t)
         (k : digest) (opts : Options),
    opt_overwrite opts = Some true ->
    let r := _open keyPair (create st (Some k) opts) in
    fst r = Ok tt
    /\ Feed.length (snd r) = 0 /\ Feed.byteLength (snd r) = 0
    /\ Feed.key (snd r) = Some k /\ Feed.secretKey (snd r) = None
    /\ Feed.writable (snd r) = false
    /\ Feed.bitfield (snd r) = bits.fill0 (storage.data_bits (storage.bitfield st))
    /\ storage.key (Feed._storage (snd r)) = Some k
    /\ storage.secretKey (Feed._storage (snd r)) = storage.secretKey st
    /\ storage.bitfield (Feed._storage (snd r))
       = storage.mkBitfield (bits.fill0 (storage.data_bits (storage.bitfield st)))
                            (bits.fill0 (storage.tree_bits (storage.bitfield st))).
Proof.
  intros C T keyPair st k opts Hov r. subst r. rewrite create_eq.
  assert (Hovt : truthy (opt_overwrite opts) = true) by (rewrite Hov; reflexivity).
  rewrite Hovt.
  set (s := Feed.mk _ _ _ _ _ _ _ _ _ _ _ _ _ _ _ _ _ _ _).
  assert (Hovw : open_overwrite s = true) by (unfold open_overwrite; subst s; reflexivity).
  unfold _open, open_load, open_state_key, open_state_secretKey, open_bitfield.
  rewrite Hovw. cbn [storage.tree_bits storage.data_bits].
  rewrite open_length_fill0. cbn [Z.ltb Z.compare].
  unfold open_keys.
  assert (Hkey0 : Feed.key s = Some k) by reflexivity.
  set (s0 := Feed.with_overwrite true s).
  set (s1 := Feed.with_tree _ (Feed.with_bitfield _ s0)).
  assert (Hs1 : Feed.length s1 = 0 /\ Feed.key s1 = Some k /\ Feed.secretKey s1 = None
                /\ Feed._overwrite s1 = true /\ Feed._storage s1 = st
                /\ Feed.bitfield s1
                   = bits.fill0 (storage.data_bits (storage.bitfield st)))
    by (subst s1 s0 s; fproj; repeat split; reflexivity).
  destruct Hs1 as (Hl1 & Hk1 & Hsk1 & Ho1 & Hst1 & Hb1).
  assert (Hsts : Feed._storage s = st) by reflexivity.
  clearbody s1. clear s0. clearbody s.
  rewrite Hl1, Hsts. cbn [Z.eqb].
  unfold open_onsignature. rewrite Hl1. cbn [Z.eqb]. rewrite Hk1.
  cbn [is_some negb andb]. fproj. rewrite Hsk1, Hk1. cbn [is_some negb orb].
  rewrite open_onroots_empty by (rewrite open_write_length; fproj; exact Hl1).
  cbn [fst snd]. unfold open_write. fproj. rewrite Hk1, Hsk1, Ho1, Hst1, Hb1, Hl1. sproj.
  repeat split; reflexivity.
Qed.

Lemma open_overwrite_resets_witness :
  let r := _open example.kp
             (create (Feed._storage example.writer) (Some (ideal.Public 9))
                     (mkOptions None None None None (Some true))) in
  fst r = Ok tt /\ Feed.length (snd r) = 0 /\ Feed.key (snd r) = Some (ideal.Public 9).
Proof.
  destruct (@open_overwrite_resets ideal.crypto tree_index.reference example.kp
              (Feed._storage example.writer) (ideal.Public 9)
              (mkOptions None None None None (Some true)) eq_refl)
    as (Hok & Hl & _ & Hk & _).
  split; [exact Hok|]. split; [exact Hl|exact Hk].
Defined.

(** X9 (finalize does not close the feed).  On an open, writable feed that
    is not live and has no key, finalize makes the hash of the roots the
    key; the feed stays writable, and a later append (other than the single
    value on an indexing feed) succeeds and grows the feed while the key
    stays the one finalize made. *)
Theorem append_after_finalize :
  forall `{Crypto} `{TreeIndex} (value : Type) (codec : Codec value)
         (keyPair : digest * secret) (s : Feed.t) (g : merkle.t)
         (batch : list value),
    Feed.opened s = true -> Feed.writable s = true -> Feed.live s = false ->
    Feed.key s = None -> Feed._merkle s = Some g ->
    batch <> [] ->
    ~ (Feed._indexing s = true /\ List.length batch = 1%nat) ->
    let s1 := snd (finalize s) in
    Feed.key s1 = Some (hash.tree (merkle.roots g))
    /\ exists s2,
         append codec keyPair s1 batch = Some ([Ok tt], s2)
         /\ Feed.length s2 = Feed.length s + Z.of_nat (List.length batch)
         /\ Feed.key s2 = Some (hash.tree (merkle.roots g)).
Proof.
  intros C T value codec keyPair s g batch Hop Hw Hlive Hk Hm Hne Hslip s1.
  assert (Hs1 : Feed.key s1 = Some (hash.tree (merkle.roots g))
                /\ Feed.opened s1 = true /\ Feed.writable s1 = true
                /\ Feed.live s1 = false /\ Feed._merkle s1 = Some g
                /\ Feed._indexing s1 = Feed._indexing s
                /\ Feed.length s1 = Feed.length s).
  { subst s1. unfold finalize. rewrite Hk, Hm. cbn [snd]. fproj.
    repeat split; assumption. }
  destruct Hs1 as (Hk1 & Hop1 & Hw1 & Hlive1 & Hm1 & Hidx1 & Hl1).
  clearbody s1. split; [exact Hk1|].
  destruct (append_store_form codec keyPair s1 (snd keyPair) g batch Hop1 Hw1 Hm1
              ltac:(intros Hl; congruence)
              ltac:(intros (Hi & _ & Hn); apply Hslip; split; congruence) Hne)
    as (s2 & st' & g' & off' & _ & Ha & _ & _ & _ & _ & Hlen & _ & Hkey & _).
  exists s2. split; [exact Ha|]. split; [lia|congruence].
Qed.

Lemma append_after_finalize_witness :
  let s1 := snd (finalize example.plain_writer) in
  exists s2,
    append utf8 example.kp s1 ["x"; "y"]%string = Some ([Ok tt], s2)
    /\ Feed.length s2 = 2.
Proof.
  destruct (@append_after_finalize ideal.crypto tree_index.reference string utf8
              example.kp example.plain_writer (merkle.create [])
              ["x"; "y"]%string eq_refl eq_refl eq_refl eq_refl eq_refl
              ltac:(discriminate) ltac:(intros (_ & Hn); discriminate))
    as (_ & s2 & Ha & Hl & _).
  exists s2. split; [exact Ha|exact Hl].
Defined.

(** ** Polling the waiters *)

Section polling.
Context `{Crypto} `{TreeIndex}.
Context {value : Type} (codec : Codec value).






End polling.

Section polling_gets.
Context `{Crypto} `{TreeIndex}.


End polling_gets.



(** With waiters of [seek] in the queue a waiter of [get] whose block has
    arrived can be passed over.  The reader holds block 0 of two, and three
    waiters are queued: a seek to byte 100, a get of block 0 and a seek to
    byte 200, both seeks past the end of the feed.  The first seek is taken
    off, which moves the second to the front, and is pushed back at the
    end; the second is taken off, which moves the first to the front, and
    is pushed back; the first is taken off and pushed back once more.  The
    loop has then made its three turns and has not looked at the get. *)
Lemma pollWaiting_passes_over :
  let a := mkWaiter true 100 (-1) 0 (-1) 1 in
  let g := mkWaiter false 0 0 0 0 2 in
  let b := mkWaiter true 200 (-1) 0 (-1) 3 in
  let s := Feed.with_waiting [a; g; b] example.reader in
  bits.get (Feed.bitfield s) 0 = true
  /\ _pollWaiting s = Some (Feed.with_waiting [b; g; a] example.reader).
Proof. vm_compute. split; reflexivity. Qed.

(** ** Read streams *)

Section stream_facts.
Context `{Crypto} `{TreeIndex}.
Context {value : Type} (codec : Codec value).
Context (keyPair : digest * secret).

(** A stream past its first read hands over the blocks that are there, one
    after the other. *)
Lemma stream_reads_present (opts : ReadOpts) (s : Feed.t) (cb : nat) (n : nat) :
  forall (start : Z) (b : Bound),
    Feed.opened s = true ->
    (forall k, (k < n)%nat -> reaches (start + Z.of_nat k) b = false) ->
    (forall k, (k < n)%nat ->
       has s (start + Z.of_nat k) = true
       /\ is_some (storage.getData (Feed._storage s) (start + Z.of_nat k)) = true) ->
    stream_reads codec keyPair n opts (mkReadStream start b false) s cb
    = (map (fun i => Read i (fst (get codec s i (not_false (ro_wait opts)) cb)))
           (seqZ start (Z.of_nat n)),
       mkReadStream (start + Z.of_nat n) b false, s).
Proof.
  induction n as [|n IH]; intros start b Hop Hend Hhas.
  - cbn [stream_reads]. rewrite Z.add_0_r. reflexivity.
  - cbn [stream_reads]. unfold stream_read, _ready. rewrite Hop.
    unfold stream_settle. cbn [rs_first rs_start rs_end].
    pose proof (Hend 0%nat ltac:(lia)) as Hend0. rewrite Z.add_0_r in Hend0.
    rewrite Hend0.
    destruct (Hhas 0%nat ltac:(lia)) as [Hbit Hdata]. rewrite Z.add_0_r in Hbit, Hdata.
    assert (Hget : exists blk,
               get codec s start (not_false (ro_wait opts)) cb = (Done (Ok blk), s)).
    { unfold get. unfold has in Hbit. rewrite Hbit. cbn [negb].
      destruct (storage.getData (Feed._storage s) start); [|discriminate]. eauto. }
    destruct Hget as [blk Hget]. rewrite Hget.
    rewrite (IH (start + 1) b Hop).
    + replace (Z.of_nat (S n)) with (Z.succ (Z.of_nat n)) by lia.
      rewrite (seqZ_cons start) by lia. cbn [map]. rewrite Hget. cbn [fst].
      replace (Z.pred (Z.succ (Z.of_nat n))) with (Z.of_nat n) by lia.
      replace (Z.succ start) with (start + 1) by lia.
      replace (start + 1 + Z.of_nat n) with (start + Z.succ (Z.of_nat n)) by lia.
      reflexivity.
    + intros k Hk. specialize (Hend (S k) ltac:(lia)).
      replace (start + 1 + Z.of_nat k) with (start + Z.of_nat (S k)) by lia. exact Hend.
    + intros k Hk. specialize (Hhas (S k) ltac:(lia)).
      replace (start + 1 + Z.of_nat k) with (start + Z.of_nat (S k)) by lia. exact Hhas.
Qed.

Lemma stream_reads_app (opts : ReadOpts) (cb : nat) (n m : nat) :
  forall r s cs r' s',
    stream_reads codec keyPair n opts r s cb = (cs, r', s') ->
    List.length cs = n ->
    Forall (fun c => match c with Read _ (Done (Ok _)) => True | _ => False end) cs ->
    stream_reads codec keyPair (n + m) opts r s cb
    = (cs ++ fst (fst (stream_reads codec keyPair m opts r' s' cb)),
       snd (fst (stream_reads codec keyPair m opts r' s' cb)),
       snd (stream_reads codec keyPair m opts r' s' cb)).
Proof.
  induction n as [|n IH]; intros r s cs r' s' Hreads Hlen Hall.
  - cbn [stream_reads] in Hreads. injection Hreads as <- <- <-.
    cbn [Nat.add app]. destruct (stream_reads _ _ m opts r s cb) as [[a b] c]. reflexivity.
  - cbn [stream_reads Nat.add] in *.
    destruct (stream_read codec keyPair opts r s cb) as [[c r1] s1].
    destruct c as [|e0|i [|[e|blk]]].
    1,2,3,4: injection Hreads as <- <- <-; cbn in Hlen; destruct n; [|discriminate];
             inversion Hall as [|? ? Hc _]; destruct Hc.
    destruct (stream_reads _ _ n opts r1 s1 cb) as [[cs1 r2] s2] eqn:Hrest.
    injection Hreads as <- <- <-. cbn [List.length] in Hlen.
    inversion Hall as [|? ? _ Hall1]; subst.
    rewrite (IH r1 s1 cs1 r2 s2 Hrest ltac:(lia) Hall1). reflexivity.
Qed.

End stream_facts.

Section stream_bounds.
Context `{Crypto} `{TreeIndex}.
Context {value : Type} (codec : Codec value).
Context (keyPair : digest * secret).

Lemma stream_settle_twice (opts : ReadOpts) (r : ReadStream) (s : Feed.t) :
  stream_settle opts (stream_settle opts r s) s = stream_settle opts r s.
Proof. unfold stream_settle. destruct (rs_first r) eqn:Hf; [reflexivity|]. now rewrite Hf. Qed.

Lemma stream_reads_settle (opts : ReadOpts) (r : ReadStream) (s : Feed.t) (cb : nat)
    (n : nat) :
  Feed.opened s = true ->
  stream_reads codec keyPair (S n) opts r s cb
  = stream_reads codec keyPair (S n) opts (stream_settle opts r s) s cb.
Proof.
  intros Hop. cbn [stream_reads]. unfold stream_read, _ready. rewrite Hop.
  rewrite stream_settle_twice. reflexivity.
Qed.

(** Past its end a stream does not come back to it. *)
Lemma stream_reads_no_end (opts : ReadOpts) (e : Z) (cb : nat) (n : nat) :
  ro_tail opts = false -> e <> -1 ->
  forall r s,
    rs_end r = Finite e -> e < rs_start r ->
    ~ In EndOfStream (fst (fst (stream_reads codec keyPair n opts r s cb))).
Proof.
  intros Htail He. induction n as [|n IH]; intros r s Hend Hstart; [cbn; tauto|].
  cbn [stream_reads]. unfold stream_read.
  destruct (_ready keyPair s) as [[err|[]] s1]; [cbn; intros [Hc|[]]; discriminate|].
  assert (Hr : rs_end (stream_settle opts r s1) = Finite e
               /\ rs_start (stream_settle opts r s1) = rs_start r).
  { unfold stream_settle. destruct (rs_first r); [|auto].
    cbn [rs_end rs_start]. rewrite Htail, Hend.
    destruct (Z.eqb_spec e (-1)); [contradiction|auto]. }
  destruct Hr as [Hend1 Hstart1]. rewrite Hend1, Hstart1. cbn [reaches].
  destruct (Z.eqb_spec (rs_start r) e); [lia|].
  destruct (get codec s1 (rs_start r) (not_false (ro_wait opts)) cb) as [out s2].
  destruct out as [|[err|blk]]; try (cbn; intros [Hc|[]]; discriminate).
  specialize (IH (mkReadStream (rs_start r + 1) (Finite e) false) s2 eq_refl
                 ltac:(cbn; lia)).
  destruct (stream_reads _ _ n opts _ s2 cb) as [[cs r3] s3].
  cbn [fst In] in *. intros [Hc|Hin]; [discriminate|contradiction].
Qed.

End stream_bounds.

(** X12 (a read stream of what is there).  On an open feed, a stream that
    is not live, with no [tail] and no [end], started at or before the
    length, with every block from [start] on present and readable, hands
    over the answers of [get] for the blocks [start] to [length - 1] in
    order, then ends, and leaves the feed as it is. *)
Theorem read_stream_whole :
  forall `{Crypto} `{TreeIndex} (value : Type) (codec : Codec value)
         (keyPair : digest * secret) (opts : ReadOpts) (s : Feed.t) (cb : nat),
    Feed.opened s = true ->
    ro_live opts = false -> ro_tail opts = false -> ro_end opts = None ->
    let start := or_default (ro_start opts) 0 in
    start <= Feed.length s ->
    (forall i, start <= i < Feed.length s ->
       has s i = true /\ is_some (storage.getData (Feed._storage s) i) = true) ->
    stream_reads codec keyPair (S (Z.to_nat (Feed.length s - start))) opts
                 (createReadStream opts) s cb
    = (map (fun i => Read i (fst (get codec s i (not_false (ro_wait opts)) cb)))
           (seqZ start (Feed.length s - start))
         ++ [EndOfStream],
       mkReadStream (Feed.length s) (Finite (Feed.length s)) false, s).
Proof.
  intros C T value codec keyPair opts s cb Hop Hlive Htail Hend start Hstart Hhas.
  rewrite (stream_reads_settle codec keyPair opts _ s cb _ Hop).
  unfold stream_settle, createReadStream. cbn [rs_first rs_start rs_end].
  rewrite Htail, Hlive, Hend. change (-1 =? -1) with true. cbv iota. fold start.
  set (n := Z.to_nat (Feed.length s - start)).
  assert (Hn : Z.of_nat n = Feed.length s - start) by (subst n; lia).
  assert (Hpresent :
            stream_reads codec keyPair n opts
              (mkReadStream start (Finite (Feed.length s)) false) s cb
            = (map (fun i => Read i (fst (get codec s i (not_false (ro_wait opts)) cb)))
                   (seqZ start (Z.of_nat n)),
               mkReadStream (start + Z.of_nat n) (Finite (Feed.length s)) false, s)).
  { apply stream_reads_present; [exact Hop| |].
    - intros k Hk. cbn [reaches]. apply Z.eqb_neq. lia.
    - intros k Hk. apply Hhas. lia. }
  replace (S n) with (n + 1)%nat by lia.
  rewrite (stream_reads_app codec keyPair opts cb n 1 _ _ _ _ _ Hpresent).
  - replace (start + Z.of_nat n) with (Feed.length s) by lia. rewrite Hn.
    cbn [stream_reads]. unfold stream_read, _ready. rewrite Hop.
    unfold stream_settle. cbn [rs_first rs_start rs_end reaches].
    rewrite Z.eqb_refl. reflexivity.
  - rewrite length_map, length_seqZ. lia.
  - rewrite Forall_forall. intros c Hc. apply list_elem_of_In, in_map_iff in Hc.
    destruct Hc as (i & <- & Hi). apply list_elem_of_In, elem_of_seqZ in Hi.
    destruct (Hhas i ltac:(lia)) as [Hbit Hdata].
    unfold get. unfold has in Hbit. rewrite Hbit. cbn [negb].
    destruct (storage.getData (Feed._storage s) i); [exact I|discriminate].
Qed.

Lemma read_stream_whole_witness :
  fst (fst (stream_reads utf8 example.kp 3 (mkReadOpts None None false false None)
                         (createReadStream (mkReadOpts None None false false None))
                         example.writer 0))
  = [Read 0 (Done (Ok (Value "hello"%string)));
     Read 1 (Done (Ok (Value "world"%string))); EndOfStream].
Proof.
  assert (Hhas : forall i, 0 <= i < 2 ->
                   has example.writer i = true
                   /\ is_some (storage.getData (Feed._storage example.writer) i) = true).
  { intros i Hi. assert (i = 0 \/ i = 1) as [-> | ->] by lia;
      split; vm_compute; reflexivity. }
  pose proof (@read_stream_whole ideal.crypto tree_index.reference string utf8
                example.kp (mkReadOpts None None false false None) example.writer 0
                eq_refl eq_refl eq_refl eq_refl ltac:(vm_compute; discriminate) Hhas)
    as Hr.
  change (S (Z.to_nat (Feed.length example.writer
                       - or_default (ro_start (mkReadOpts None None false false None)) 0)))
    with 3%nat in Hr.
  rewrite Hr. vm_compute. reflexivity.
Defined.

(** X13 (a stream that starts past its end).  The end of a stream is
    tested by equality with the next index: a stream given an [end] other
    than -1 and a [start] beyond it never reaches its end, however often it
    is read. *)
Theorem read_stream_past_end :
  forall `{Crypto} `{TreeIndex} (value : Type) (codec : Codec value)
         (keyPair : digest * secret) (opts : ReadOpts) (e : Z) (s : Feed.t)
         (cb : nat) (n : nat),
    ro_tail opts = false -> ro_end opts = Some e -> e <> -1 ->
    e < or_default (ro_start opts) 0 ->
    ~ In EndOfStream
         (fst (fst (stream_reads codec keyPair n opts (createReadStream opts) s cb))).
Proof.
  intros C T value codec keyPair opts e s cb n Htail Hend He Hstart.
  apply (stream_reads_no_end codec keyPair opts e cb n Htail He).
  - unfold createReadStream. cbn [rs_end]. rewrite Hend. reflexivity.
  - exact Hstart.
Qed.

Lemma read_stream_past_end_witness :
  ~ In EndOfStream
       (fst (fst (stream_reads utf8 example.kp 5
                    (mkReadOpts (Some 1) (Some 0) false false None)
                    (createReadStream (mkReadOpts (Some 1) (Some 0) false false None))
                    example.writer 0))).
Proof.
  apply (@read_stream_past_end ideal.crypto tree_index.reference string utf8
           example.kp (mkReadOpts (Some 1) (Some 0) false false None) 0
           example.writer 0 5 eq_refl eq_refl);
    [discriminate|vm_compute; reflexivity].
Defined.

(** ** Proofs handed out *)



(** ** What a put leaves alone *)

Section put_frame.
Context `{Crypto} `{TreeIndex}.
Context {value : Type} (codec : Codec value).
Context (keyPair : digest * secret).

Lemma putNodes_keys (ns : list (Node digest)) :
  forall st,
    storage.key (putNodes ns st) = storage.key st
    /\ storage.secretKey (putNodes ns st) = storage.secretKey st.
Proof.
  induction ns as [|x ns IH]; intros st; [split; reflexivity|].
  cbn [putNodes fold_left]. fold (putNodes ns (storage.putNode st (storage_node.index x) x)).
  destruct (IH (storage.putNode st (storage_node.index x) x)) as [-> ->].
  split; reflexivity.
Qed.

Lemma _write_keeps (s s' : Feed.t) index data ns sig r :
  _write s index data ns sig = Some (r, s') ->
  Feed.key s' = Feed.key s /\ Feed.secretKey s' = Feed.secretKey s
  /\ Feed.writable s' = Feed.writable s /\ Feed._merkle s' = Feed._merkle s
  /\ Feed.live s' = Feed.live s
  /\ storage.key (Feed._storage s') = storage.key (Feed._storage s)
  /\ storage.secretKey (Feed._storage s') = storage.secretKey (Feed._storage s).
Proof.
  unfold _write. fold (putNodes ns (Feed._storage s)).
  destruct (putNodes_keys ns (Feed._storage s)) as [Hk Hsk].
  set (st := putNodes ns (Feed._storage s)) in *. clearbody st.
  assert (Hst : forall st',
             storage.key (match sig with
                          | Some (i, sg) => storage.putSignature st' i sg
                          | None => st'
                          end) = storage.key st'
             /\ storage.secretKey (match sig with
                                   | Some (i, sg) => storage.putSignature st' i sg
                                   | None => st'
                                   end) = storage.secretKey st')
    by (intros st'; destruct sig as [[i sg]|]; split; reflexivity).
  unfold storage.putData.
  destruct (storage.dataOffset st index ns) as [[off sz]|].
  - unfold _writeDone.
    destruct (_syncBitfield _) as [s1|] eqn:Hsync; [|discriminate].
    intros Hw. injection Hw as _ <-.
    apply _syncBitfield_spec in Hsync. apply but_waiting_fields in Hsync.
    destruct Hsync as (_ & _ & Hv & Hkey & Hsec & _ & _ & Hwr & _ & _ & Hm & Hsto).
    fproj_in Hv. fproj_in Hkey. fproj_in Hsec. fproj_in Hwr. fproj_in Hm. fproj_in Hsto.
    rewrite Hv, Hkey, Hsec, Hwr, Hm, Hsto. sproj.
    destruct (Hst (storage.write_data st off data)) as [-> ->]. sproj.
    repeat split; assumption.
  - intros Hw. injection Hw as _ <-. fproj.
    destruct (Hst st) as [-> ->]. repeat split; assumption.
Qed.

End put_frame.

(** X15 (what put never touches).  On an open feed a put, whatever it
    answers, leaves the key, the secret key, whether the feed is writable,
    and the generator of the writer as they were, and writes neither key to
    storage.  In particular the generator of a writable feed takes no
    notice of the blocks the feed takes by put. *)
Theorem put_keeps_keys :
  forall `{Crypto} `{TreeIndex} (value : Type) (codec : Codec value)
         (keyPair : digest * secret) (s s' : Feed.t) (index : Z) (v : value)
         (p : MerkleProof) (r : Result unit),
    Feed.opened s = true ->
    put codec keyPair s index v p = Some (r, s') ->
    Feed.key s' = Feed.key s /\ Feed.secretKey s' = Feed.secretKey s
    /\ Feed.writable s' = Feed.writable s /\ Feed._merkle s' = Feed._merkle s
    /\ storage.key (Feed._storage s') = storage.key (Feed._storage s)
    /\ storage.secretKey (Feed._storage s') = storage.secretKey (Feed._storage s).
Proof.
  intros C T value codec keyPair s s' index v p r Hop.
  unfold put, _ready. rewrite Hop. unfold _putBuffer.
  destruct (putBuffer_load s index (nodes p)) as [[e|[missingNodes trusted]]|];
    [intros Hs; injection Hs as _ <-; repeat split| |discriminate].
  unfold _verifyAndWrite.
  destruct (verify_climb _ _ _ _ _) as [[visited|top remote visited]|]; [| |discriminate].
  - intros Hw. apply _write_keeps in Hw.
    destruct Hw as (Hk & Hsk & Hwr & Hm & _ & Hstk & Hstsk). repeat split; assumption.
  - unfold _verifyRootsAndWrite.
    destruct (not_read _); [intros Hs; injection Hs as _ <-; repeat split|].
    destruct (not_sent _); [intros Hs; injection Hs as _ <-; repeat split|].
    destruct (negb (Feed.length s =? 0) && Feed.live s && negb (is_some (proof_signature p)));
      [intros Hs; injection Hs as _ <-; repeat split|].
    match goal with
    | |- context [match ?c with Err _ => _ | Ok _ => _ end] => destruct c as [e|signed]
    end; [intros Hs; injection Hs as _ <-; repeat split|].
    intros Hw. apply _write_keeps in Hw.
    destruct Hw as (Hk & Hsk & Hwr & Hm & _ & Hstk & Hstsk).
    destruct (Feed.length _ <? _); fproj_in Hk; fproj_in Hsk; fproj_in Hwr; fproj_in Hm;
      fproj_in Hstk; fproj_in Hstsk; repeat split; assumption.
Qed.

Lemma put_keeps_keys_witness :
  Feed.key example.reader = Feed.key example.fresh_reader
  /\ Feed.writable example.reader = Feed.writable example.fresh_reader.
Proof.
  assert (Hput : put utf8 example.kp example.fresh_reader 0 "hello"%string
                     (example.proof_of 0) = Some (Ok tt, example.reader))
    by (vm_compute; reflexivity).
  destruct (@put_keeps_keys ideal.crypto tree_index.reference string utf8 example.kp
              example.fresh_reader example.reader 0 "hello"%string (example.proof_of 0)
              (Ok tt) eq_refl Hput) as (Hk & _ & Hw & _).
  split; [exact Hk|exact Hw].
Defined.

Section put_polls.
Context `{Crypto} `{TreeIndex}.
Context {value : Type} (codec : Codec value).
Context (keyPair : digest * secret).



End put_polls.



Section reopen.
Context `{Crypto} `{TreeIndex}.
Context (keyPair : digest * secret).
Import storage_node roots_facts.

(** Opening a feed object that is still empty on a store that holds a key:
    the stored bit field, keys and roots are what the feed comes out
    with. *)
Lemma open_stored_key (f : Feed.t) (k : digest) :
  Feed.length f = 0 ->
  Feed._overwrite f = false ->
  Feed.secretKey f = None ->
  (Feed.key f = None \/ Feed.key f = Some k) ->
  storage.key (Feed._storage f) = Some k ->
  forall roots,
    0 <= open_length (storage.tree_bits (storage.bitfield (Feed._storage f))) ->
    getNodes (Feed._storage f)
      (flat.fullRoots
         (2 * open_length (storage.tree_bits (storage.bitfield (Feed._storage f)))))
    = Some roots ->
    let st := Feed._storage f in
    let len := open_length (storage.tree_bits (storage.bitfield st)) in
    let r := _open keyPair f in
    fst r = Ok tt
    /\ Feed.opened (snd r) = true
    /\ Feed.length (snd r) = len
    /\ Feed.byteLength (snd r) = sizes roots
    /\ Feed.key (snd r) = Some k
    /\ Feed.secretKey (snd r) = storage.secretKey st
    /\ Feed.bitfield (snd r) = storage.data_bits (storage.bitfield st)
    /\ Feed.tree (snd r) = storage.tree_bits (storage.bitfield st)
    /\ Feed._merkle (snd r) = Some (merkle.create roots)
    /\ Feed.writable (snd r) = is_some (storage.secretKey st)
    /\ (len <> 0 -> Feed.live (snd r) = is_some (storage.getSignature st (len - 1))).
Proof.
  intros Hl Hov Hsk Hkey Hstk roots Hlen Hroots st len r. subst r.
  assert (Hovw : open_overwrite f = false).
  { unfold open_overwrite. rewrite Hov, Hstk. reflexivity. }
  unfold _open, open_state_key, open_state_secretKey, open_bitfield.
  rewrite Hovw.
  set (s1 := open_load f).
  assert (Hs1 : Feed.length s1 = len /\ Feed.key s1 = Feed.key f
                /\ Feed.secretKey s1 = None /\ Feed._overwrite s1 = false
                /\ Feed._storage s1 = st
                /\ Feed.bitfield s1 = storage.data_bits (storage.bitfield st)
                /\ Feed.tree s1 = storage.tree_bits (storage.bitfield st)).
  { subst s1. unfold open_load, open_bitfield. rewrite Hovw. fold st. fold len.
    destruct (Z.ltb_spec 0 len); fproj; repeat split; try reflexivity; try assumption.
    subst len st. lia. }
  destruct Hs1 as (Hl1 & Hk1 & Hsk1 & Ho1 & Hst1 & Hb1 & Ht1).
  clearbody s1. fold st.
  assert (Hstk' : storage.key st = Some k) by exact Hstk.
  unfold open_keys. rewrite Hstk', Hk1.
  assert (Hmm : match Feed.key f with
                | Some k2 => negb (bool_decide (k = k2))
                | None => false
                end = false).
  { destruct Hkey as [->| ->]; [reflexivity|].
    rewrite bool_decide_eq_true_2 by reflexivity. reflexivity. }
  rewrite Hmm.
  set (s2 := match storage.secretKey st with
             | Some k0 => Feed.with_secretKey (Some k0) (Feed.with_key (Some k) s1)
             | None => Feed.with_key (Some k) s1
             end).
  assert (Hs2 : Feed.length s2 = len /\ Feed.key s2 = Some k
                /\ Feed.secretKey s2 = storage.secretKey st /\ Feed._overwrite s2 = false
                /\ Feed._storage s2 = st
                /\ Feed.bitfield s2 = storage.data_bits (storage.bitfield st)
                /\ Feed.tree s2 = storage.tree_bits (storage.bitfield st)).
  { subst s2. destruct (storage.secretKey st); fproj; repeat split; assumption || reflexivity. }
  destruct Hs2 as (Hl2 & Hk2 & Hsk2 & Ho2 & Hst2 & Hb2 & Ht2).
  clearbody s2. rewrite Hl2, Hst2.
  set (sig := if len =? 0 then None else storage.getSignature st (len - 1)).
  unfold open_onsignature. rewrite Hl2.
  set (s3 := if len =? 0 then s2 else Feed.with_live (is_some sig) s2).
  assert (Hs3 : Feed.length s3 = len /\ Feed.key s3 = Some k
                /\ Feed.secretKey s3 = storage.secretKey st /\ Feed._overwrite s3 = false
                /\ Feed._storage s3 = st
                /\ Feed.bitfield s3 = storage.data_bits (storage.bitfield st)
                /\ Feed.tree s3 = storage.tree_bits (storage.bitfield st)
                /\ (len <> 0 -> Feed.live s3 = is_some (storage.getSignature st (len - 1)))).
  { subst s3 sig. destruct (Z.eqb_spec len 0); fproj; repeat split;
      try assumption; try reflexivity; intros; congruence. }
  destruct Hs3 as (Hl3 & Hk3 & Hsk3 & Ho3 & Hst3 & Hb3 & Ht3 & Hlive3).
  clearbody s3. rewrite Hk3. cbn [is_some negb andb]. fproj. rewrite Hsk3, Hk3.
  cbn [is_some negb]. rewrite orb_false_r.
  unfold open_write. fproj. rewrite Hk3, Hsk3, Ho3, Hst3.
  set (st' := match storage.secretKey st with
              | Some k0 => storage.write_secretKey (storage.write_key st k) k0
              | None => storage.write_key st k
              end).
  assert (Htree : storage.tree st' = storage.tree st)
    by (subst st'; destruct (storage.secretKey st); reflexivity).
  unfold open_onroots, _roots. fproj. rewrite Hl3.
  rewrite (getNodes_tree st st' _ Htree).
  change (getNodes st (flat.fullRoots (2 * len)) = Some roots) in Hroots. rewrite Hroots.
  cbn [fst snd]. fproj. rewrite Hl3, Hk3, Hsk3, Hb3, Ht3, addSize_sizes.
  repeat split; try reflexivity. exact Hlive3.
Qed.

End reopen.

(** X17 (a feed comes back from its store).  Take a feed with a key whose
    generator is in step and whose bit field and keys are the stored ones,
    and whose tree bit field ends at the last block.  A new feed object
    made on the same store, with the same key or with none, and without
    [overwrite], opens to the same feed: the same length, byteLength, key,
    secret key, bit field, tree and generator.  It is writable exactly when
    a secret key is stored, and when the feed is not empty it is live
    exactly when the last block has a stored signature; the [live] option
    is not looked at. *)
Theorem reopen_restores :
  forall `{Crypto} `{TreeIndex} (keyPair : digest * secret) (s : Feed.t)
         (k : digest) (key : option digest) (opts : Options),
    in_sync s -> sized s ->
    Feed.key s = Some k ->
    storage.key (Feed._storage s) = Some k ->
    storage.secretKey (Feed._storage s) = Feed.secretKey s ->
    storage.bitfield (Feed._storage s)
    = storage.mkBitfield (Feed.bitfield s) (Feed.tree s) ->
    open_length (Feed.tree s) = Feed.length s ->
    (key = None \/ key = Some k) ->
    truthy (opt_overwrite opts) = false ->
    let r := _open keyPair (create (Feed._storage s) key opts) in
    fst r = Ok tt
    /\ Feed.opened (snd r) = true
    /\ Feed.length (snd r) = Feed.length s
    /\ Feed.byteLength (snd r) = Feed.byteLength s
    /\ Feed.key (snd r) = Some k
    /\ Feed.secretKey (snd r) = Feed.secretKey s
    /\ Feed.bitfield (snd r) = Feed.bitfield s
    /\ Feed.tree (snd r) = Feed.tree s
    /\ Feed._merkle (snd r) = Feed._merkle s
    /\ Feed.writable (snd r) = is_some (Feed.secretKey s)
    /\ (Feed.length s <> 0 ->
        Feed.live (snd r)
        = is_some (storage.getSignature (Feed._storage s) (Feed.length s - 1))).
Proof.
  intros C T keyPair s k key opts Hsync Hsized Hk Hstk Hstsk Hbits Hlen Hkey Hov.
  unfold in_sync in Hsync. unfold sized in Hsized.
  destruct (Feed._merkle s) as [g|] eqn:Hg; [|contradiction].
  destruct Hsync as ((Hb0 & Hidx) & Hblocks & Hstored).
  destruct Hsized as (_ & Hsizes).
  rewrite create_eq, Hov.
  set (f := Feed.mk _ _ _ _ _ _ _ _ _ _ _ _ _ _ _ _ _ _ _).
  assert (Hf : Feed.length f = 0 /\ Feed._overwrite f = false
               /\ Feed.secretKey f = None /\ Feed.key f = key
               /\ Feed._storage f = Feed._storage s)
    by (repeat split; reflexivity).
  destruct Hf as (Hfl & Hfo & Hfsk & Hfk & Hfst).
  clearbody f.
  assert (Hroots : getNodes (Feed._storage s) (flat.fullRoots (2 * Feed.length s))
                   = Some (merkle.roots g)).
  { rewrite roots_facts.fullRoots_rootsOf, <- Hblocks, <- Hidx.
    apply getNodes_stored. exact Hstored. }
  assert (Hcreate : merkle.create (merkle.roots g) = g).
  { pose proof (create_blocks (merkle.roots g) (merkle.blocks g) Hb0 Hidx) as Hcb.
    destruct g as [rs b]. unfold merkle.create in *. cbn [merkle.roots merkle.blocks] in *.
    rewrite Hcb. reflexivity. }
  assert (Hol : open_length (storage.tree_bits (storage.bitfield (Feed._storage f)))
                = Feed.length s) by (rewrite Hfst, Hbits; exact Hlen).
  assert (Hkf : Feed.key f = None \/ Feed.key f = Some k) by (rewrite Hfk; exact Hkey).
  assert (Hsf : storage.key (Feed._storage f) = Some k) by (rewrite Hfst; exact Hstk).
  assert (Hrf : getNodes (Feed._storage f)
                  (flat.fullRoots
                     (2 * open_length
                            (storage.tree_bits (storage.bitfield (Feed._storage f)))))
                = Some (merkle.roots g)) by (rewrite Hol, Hfst; exact Hroots).
  pose proof (open_stored_key keyPair f k Hfl Hfo Hfsk Hkf Hsf (merkle.roots g)
                ltac:(rewrite Hol, <- Hblocks; exact Hb0) Hrf) as Hopen.
  cbv zeta in Hopen. rewrite Hol, Hfst, Hbits, Hcreate, Hsizes, Hstsk in Hopen.
  exact Hopen.
Qed.

Lemma writer_in_sync : in_sync example.writer.
Proof.
  vm_compute. repeat split; try discriminate; repeat constructor.
Qed.

Lemma writer_sized : sized example.writer.
Proof. vm_compute. split; [discriminate|reflexivity]. Qed.

Lemma reopen_restores_witness :
  let r := _open example.kp (create (Feed._storage example.writer) None noOptions) in
  fst r = Ok tt /\ Feed.length (snd r) = 2 /\ Feed.byteLength (snd r) = 10
  /\ Feed.writable (snd r) = true /\ Feed.live (snd r) = true.
Proof.
  destruct (@reopen_restores ideal.crypto tree_index.reference example.kp example.writer
              (ideal.Public 7) None noOptions writer_in_sync writer_sized
              ltac:(vm_compute; reflexivity) ltac:(vm_compute; reflexivity)
              ltac:(vm_compute; reflexivity) ltac:(vm_compute; reflexivity)
              ltac:(vm_compute; reflexivity) (or_introl eq_refl)
              ltac:(vm_compute; reflexivity))
    as (Hok & _ & Hl & Hb & _ & _ & _ & _ & _ & Hw & Hlive).
  split; [exact Hok|]. split; [exact Hl|]. split; [exact Hb|].
  split; [exact Hw|]. apply Hlive. vm_compute. discriminate.
Defined.

Section bits_blank.

Lemma bits_get_fill0 (b : bits.t) (i : Z) : bits.get (bits.fill0 b) i = false.
Proof.
  unfold bits.get, bits.fill0. destruct (i <? 0); [reflexivity|].
  generalize (Z.to_nat i). induction b as [|x b IH]; intros [|n]; cbn; auto.
Qed.

End bits_blank.

(** X18 (a store without a key is reset).  When the store holds no key
    but its bit field is not empty, opening resets it although [overwrite]
    was not asked for: the stored secret key is not loaded, the feed comes
    out open and empty (length 0, byteLength 0, no block present), and the
    zeroed bit field is written back to the store.  This is what happens
    to the blocks of a feed that is not live and was never finalized. *)
Theorem open_keyless_store_resets :
  forall `{Crypto} `{TreeIndex} (keyPair : digest * secret) (st : storage.t)
         (key : option digest) (opts : Options),
    storage.key st = None ->
    bits.length (storage.data_bits (storage.bitfield st))
    + bits.length (storage.tree_bits (storage.bitfield st)) <> 0 ->
    opt_createIfMissing opts <> Some false ->
    let r := _open keyPair (create st key opts) in
    fst r = Ok tt
    /\ Feed.opened (snd r) = true
    /\ Feed.length (snd r) = 0 /\ Feed.byteLength (snd r) = 0
    /\ (forall i, bits.get (Feed.bitfield (snd r)) i = false)
    /\ (Feed.secretKey (snd r) = None
        \/ Feed.secretKey (snd r) = Some (snd keyPair))
    /\ storage.bitfield (Feed._storage (snd r))
       = storage.mkBitfield (bits.fill0 (storage.data_bits (storage.bitfield st)))
                            (bits.fill0 (storage.tree_bits (storage.bitfield st))).
Proof.
  intros C T keyPair st key opts Hk Hbits Hc r. subst r. rewrite create_eq.
  set (s := Feed.mk _ _ _ _ _ _ _ _ _ _ _ _ _ _ _ _ _ _ _).
  assert (Hsts : Feed._storage s = st) by reflexivity.
  assert (Hovw : open_overwrite s = true).
  { unfold open_overwrite. rewrite Hsts, Hk. cbn [is_some negb andb].
    apply Z.eqb_neq in Hbits. rewrite Hbits. cbn [negb]. apply orb_true_r. }
  unfold _open, open_load, open_state_key, open_state_secretKey, open_bitfield.
  rewrite Hovw, Hsts. cbn [storage.tree_bits storage.data_bits].
  rewrite open_length_fill0. cbn [Z.ltb Z.compare].
  unfold open_keys.
  set (s1 := Feed.with_tree _ (Feed.with_bitfield _ (Feed.with_overwrite true s))).
  assert (Hs1 : Feed.length s1 = 0 /\ Feed.key s1 = key /\ Feed.secretKey s1 = None
                /\ Feed._overwrite s1 = true /\ Feed._storage s1 = st
                /\ Feed.bitfield s1
                   = bits.fill0 (storage.data_bits (storage.bitfield st))
                /\ Feed._createIfMissing s1 = true).
  { subst s1 s. fproj. rewrite (not_false_true _ Hc). repeat split; reflexivity. }
  destruct Hs1 as (Hl1 & Hk1 & Hsk1 & Ho1 & Hst1 & Hb1 & Hc1).
  clearbody s1. clearbody s.
  rewrite Hl1. cbn [Z.eqb].
  unfold open_onsignature. rewrite Hl1. cbn [Z.eqb]. rewrite Hc1, Hk1.
  cbn [negb]. rewrite andb_false_r.
  destruct (negb (is_some key) && Feed.live s1) eqn:Hgen.
  - fproj. cbn [is_some negb orb].
    rewrite open_onroots_empty by (rewrite open_write_length; fproj; exact Hl1).
    cbn [fst snd]. unfold open_write. fproj. rewrite Ho1, Hst1, Hb1, Hl1. sproj.
    repeat split; try reflexivity.
    + intros i. apply bits_get_fill0.
    + right. reflexivity.
  - fproj. rewrite Hsk1, Hk1. cbn [is_some orb].
    rewrite open_onroots_empty by (rewrite open_write_length; fproj; exact Hl1).
    cbn [fst snd]. unfold open_write. fproj. rewrite Hk1, Hsk1, Ho1, Hst1, Hb1, Hl1.
    repeat split; try reflexivity.
    + intros i. apply bits_get_fill0.
    + left. reflexivity.
Qed.

Lemma open_keyless_store_resets_witness :
  let w := match append utf8 example.kp example.plain_writer ["hello"]%string with
           | Some (_, s) => s
           | None => example.plain_writer
           end in
  Feed.length w = 1
  /\ let r := _open example.kp (create (Feed._storage w) None
                                  (mkOptions (Some false) None None None None)) in
     fst r = Ok tt /\ Feed.length (snd r) = 0
     /\ bits.get (Feed.bitfield (snd r)) 0 = false.
Proof.
  intros w. split; [vm_compute; reflexivity|].
  destruct (@open_keyless_store_resets ideal.crypto tree_index.reference example.kp
              (Feed._storage w) None (mkOptions (Some false) None None None None)
              ltac:(vm_compute; reflexivity) ltac:(vm_compute; discriminate)
              ltac:(discriminate))
    as (Hok & _ & Hl & _ & Hb & _).
  split; [exact Hok|]. split; [exact Hl|]. apply Hb.
Defined.

Section open_failure.
Context `{Crypto} `{TreeIndex}.
Context (keyPair : digest * secret).

Lemma open_load_keeps (s : Feed.t) :
  Feed.opened (open_load s) = Feed.opened s
  /\ Feed._merkle (open_load s) = Feed._merkle s
  /\ Feed._storage (open_load s) = Feed._storage s
  /\ Feed.key (open_load s) = Feed.key s
  /\ Feed._createIfMissing (open_load s) = Feed._createIfMissing s.
Proof. unfold open_load. destruct (0 <? _); fproj; repeat split; reflexivity. Qed.

Lemma open_keys_keeps k sk (s s' : Feed.t) :
  open_keys k sk s = Ok s' ->
  Feed.opened s' = Feed.opened s /\ Feed._merkle s' = Feed._merkle s
  /\ Feed._storage s' = Feed._storage s
  /\ (Feed.key s' = None -> Feed.key s = None)
  /\ Feed._createIfMissing s' = Feed._createIfMissing s.
Proof.
  unfold open_keys.
  destruct (match k with Some k1 => _ | None => _ end); [discriminate|].
  intros Hk. injection Hk as <-. destruct sk, k; fproj; repeat split; auto; discriminate.
Qed.

Lemma open_keys_mismatch k sk (s : Feed.t) e :
  open_keys k sk s = Err e ->
  e = AnotherStored
  /\ exists k1 k2, k = Some k1 /\ Feed.key s = Some k2 /\ k1 <> k2.
Proof.
  unfold open_keys. destruct k as [k1|]; [|discriminate].
  destruct (Feed.key s) as [k2|]; [|destruct sk; discriminate].
  destruct (bool_decide (k1 = k2)) eqn:Hd; cbn [negb]; [destruct sk; discriminate|].
  intros He. injection He as <-. split; [reflexivity|].
  exists k1, k2. apply bool_decide_eq_false in Hd. auto.
Qed.

Lemma open_onsignature_keeps sig (s : Feed.t) :
  Feed.opened (snd (open_onsignature keyPair sig s)) = Feed.opened s
  /\ Feed._merkle (snd (open_onsignature keyPair sig s)) = Feed._merkle s
  /\ Feed._storage (snd (open_onsignature keyPair sig s)) = Feed._storage s
  /\ (forall e, fst (open_onsignature keyPair sig s) = Some e ->
       e = NoneStored /\ Feed.key s = None /\ Feed._createIfMissing s = false).
Proof.
  unfold open_onsignature.
  set (s0 := if Feed.length s =? 0 then s else Feed.with_live (is_some sig) s).
  assert (Hs0 : Feed.opened s0 = Feed.opened s /\ Feed._merkle s0 = Feed._merkle s
                /\ Feed._storage s0 = Feed._storage s /\ Feed.key s0 = Feed.key s
                /\ Feed._createIfMissing s0 = Feed._createIfMissing s)
    by (subst s0; destruct (Feed.length s =? 0); repeat split; reflexivity).
  destruct Hs0 as (Ho & Hm & Hst & Hk & Hc). clearbody s0.
  rewrite <- Ho, <- Hm, <- Hst, <- Hk, <- Hc.
  destruct (Feed.key s0) as [k|] eqn:Hk0; cbn [is_some negb andb].
  - cbn [fst snd]. fproj. repeat split; try reflexivity; discriminate.
  - destruct (Feed._createIfMissing s0); cbn [negb fst snd].
    + destruct (Feed.live s0); fproj; repeat split; try reflexivity; discriminate.
    + repeat split; try reflexivity; congruence.
Qed.

End open_failure.

(** X19 (an open that fails).  [_open] fails in three ways only.  With
    'Another hypercore is stored here' the store holds a key other than
    the one the feed was made with; with 'No hypercore is stored here' the
    feed has no key; in both cases the store is left as it was.  Otherwise
    a root of the tree could not be read.  In every case the feed is not
    marked open and gets no generator, so the next operation opens it
    again. *)
Theorem open_failure :
  forall `{Crypto} `{TreeIndex} (keyPair : digest * secret) (s s' : Feed.t) (e : Error),
    _open keyPair s = (Err e, s') ->
    Feed.opened s' = Feed.opened s
    /\ Feed._merkle s' = Feed._merkle s
    /\ ((e = AnotherStored
         /\ Feed._storage s' = Feed._storage s
         /\ exists k1 k2, storage.key (Feed._storage s) = Some k1
                          /\ Feed.key s = Some k2 /\ k1 <> k2)
        \/ (e = NoneStored
            /\ Feed._storage s' = Feed._storage s
            /\ Feed.key s = None /\ Feed._createIfMissing s = false)
        \/ (e = StorageNotFound
            /\ _roots s' (Feed.length s') = Err StorageNotFound)).
Proof.
  intros C T keyPair s s' e. unfold _open.
  destruct (open_load_keeps s) as (Ho1 & Hm1 & Hs1 & Hk1 & Hc1).
  destruct (open_keys _ _ (open_load s)) as [e1|s2] eqn:Hkeys.
  - intros Hr. injection Hr as <- <-.
    apply open_keys_mismatch in Hkeys. destruct Hkeys as (-> & k1 & k2 & Hsk & Hfk & Hne).
    split; [exact Ho1|]. split; [exact Hm1|]. left.
    split; [reflexivity|]. split; [exact Hs1|].
    exists k1, k2. rewrite <- Hk1. split; [|auto].
    unfold open_state_key in Hsk. destruct (open_overwrite s); [discriminate|exact Hsk].
  - apply open_keys_keeps in Hkeys. destruct Hkeys as (Ho2 & Hm2 & Hs2 & Hk2 & Hc2).
    match goal with
    | |- context [open_onsignature keyPair ?sg s2] =>
        pose proof (open_onsignature_keeps keyPair sg s2) as Hsig;
        destruct (open_onsignature keyPair sg s2) as [[e3|] s3]
    end; cbn [fst snd] in Hsig; destruct Hsig as (Ho3 & Hm3 & Hs3 & He3).
    + intros Hr. injection Hr as <- <-.
      destruct (He3 e3 eq_refl) as (-> & Hnone & Hcr).
      split; [congruence|]. split; [congruence|]. right. left.
      split; [reflexivity|]. split; [congruence|]. split.
      * rewrite <- Hk1. apply Hk2. exact Hnone.
      * congruence.
    + unfold open_onroots.
      destruct (_roots (open_write _ s3) _) as [e4|roots] eqn:Hroots; [|discriminate].
      intros Hr. injection Hr as <- <-.
      unfold open_write. fproj. split; [congruence|]. split; [congruence|].
      right. right.
      assert (e4 = StorageNotFound) as ->.
      { unfold _roots in Hroots. destruct (getNodes _ _); [discriminate|].
        injection Hroots as <-. reflexivity. }
      split; [reflexivity|]. exact Hroots.
Qed.

Lemma open_failure_witness :
  let f := create (Feed._storage example.writer) (Some (ideal.Public 9)) noOptions in
  fst (_open example.kp f) = Err AnotherStored
  /\ Feed.opened (snd (_open example.kp f)) = false
  /\ Feed._merkle (snd (_open example.kp f)) = None.
Proof.
  intros f.
  destruct (@open_failure ideal.crypto tree_index.reference example.kp f
              (snd (_open example.kp f)) AnotherStored
              ltac:(vm_compute; reflexivity)) as (Ho & Hm & _).
  split; [vm_compute; reflexivity|]. split; [exact Ho|exact Hm].
Defined.

Section timeouts.
Context {A : Type}.

(** Once the timer has run out, or has been cleared, it does nothing. *)
Lemma timeout_failed (events : list (timeout.Event A)) :
  timeout.run (timeout.mk true false) events = [].
Proof.
  induction events as [|[|a] rest IH]; [reflexivity| |]; cbn; exact IH.
Qed.

Lemma timeout_cleared (events : list (timeout.Event A)) :
  timeout.run (timeout.mk false false) events
  = map (@timeout.Passed A) (timeout.answers events).
Proof.
  induction events as [|[|a] rest IH]; [reflexivity| |]; cbn.
  - exact IH.
  - rewrite IH. reflexivity.
Qed.

End timeouts.

(** X20 (a callback with a time-out).  When the timer runs out before the
    function returned by [timeoutCallback] is called, the callback is
    called once, with [ETIMEDOUT], and never again: an answer that comes
    late is dropped.  When the function is called first, the timer is
    cleared: every answer is handed to the callback, as often as the
    function is called, and the time-out never reaches it. *)
Theorem timeoutCallback_calls :
  forall (A : Type) (events : list (timeout.Event A)),
    timeout.run timeout.timeoutCallback events
    = match events with
      | timeout.Elapsed :: _ => [timeout.ETIMEDOUT]
      | _ => map (@timeout.Passed A) (timeout.answers events)
      end.
Proof.
  intros A [|[|a] rest]; [reflexivity| |]; cbn.
  - rewrite timeout_failed. reflexivity.
  - rewrite timeout_cleared. reflexivity.
Qed.

(** ** Spans of nodes and of full roots *)

Module span_facts.
Import flat flat_facts put_facts roots_facts.

(** A node lies inside its own span. *)
Lemma index_in_span (i : Z) : 0 <= i -> leftSpan i <= i <= rightSpan i.
Proof.
  intros Hi. pose proof (depth_nonneg i) as Hd. pose proof (offset_nonneg i Hi) as Ho.
  pose proof (index_depth_offset i Hi) as Hidx.
  pose proof (leftSpan_index (depth i) (offset i) Hd Ho) as Hl.
  pose proof (rightSpan_index (depth i) (offset i) Hd Ho) as Hr.
  rewrite Hidx in Hl, Hr. rewrite Hl, Hr.
  pose proof (index_succ (depth i) (offset i)) as Hs. rewrite Hidx in Hs.
  pose proof (pow2_pos (depth i) Hd) as Hp.
  rewrite (pow2_succ (depth i)) by assumption. nia.
Qed.

Lemma rightSpan_even (i : Z) : 0 <= i -> Z.even (rightSpan i) = true.
Proof.
  intros Hi. pose proof (depth_nonneg i) as Hd. pose proof (offset_nonneg i Hi) as Ho.
  rewrite <- (index_depth_offset i Hi), rightSpan_index by assumption.
  rewrite (pow2_succ (depth i)) by assumption.
  replace ((offset i + 1) * (2 * 2 ^ depth i) - 2)
    with (2 * ((offset i + 1) * 2 ^ depth i - 1)) by lia.
  rewrite Z.even_mul. reflexivity.
Qed.

Lemma rightSpan_nonneg (i : Z) : 0 <= i -> 0 <= rightSpan i.
Proof. intros Hi. pose proof (index_in_span i Hi). lia. Qed.

(** The span of a parent holds the spans of both children. *)
Lemma span_parent (i : Z) :
  0 <= i ->
  leftSpan (parent i) <= leftSpan i /\ rightSpan i <= rightSpan (parent i)
  /\ leftSpan (parent i) <= leftSpan (sibling i)
  /\ rightSpan (sibling i) <= rightSpan (parent i).
Proof.
  intros Hi. destruct (rightSpan_parent i Hi) as [Hr Hrs].
  split; [|split; [exact Hr|split; [|exact Hrs]]].
  - pose proof (depth_nonneg i) as Hd. pose proof (offset_nonneg i Hi) as Ho.
    rewrite <- (index_depth_offset i Hi).
    set (d := depth i) in *. set (o := offset i) in *.
    assert (Hk : 0 <= o / 2) by (apply Z.div_pos; lia).
    rewrite parent_index by assumption.
    rewrite !leftSpan_index by lia.
    pose proof (pow2_pos (d + 1) ltac:(lia)) as Hp.
    replace (d + 1 + 1) with ((d + 1) + 1) by lia. rewrite (pow2_succ (d + 1)) by lia.
    pose proof (Z.mul_div_le o 2 ltac:(lia)). nia.
  - pose proof (depth_nonneg i) as Hd. pose proof (offset_nonneg i Hi) as Ho.
    rewrite <- (index_depth_offset i Hi).
    set (d := depth i) in *. set (o := offset i) in *.
    assert (Hk : 0 <= o / 2) by (apply Z.div_pos; lia).
    rewrite parent_index, sibling_index by assumption.
    pose proof (pow2_pos (d + 1) ltac:(lia)) as Hp.
    destruct (Z.even o) eqn:Hev.
    + pose proof (even_half o Hev). rewrite !leftSpan_index by lia.
      replace (d + 1 + 1) with ((d + 1) + 1) by lia. rewrite (pow2_succ (d + 1)) by lia.
      nia.
    + pose proof (odd_half o Hev). rewrite !leftSpan_index by lia.
      replace (d + 1 + 1) with ((d + 1) + 1) by lia. rewrite (pow2_succ (d + 1)) by lia.
      nia.
Qed.

Lemma sibling_differs (i : Z) : 0 <= i -> sibling i <> i.
Proof.
  intros Hi. pose proof (sibling_order i Hi). destruct (Z.even (offset i)); lia.
Qed.

(** The full roots lie in order, left to right. *)
Lemma rootsOf_shape (n : Z) :
  0 <= n ->
  forall K m offset,
    0 <= K -> n < 2 ^ K -> 0 <= m -> offset = m * 2 ^ (K + 1) ->
    Forall (fun r => 0 <= r /\ depth r < K /\ offset <= leftSpan r
                     /\ rightSpan r <= offset + 2 * n - 2) (rootsOf n offset)
    /\ all_ordered (rootsOf n offset).
Proof.
  intros Hn0. pattern n. apply Z_lt_induction; [|exact Hn0].
  clear n Hn0. intros n IH K m offset HK HnK Hm Hoff.
  destruct (Z.leb_spec n 0) as [Hle|Hpos].
  { rewrite rootsOf_0 by assumption. split; constructor. }
  rewrite (rootsOf_eq n offset Hpos).
  destruct (Z.log2_spec n Hpos) as [Hlo Hhi].
  pose proof (Z.log2_nonneg n) as Hk0.
  set (k := Z.log2 n) in *.
  assert (HkK : k < K).
  { apply Z.log2_lt_pow2 in HnK; [subst k; lia|assumption]. }
  pose proof (pow2_pos k Hk0) as Hpk.
  assert (Hsplit : 2 ^ (K + 1) = 2 ^ (K - k) * 2 ^ (k + 1)).
  { rewrite <- Z.pow_add_r by lia. f_equal. lia. }
  pose proof (pow2_pos (K - k) ltac:(lia)) as HpKk.
  set (o := m * 2 ^ (K - k)).
  assert (Ho : 0 <= o) by (subst o; nia).
  assert (Hoff' : offset = o * 2 ^ (k + 1)) by (subst o; rewrite Hoff, Hsplit; lia).
  assert (Hhead : offset + 2 ^ k - 1 = index k o).
  { pose proof (index_succ k o). rewrite Hoff', (pow2_succ k) by assumption. lia. }
  rewrite Hhead.
  assert (Hrs : rightSpan (index k o) = offset + 2 * 2 ^ k - 2).
  { rewrite rightSpan_index by assumption. rewrite Hoff'. rewrite (pow2_succ k) by lia. lia. }
  assert (Hls : leftSpan (index k o) = offset).
  { rewrite leftSpan_index by assumption. rewrite Hoff'. reflexivity. }
  rewrite Z.pow_succ_r in Hhi by assumption.
  destruct (IH (n - 2 ^ k) ltac:(lia) k (o + 1) (offset + 2 * 2 ^ k) Hk0 ltac:(lia)
               ltac:(lia)) as [Hall Hsorted].
  { rewrite Hoff', (pow2_succ k) by assumption. lia. }
  split.
  - constructor.
    + split; [apply index_nonneg; assumption|].
      rewrite depth_index, Hls, Hrs by assumption. lia.
    + eapply Forall_impl; [exact Hall|]. cbv beta. intros r (H0 & Hd & Hl & Hr). lia.
  - split; [|exact Hsorted].
    eapply Forall_impl; [exact Hall|]. cbv beta. intros r (H0 & Hd & Hl & Hr).
    unfold ordered. rewrite depth_index, Hrs by assumption. lia.
Qed.

Lemma fullRoots_shape (v : Z) :
  Forall (fun r => 0 <= r) (fullRoots v) /\ all_ordered (fullRoots v).
Proof.
  change (fullRoots v) with (rootsOf (v / 2) 0).
  destruct (Z.leb_spec (v / 2) 0) as [Hle|Hpos].
  { rewrite rootsOf_0 by assumption. split; constructor. }
  destruct (rootsOf_shape (v / 2) ltac:(lia) (v / 2) 0 0 ltac:(lia)
              ltac:(apply Z.pow_gt_lin_r; lia) ltac:(lia) ltac:(lia)) as [Hall Hs].
  split; [|exact Hs].
  eapply Forall_impl; [exact Hall|]. cbv beta. intros r (H0 & _). exact H0.
Qed.

End span_facts.

(** ** A receiver that holds nothing *)

Section bare_climb.
Context `{Crypto}.
Import storage_node flat_facts.

(** The loop of [_verifyAndWrite] takes in the siblings sent and stops
    where the next node sent is not the sibling of the top. *)
Lemma verify_loop_climb (sibs : list (Node digest)) :
  forall fuel top rest visited,
    along top sibs = true ->
    shift_if rest (flat.sibling (index (climb top sibs))) = None ->
    (List.length sibs < fuel)%nat ->
    verify_loop fuel None top (sibs ++ rest) [] visited
    = Some (AtRoots (climb top sibs) rest (visited ++ trail top sibs)).
Proof.
  induction sibs as [|sib sibs IH]; intros fuel top rest visited Halong Hstop Hfuel;
    (destruct fuel as [|fuel]; [cbn in Hfuel; lia|]); cbn [verify_loop].
  - cbn [climb app trail] in *. rewrite Hstop. cbn [shift_if].
    rewrite app_nil_r. reflexivity.
  - cbn [along] in Halong. apply andb_prop in Halong. destruct Halong as [Hsib Halong].
    cbn [app shift_if]. rewrite Hsib. cbn [verifyNode].
    fold (join top sib).
    rewrite (IH fuel (join top sib) rest ((visited ++ [sib]) ++ [top]) Halong Hstop)
      by (cbn in Hfuel; lia).
    cbn [climb trail]. rewrite <- !app_assoc. reflexivity.
Qed.

Lemma climb_nonneg (sibs : list (Node digest)) :
  forall top, 0 <= index top -> 0 <= index (climb top sibs).
Proof.
  induction sibs as [|sib sibs IH]; intros top Htop; [exact Htop|].
  cbn [climb]. apply IH. cbn [join index]. apply parent_nonneg. exact Htop.
Qed.

(** Every node put aside on the way lies inside the span of the top
    reached, less deep in the tree, and no two of them share an index. *)
Lemma trail_inside (sibs : list (Node digest)) :
  forall top,
    0 <= index top ->
    along top sibs = true ->
    let final := index (climb top sibs) in
    Forall (fun x => 0 <= index x
                     /\ flat.depth (index top) <= flat.depth (index x)
                        < flat.depth final
                     /\ flat.leftSpan final <= index x <= flat.rightSpan final)
           (trail top sibs)
    /\ flat.depth (index top) <= flat.depth final
    /\ flat.leftSpan final <= flat.leftSpan (index top)
    /\ flat.rightSpan (index top) <= flat.rightSpan final
    /\ NoDup (map index (trail top sibs)).
Proof.
  induction sibs as [|sib sibs IH]; intros top Htop Halong final.
  - subst final. cbn [climb trail map]. split; [constructor|].
    split; [lia|]. split; [lia|]. split; [lia|apply NoDup_nil; exact I].
  - cbn [along] in Halong. apply andb_prop in Halong. destruct Halong as [Hsib Halong].
    apply Z.eqb_eq in Hsib.
    assert (Hp : 0 <= index (join top sib))
      by (cbn [join index]; apply parent_nonneg; exact Htop).
    destruct (IH (join top sib) Hp Halong) as (Hall & Hd & Hl & Hr & Hnd).
    subst final. cbn [climb trail map]. cbn [join index] in Hd, Hl, Hr.
    set (final := index (climb (join top sib) sibs)) in *.
    pose proof (depth_parent (index top) Htop) as Hdp.
    pose proof (depth_sibling (index top) Htop) as Hds.
    destruct (span_facts.span_parent (index top) Htop) as (Hpl & Hpr & Hsl & Hsr).
    pose proof (sibling_nonneg (index top) Htop) as Hsn.
    pose proof (span_facts.index_in_span (index top) Htop) as Hin.
    pose proof (span_facts.index_in_span _ Hsn) as Hins.
    split; [|split; [lia|split; [lia|split; [lia|]]]].
    + constructor; [rewrite Hsib; repeat split; lia|].
      constructor; [repeat split; lia|].
      eapply Forall_impl; [exact Hall|]. cbv beta. cbn [join index].
      intros x (H0 & Hdx & Hx). repeat split; lia.
    + assert (Hdeeper : Forall (fun x => flat.depth (index top) < flat.depth (index x))
                               (trail (join top sib) sibs)).
      { eapply Forall_impl; [exact Hall|]. cbv beta. cbn [join index].
        intros x (_ & Hdx & _). lia. }
      apply NoDup_cons. split.
      * intros Hin'. apply list_elem_of_In in Hin'. cbn [In] in Hin'.
        destruct Hin' as [Heq|Hin'].
        -- rewrite Hsib in Heq.
           exact (span_facts.sibling_differs _ Htop (eq_sym Heq)).
        -- apply in_map_iff in Hin'. destruct Hin' as (x & Hx & Hinx).
           rewrite Forall_forall in Hdeeper.
           specialize (Hdeeper x ltac:(apply list_elem_of_In; exact Hinx)).
           rewrite Hx, Hsib, Hds in Hdeeper. lia.
      * apply NoDup_cons. split; [|exact Hnd].
        intros Hin'. apply list_elem_of_In, in_map_iff in Hin'.
        destruct Hin' as (x & Hx & Hinx).
        rewrite Forall_forall in Hdeeper.
        specialize (Hdeeper x ltac:(apply list_elem_of_In; exact Hinx)).
        rewrite Hx in Hdeeper. lia.
Qed.

End bare_climb.

Section bare_roots.
Context `{Crypto}.
Import storage_node flat_facts.

Lemma all_ordered_app (l1 l2 : list Z) (a : Z) :
  all_ordered (l1 ++ a :: l2) ->
  Forall (fun b => ordered b a) l1 /\ Forall (ordered a) l2
  /\ all_ordered (l1 ++ l2).
Proof.
  induction l1 as [|b l1 IH]; cbn [app all_ordered].
  - intros [Ha Hl2]. split; [constructor|]. split; assumption.
  - intros [Hb Hrest]. destruct (IH Hrest) as (H1 & H2 & H3).
    apply Forall_app in Hb. destruct Hb as [Hb1 Hb2].
    inversion Hb2 as [|? ? Hba Hb2']; subst.
    split; [constructor; assumption|]. split; [assumption|].
    split; [apply Forall_app; split; assumption|assumption].
Qed.

Lemma all_ordered_NoDup (l : list Z) : all_ordered l -> NoDup l.
Proof.
  induction l as [|a l IH]; cbn [all_ordered]; [intros _; apply NoDup_nil; exact I|].
  intros [Ha Hl]. apply NoDup_cons. split; [|apply IH; exact Hl].
  intros Hin. rewrite Forall_forall in Ha. destruct (Ha a Hin) as [_ Hd]. lia.
Qed.

(** The roots around a top: none shares its depth, none lies inside its
    span, and no two share an index. *)
Lemma roots_apart (v : Z) (before after : list (Node digest)) (top : Node digest) :
  map index (before ++ top :: after) = flat.fullRoots v ->
  0 <= index top
  /\ Forall (fun r => 0 <= index r
                      /\ flat.depth (index r) <> flat.depth (index top)
                      /\ ~ (flat.leftSpan (index top) <= index r
                            <= flat.rightSpan (index top)))
            (before ++ after)
  /\ NoDup (map index (before ++ after)).
Proof.
  intros Hroots. destruct (span_facts.fullRoots_shape v) as [Hpos Hord].
  rewrite <- Hroots in Hpos, Hord. rewrite map_app in Hpos, Hord. cbn [map] in Hpos, Hord.
  apply Forall_app in Hpos. destruct Hpos as [Hpb Hpa].
  inversion Hpa as [|? ? Htop Hpa']; subst.
  apply all_ordered_app in Hord. destruct Hord as (Hb & Ha & Hba).
  split; [exact Htop|]. split.
  - apply Forall_app. split.
    + rewrite Forall_forall. intros r Hr.
      assert (Hin : index r ∈ map index before)
        by (apply list_elem_of_In, in_map, list_elem_of_In; exact Hr).
      rewrite Forall_forall in Hpb, Hb.
      specialize (Hpb _ Hin). destruct (Hb _ Hin) as [Hspan Hdepth].
      pose proof (span_facts.index_in_span _ Hpb). repeat split; lia.
    + rewrite Forall_forall. intros r Hr.
      assert (Hin : index r ∈ map index after)
        by (apply list_elem_of_In, in_map, list_elem_of_In; exact Hr).
      rewrite Forall_forall in Hpa', Ha.
      specialize (Hpa' _ Hin). destruct (Ha _ Hin) as [Hspan Hdepth].
      pose proof (span_facts.index_in_span _ Hpa'). repeat split; lia.
  - rewrite map_app. apply all_ordered_NoDup. exact Hba.
Qed.

(** When every root but the top is sent, in order, the loop of
    [_verifyRootsAndWrite] takes them all. *)
Lemma collect_roots_sent (s : Feed.t) (top : Node digest) (before : list (Node digest)) :
  forall after ns,
    Forall (fun r => index r <> index top) (before ++ after) ->
    collect_roots s top (map index (before ++ top :: after)) (before ++ after) ns
    = mkRoots (before ++ top :: after) [] (ns ++ before ++ top :: after) false false.
Proof.
  induction before as [|b before IH]; intros after ns Hne.
  - cbn [app map collect_roots]. rewrite Z.eqb_refl.
    assert (Hafter : forall after ns,
               Forall (fun r => index r <> index top) after ->
               collect_roots s top (map index after) after ns
               = mkRoots after [] (ns ++ after) false false).
    { clear. induction after as [|a after IHa]; intros ns Hne.
      - cbn. rewrite app_nil_r. reflexivity.
      - inversion Hne as [|? ? Ha Hne']; subst. cbn [map collect_roots].
        apply Z.eqb_neq in Ha. rewrite Ha. cbn [shift_if]. rewrite Z.eqb_refl.
        rewrite (IHa _ Hne'). cbn. rewrite <- app_assoc. reflexivity. }
    rewrite (Hafter after (ns ++ [top]) Hne). cbn. rewrite <- app_assoc. reflexivity.
  - cbn [app] in Hne. inversion Hne as [|? ? Hb Hne']; subst.
    cbn [app map collect_roots]. apply Z.eqb_neq in Hb. rewrite Hb.
    cbn [shift_if]. rewrite Z.eqb_refl.
    rewrite (IH after (ns ++ [b]) Hne'). cbn. rewrite <- app_assoc. reflexivity.
Qed.

End bare_roots.

Section bare_store.
Context `{Crypto} `{TreeIndex}.
Import storage_node.

(** Nodes written under indices of their own are all stored. *)
Lemma putNodes_stored (ns : list (Node digest)) :
  forall st n,
    NoDup (map index ns) -> In n ns -> stored (putNodes ns st) n.
Proof.
  induction ns as [|x ns IH]; intros st n Hnd Hin; [destruct Hin|].
  cbn [map] in Hnd. apply NoDup_cons in Hnd. destruct Hnd as [Hx Hnd].
  destruct Hin as [->|Hin].
  - apply putNodes_head. rewrite Forall_forall. intros y Hy Heq.
    apply Hx. rewrite <- Heq. apply list_elem_of_In, in_map, list_elem_of_In. exact Hy.
  - cbn [putNodes fold_left]. apply (IH (storage.putNode st (index x) x)); assumption.
Qed.

Lemma findNode_unique (ns : list (Node digest)) (n : Node digest) :
  NoDup (map index ns) -> In n ns -> storage.findNode ns (index n) = Some n.
Proof.
  unfold storage.findNode.
  induction ns as [|x ns IH]; intros Hnd Hin; [destruct Hin|].
  cbn [map] in Hnd. apply NoDup_cons in Hnd. destruct Hnd as [Hx Hnd].
  cbn [find]. destruct Hin as [->|Hin].
  - rewrite Z.eqb_refl. reflexivity.
  - destruct (Z.eqb_spec (index x) (index n)) as [Heq|Hne]; [|apply IH; assumption].
    exfalso. apply Hx. rewrite Heq.
    apply list_elem_of_In, in_map. exact Hin.
Qed.

(** The sizes of nodes at hand add up the same whether they are looked up
    among the nodes or, once written, in the tree file. *)
Lemma sumSizes_written (ns : list (Node digest)) (st st' : storage.t) (l : list Z) :
  NoDup (map index ns) ->
  Forall (fun n => 0 <= size n) ns ->
  storage.tree st' = storage.tree (putNodes ns st) ->
  (forall j, In j l -> In j (map index ns)) ->
  exists total,
    0 <= total
    /\ storage.sumSizes (putNodes ns st) ns l = Some total
    /\ storage.sumSizes st' [] l = Some total.
Proof.
  intros Hnd Hsz Htree. induction l as [|j l IH]; intros Hl.
  - exists 0. split; [lia|]. split; reflexivity.
  - destruct IH as (total & Ht & Hc & Hs); [intros; apply Hl; right; assumption|].
    destruct (proj1 (in_map_iff index ns j) (Hl j (or_introl eq_refl)))
      as (n & Hn & Hin).
    exists (size n + total).
    rewrite Forall_forall in Hsz.
    pose proof (Hsz n ltac:(apply list_elem_of_In; exact Hin)) as Hn0.
    split; [lia|]. cbn [storage.sumSizes]. unfold storage.lookupNode.
    rewrite <- Hn, (findNode_unique ns n Hnd Hin). rewrite Hn, Hc.
    split; [reflexivity|].
    cbn [storage.findNode find]. rewrite Hs.
    pose proof (putNodes_stored ns st n Hnd Hin) as Hst.
    unfold stored, storage.getNode in Hst. unfold storage.getNode.
    rewrite Htree, <- Hn, Hst. reflexivity.
Qed.

(** What a write that finds the place of its block leaves behind. *)
Lemma _write_done (s : Feed.t) (index : Z) (data : list byte)
    (ns : list (Node digest)) (sig : option (Z * signature)) (st2 : storage.t) :
  storage.putData (putNodes ns (Feed._storage s)) index data ns = Some st2 ->
  exists s',
    _write s index data ns sig = Some (Ok tt, s')
    /\ Feed.length s' = Feed.length s /\ Feed.byteLength s' = Feed.byteLength s
    /\ Feed.live s' = Feed.live s
    /\ Feed.bitfield s' = bits.set (Feed.bitfield s) index true
    /\ storage.tree (Feed._storage s') = storage.tree st2
    /\ storage.data (Feed._storage s') = storage.data st2
    /\ storage.signatures (Feed._storage s')
       = match sig with
         | Some (i, sg) => <[i := sg]> (storage.signatures st2)
         | None => storage.signatures st2
         end.
Proof.
  intros Hput. unfold _write.
  change (fold_left (fun st n => storage.putNode st (storage_node.index n) n) ns
                    (Feed._storage s))
    with (putNodes ns (Feed._storage s)).
  rewrite Hput. unfold _writeDone.
  match goal with
  | |- context [_syncBitfield ?x] =>
      destruct (_syncBitfield_total x) as [s' Hsync]; rewrite Hsync
  end.
  exists s'. split; [reflexivity|].
  apply _syncBitfield_spec in Hsync. apply but_waiting_fields in Hsync.
  destruct Hsync as (Hl & Hb & Hlive & _ & _ & Hbf & _ & _ & _ & _ & _ & Hst).
  fproj_in Hl. fproj_in Hb. fproj_in Hlive. fproj_in Hbf. fproj_in Hst.
  rewrite Hl, Hb, Hlive, Hbf, Hst. sproj.
  repeat split; try reflexivity; destruct sig as [[i sg]|]; reflexivity.
Qed.

End bare_store.

Section bare_trail.
Context `{Crypto}.
Import storage_node.

Lemma trail_sibs (sibs : list (Node digest)) :
  forall top x, In x sibs -> In x (trail top sibs).
Proof.
  induction sibs as [|sib sibs IH]; intros top x Hin; [destruct Hin|].
  cbn [trail]. destruct Hin as [->|Hin]; [left; reflexivity|].
  right. right. apply IH. exact Hin.
Qed.

Lemma trail_start (sibs : list (Node digest)) (top : Node digest) :
  In top (trail top sibs ++ [climb top sibs]).
Proof.
  destruct sibs as [|sib sibs]; cbn [trail climb app]; [left; reflexivity|].
  right. left. reflexivity.
Qed.

Lemma trail_sizes (sibs : list (Node digest)) :
  forall top,
    0 <= size top -> Forall (fun n => 0 <= size n) sibs ->
    Forall (fun n => 0 <= size n) (trail top sibs) /\ 0 <= size (climb top sibs).
Proof.
  induction sibs as [|sib sibs IH]; intros top Htop Hsibs; cbn [trail climb].
  - split; [constructor|exact Htop].
  - inversion Hsibs as [|? ? Hsib Hrest]; subst.
    destruct (IH (join top sib) ltac:(cbn [join size]; lia) Hrest) as [Hall Hc].
    split; [|exact Hc]. constructor; [exact Hsib|]. constructor; [exact Htop|exact Hall].
Qed.

End bare_trail.

(** ** The roots before a block *)

Module before_facts.
Import flat flat_facts put_facts roots_facts span_facts.

(** The roots of [L + r] leaves, where [L] is a multiple of a power of two
    above [r], are those of the first [L] and those of the [r] after
    them. *)
Lemma rootsOf_split (L : Z) :
  0 <= L ->
  forall k o r offset,
    0 <= k -> 0 <= o -> L = o * 2 ^ k -> 0 <= r < 2 ^ k ->
    rootsOf (L + r) offset = rootsOf L offset ++ rootsOf r (offset + 2 * L).
Proof.
  intros HL0. pattern L. apply Z_lt_induction; [|exact HL0].
  clear L HL0. intros L IH k o r offset Hk Ho HL Hr.
  pose proof (pow2_pos k Hk) as Hpk.
  destruct (Z.eq_dec L 0) as [->|HLne].
  { rewrite (rootsOf_0 0) by lia. cbn [app]. f_equal; lia. }
  assert (Ho1 : 1 <= o).
  { destruct (Z.eq_dec o 0) as [->|]; [|lia]. lia. }
  assert (HLpos : 0 < L) by nia.
  destruct (Z.log2_spec L HLpos) as [Hlo Hhi].
  pose proof (Z.log2_nonneg L) as HK0.
  set (K := Z.log2 L) in *.
  rewrite Z.pow_succ_r in Hhi by assumption.
  assert (HkK : k <= K).
  { destruct (Z.le_gt_cases k K) as [|Hgt]; [assumption|exfalso].
    assert (2 ^ (K + 1) <= 2 ^ k) by (apply Z.pow_le_mono_r; lia).
    rewrite (pow2_succ K) in H by assumption. nia. }
  assert (HsplitK : 2 ^ K = 2 ^ (K - k) * 2 ^ k).
  { rewrite <- Z.pow_add_r by lia. f_equal. lia. }
  pose proof (pow2_pos (K - k) ltac:(lia)) as HpKk.
  set (e := 2 ^ (K - k)) in *.
  assert (Ho' : 0 <= o - e).
  { assert (Hle : e * 2 ^ k <= o * 2 ^ k) by lia.
    apply Z.mul_le_mono_pos_r in Hle; lia. }
  assert (Ho2 : o < 2 * e).
  { apply (Z.mul_lt_mono_pos_r (2 ^ k)); lia. }
  assert (Hbound : L + r < 2 * 2 ^ K) by nia.
  assert (Hlog : Z.log2 (L + r) = K).
  { apply Z.log2_unique; [assumption|]. rewrite Z.pow_succ_r by assumption. lia. }
  rewrite (rootsOf_eq (L + r) offset) by lia. rewrite Hlog.
  rewrite (rootsOf_eq L offset HLpos). fold K.
  cbn [app]. f_equal.
  replace (L + r - 2 ^ K) with ((L - 2 ^ K) + r) by lia.
  rewrite (IH (L - 2 ^ K) ltac:(lia) k (o - e) r (offset + 2 * 2 ^ K) Hk Ho' ltac:(nia) Hr).
  f_equal. f_equal. lia.
Qed.

(** The roots to the left of a root are the roots of the leaves to its
    left. *)
Lemma roots_prefix (n : Z) :
  0 <= n ->
  forall K m offset l1 t l2,
    0 <= K -> n < 2 ^ K -> 0 <= m -> offset = m * 2 ^ (K + 1) ->
    rootsOf n offset = l1 ++ t :: l2 ->
    l1 = rootsOf ((leftSpan t - offset) / 2) offset.
Proof.
  intros Hn0. pattern n. apply Z_lt_induction; [|exact Hn0].
  clear n Hn0. intros n IH K m offset l1 t l2 HK HnK Hm Hoff Heq.
  destruct (Z.leb_spec n 0) as [Hle|Hpos].
  { rewrite rootsOf_0 in Heq by assumption. destruct l1; discriminate. }
  rewrite (rootsOf_eq n offset Hpos) in Heq.
  destruct (Z.log2_spec n Hpos) as [Hlo Hhi].
  pose proof (Z.log2_nonneg n) as Hk0.
  set (k := Z.log2 n) in *.
  assert (HkK : k < K).
  { apply Z.log2_lt_pow2 in HnK; [subst k; lia|assumption]. }
  pose proof (pow2_pos k Hk0) as Hpk.
  assert (Hsplit : 2 ^ (K + 1) = 2 ^ (K - k) * 2 ^ (k + 1)).
  { rewrite <- Z.pow_add_r by lia. f_equal. lia. }
  pose proof (pow2_pos (K - k) ltac:(lia)) as HpKk.
  set (o := m * 2 ^ (K - k)).
  assert (Ho : 0 <= o) by (subst o; nia).
  assert (Hoff' : offset = o * 2 ^ (k + 1)) by (subst o; rewrite Hoff, Hsplit; lia).
  assert (Hhead : offset + 2 ^ k - 1 = index k o).
  { pose proof (index_succ k o). rewrite Hoff', (pow2_succ k) by assumption. lia. }
  rewrite Z.pow_succ_r in Hhi by assumption.
  destruct l1 as [|h l1].
  - cbn [app] in Heq. injection Heq as Ht _. rewrite <- Ht, Hhead.
    rewrite leftSpan_index by assumption. rewrite <- Hoff'.
    replace (offset - offset) with 0 by lia. change (0 / 2) with 0.
    rewrite rootsOf_0 by lia. reflexivity.
  - cbn [app] in Heq. injection Heq as Hh Htail.
    assert (Hoff2 : offset + 2 * 2 ^ k = (o + 1) * 2 ^ (k + 1))
      by (rewrite Hoff', (pow2_succ k) by assumption; lia).
    pose proof (IH (n - 2 ^ k) ltac:(lia) k (o + 1) (offset + 2 * 2 ^ k) l1 t l2
                   Hk0 ltac:(lia) ltac:(lia) Hoff2 Htail) as Hl1.
    destruct (rootsOf_shape (n - 2 ^ k) ltac:(lia) k (o + 1) (offset + 2 * 2 ^ k)
                Hk0 ltac:(lia) ltac:(lia) Hoff2) as [Hall _].
    rewrite Htail in Hall. apply Forall_app in Hall. destruct Hall as [_ Hall].
    apply Forall_cons in Hall. destruct Hall as [(Ht0 & _ & Htl & Htr) _].
    pose proof (index_in_span t Ht0) as Hin.
    set (M := (leftSpan t - (offset + 2 * 2 ^ k)) / 2) in *.
    assert (HM : 0 <= M < 2 ^ k).
    { subst M. split; [apply Z.div_pos; lia|].
      apply Z.div_lt_upper_bound; lia. }
    assert (HMe : (leftSpan t - offset) / 2 = 2 ^ k + M).
    { subst M. replace (leftSpan t - offset)
        with ((leftSpan t - (offset + 2 * 2 ^ k)) + 2 ^ k * 2) by lia.
      rewrite Z.div_add by lia. lia. }
    rewrite HMe.
    assert (Hlog : Z.log2 (2 ^ k + M) = k).
    { apply Z.log2_unique; [assumption|]. rewrite Z.pow_succ_r by assumption. lia. }
    rewrite (rootsOf_eq (2 ^ k + M) offset) by lia. rewrite Hlog.
    rewrite <- Hh. f_equal. rewrite Hl1. f_equal. lia.
Qed.

(** The roots of the leaves between the left end of a subtree and a leaf
    inside it are siblings on the way from the leaf up. *)
Lemma roots_inside (k : Z) :
  0 <= k ->
  forall o r,
    0 <= o -> 0 <= r < 2 ^ k ->
    Forall (fun j => exists t, 0 <= t < k
                               /\ j = sibling (index t ((o * 2 ^ k + r) / 2 ^ t)))
           (rootsOf r (2 * (o * 2 ^ k))).
Proof.
  intros Hk0. pattern k. apply Z_lt_induction; [|exact Hk0].
  clear k Hk0. intros k IH o r Ho Hr.
  destruct (Z.leb_spec r 0) as [Hle|Hpos].
  { rewrite rootsOf_0 by assumption. constructor. }
  assert (Hk : 0 <= k).
  { destruct (Z.le_gt_cases 0 k); [assumption|]. rewrite Z.pow_neg_r in Hr by lia. lia. }
  rewrite (rootsOf_eq r _ Hpos).
  destruct (Z.log2_spec r Hpos) as [Hlo Hhi].
  pose proof (Z.log2_nonneg r) as HK0.
  set (K := Z.log2 r) in *.
  assert (HKk : K < k).
  { destruct Hr as [_ Hr]. apply Z.log2_lt_pow2 in Hr; [subst K; lia|assumption]. }
  rewrite Z.pow_succ_r in Hhi by assumption.
  pose proof (pow2_pos K HK0) as HpK.
  assert (Hsplit : 2 ^ k = 2 * 2 ^ (k - K - 1) * 2 ^ K).
  { replace k with ((k - K - 1) + 1 + K) at 1 by lia.
    rewrite !Z.pow_add_r by lia. change (2 ^ 1) with 2. lia. }
  pose proof (pow2_pos (k - K - 1) ltac:(lia)) as Hpe.
  set (e := 2 ^ (k - K - 1)) in *.
  set (o' := 2 * (o * e) + 1).
  assert (Hi : o * 2 ^ k + r = o' * 2 ^ K + (r - 2 ^ K)) by (subst o'; nia).
  constructor.
  - exists K. split; [lia|].
    assert (Hdiv : (o * 2 ^ k + r) / 2 ^ K = o').
    { rewrite Hi. rewrite Z.div_add_l by lia. rewrite Z.div_small by lia. lia. }
    rewrite Hdiv, sibling_index by (subst o'; nia).
    assert (Hodd : Z.even o' = false).
    { subst o'. rewrite Z.even_add, Z.even_mul. reflexivity. }
    rewrite Hodd. pose proof (index_succ K (o' - 1)). subst o'. nia.
  - assert (Hoff : 2 * (o * 2 ^ k) + 2 * 2 ^ K = 2 * (o' * 2 ^ K)) by (subst o'; nia).
    rewrite Hoff.
    pose proof (IH K ltac:(lia) o' (r - 2 ^ K) ltac:(subst o'; nia) ltac:(lia)) as Hall.
    eapply Forall_impl; [exact Hall|]. cbv beta.
    intros j (t & Ht & Hj). exists t. split; [lia|]. rewrite Hi. exact Hj.
Qed.

End before_facts.

Section bare_offset.
Context `{Crypto}.
Import storage_node flat_facts.

(** Where the siblings taken in lie, and where the climb ends. *)
Lemma along_indices (sibs : list (Node digest)) :
  forall top d a,
    0 <= d -> 0 <= a -> index top = flat.index d a ->
    along top sibs = true ->
    index (climb top sibs)
    = flat.index (d + Z.of_nat (List.length sibs)) (a / 2 ^ Z.of_nat (List.length sibs))
    /\ forall t, 0 <= t < Z.of_nat (List.length sibs) ->
                 In (flat.sibling (flat.index (d + t) (a / 2 ^ t))) (map index sibs).
Proof.
  induction sibs as [|sib sibs IH]; intros top d a Hd Ha Htop Halong.
  - cbn [climb List.length map]. split; [|intros t Ht; cbn in Ht; lia].
    change (Z.of_nat 0) with 0. rewrite Z.add_0_r, Z.pow_0_r, Z.div_1_r. exact Htop.
  - cbn [along] in Halong. apply andb_prop in Halong. destruct Halong as [Hsib Halong].
    apply Z.eqb_eq in Hsib.
    assert (Hjoin : index (join top sib) = flat.index (d + 1) (a / 2)).
    { cbn [join index]. rewrite Htop. apply parent_index; assumption. }
    destruct (IH (join top sib) (d + 1) (a / 2) ltac:(lia)
                 ltac:(apply Z.div_pos; lia) Hjoin Halong) as [Hc Hs].
    cbn [climb List.length map]. rewrite Nat2Z.inj_succ.
    set (n := Z.of_nat (List.length sibs)) in *.
    assert (Hn : 0 <= n) by (subst n; lia).
    assert (Hdiv : forall t, 0 <= t -> a / 2 / 2 ^ t = a / 2 ^ (t + 1)).
    { intros t Ht. rewrite Z.div_div by (try lia; apply pow2_pos; lia).
      rewrite (put_facts.pow2_succ t) by assumption. reflexivity. }
    split.
    + rewrite Hc, Hdiv by assumption. f_equal; lia.
    + intros t Ht. destruct (Z.eq_dec t 0) as [->|Hne].
      * left. rewrite Hsib, Htop, Z.add_0_r, Z.pow_0_r, Z.div_1_r. reflexivity.
      * right. specialize (Hs (t - 1) ltac:(lia)).
        rewrite Hdiv in Hs by lia.
        replace (d + 1 + (t - 1)) with (d + t) in Hs by lia.
        replace (t - 1 + 1) with t in Hs by lia. exact Hs.
Qed.

(** A proof that holds the siblings up to a root and the roots before it
    holds the roots of the blocks before its block: the place of the block
    in the data file can be read off the proof. *)
Lemma proof_holds_offset (i v : Z) (leaf : Node digest)
    (sibs before after : list (Node digest)) :
  0 <= i -> index leaf = 2 * i ->
  along leaf sibs = true ->
  map index (before ++ climb leaf sibs :: after) = flat.fullRoots v ->
  forall j, In j (flat.fullRoots (2 * i)) -> In j (map index (sibs ++ before)).
Proof.
  intros Hi Hleaf Halong Hroots j Hj.
  destruct (along_indices sibs leaf 0 i ltac:(lia) Hi
              ltac:(rewrite index_leaf; exact Hleaf) Halong) as [Htop Hsibs].
  set (k := Z.of_nat (List.length sibs)) in *.
  assert (Hk : 0 <= k) by (subst k; lia).
  pose proof (pow2_pos k Hk) as Hpk.
  set (o := i / 2 ^ k) in *. set (r := i mod 2 ^ k).
  assert (Ho : 0 <= o) by (subst o; apply Z.div_pos; lia).
  assert (Hr : 0 <= r < 2 ^ k) by (subst r; apply Z.mod_pos_bound; lia).
  assert (Hsum : i = o * 2 ^ k + r).
  { subst o r. rewrite (Z.div_mod i (2 ^ k)) at 1 by lia. lia. }
  rewrite Z.add_0_l in Htop.
  (* the roots before the top *)
  assert (Hbefore : map index before = rootsOf (o * 2 ^ k) 0).
  { change (flat.fullRoots v) with (rootsOf (v / 2) 0) in Hroots.
    rewrite map_app in Hroots. cbn [map] in Hroots. symmetry in Hroots.
    destruct (Z.leb_spec (v / 2) 0) as [Hle|Hpos].
    { rewrite roots_facts.rootsOf_0 in Hroots by assumption.
      destruct (map index before); discriminate. }
    rewrite (before_facts.roots_prefix (v / 2) ltac:(lia) (v / 2) 0 0 _ _ _
               ltac:(lia) ltac:(apply Z.pow_gt_lin_r; lia) ltac:(lia) ltac:(lia) Hroots).
    rewrite Htop, leftSpan_index by assumption.
    rewrite (put_facts.pow2_succ k) by assumption. f_equal.
    replace (o * (2 * 2 ^ k) - 0) with (o * 2 ^ k * 2) by lia.
    apply Z.div_mul. lia. }
  rewrite roots_facts.fullRoots_rootsOf, Hsum in Hj.
  rewrite (before_facts.rootsOf_split (o * 2 ^ k) ltac:(nia) k o r 0 Hk Ho eq_refl Hr) in Hj.
  rewrite map_app, in_app_iff. apply in_app_iff in Hj. destruct Hj as [Hj|Hj].
  - right. rewrite Hbefore. exact Hj.
  - left. rewrite Z.add_0_l in Hj.
    pose proof (before_facts.roots_inside k Hk o r Ho Hr) as Hall.
    rewrite Forall_forall in Hall.
    destruct (Hall j ltac:(apply list_elem_of_In; exact Hj)) as (t & Ht & ->).
    rewrite <- Hsum. specialize (Hsibs t Ht). rewrite Z.add_0_l in Hsibs. exact Hsibs.
Qed.

End bare_offset.

(** X21 (a receiver that holds nothing takes a well-formed proof).  Take an
    open feed with a key that holds no tree node and has length 0, a block,
    and a proof made of the siblings on the way from the leaf of the block
    up to a top, followed by the other full roots of the tree, with a
    signature.  When the top and these roots are, in order, the full roots
    at [verifiedBy], the signature is valid for the hash of these roots
    under the key of the feed, and no node sent has a negative size, then
    [put] succeeds.  Afterwards the feed is live, its length is
    [verifiedBy / 2] and its byteLength the bytes the roots cover; the
    signature is stored in the last slot and the roots are stored, so that
    the feed can hand out proofs of its own; and [get] of the index returns
    the block. *)
Theorem bare_reader_accepts :
  forall `{Crypto} `{TreeIndex} (value : Type) (codec : Codec value)
         (keyPair : digest * secret) (s : Feed.t) (index : Z) (v : value)
         (p : MerkleProof) (sibs before after : list (Node digest))
         (sg : signature) (pk : digest) (wait : bool) (cb : nat),
    Feed.opened s = true ->
    (forall j, bits.get (Feed.tree s) j = false) ->
    Feed.length s = 0 ->
    Feed.key s = Some pk ->
    0 <= index ->
    let leaf := mkNode (2 * index) (hash.data (encode codec v))
                       (Z.of_nat (List.length (encode codec v))) in
    let top := climb leaf sibs in
    let roots := before ++ top :: after in
    let verifiedBy := verifiedBy_of top (before ++ after) in
    nodes p = sibs ++ before ++ after ->
    along leaf sibs = true ->
    map storage_node.index roots = flat.fullRoots verifiedBy ->
    proof_signature p = Some sg ->
    verify (hash.tree roots) sg pk = true ->
    Forall (fun n => 0 <= storage_node.size n) (nodes p) ->
    exists s',
      put codec keyPair s index v p = Some (Ok tt, s')
      /\ 2 * Feed.length s' = verifiedBy
      /\ Feed.byteLength s' = sizes roots
      /\ Feed.live s' = true
      /\ storage.getSignature (Feed._storage s') (Feed.length s' - 1) = Some sg
      /\ _roots s' (Feed.length s') = Ok roots
      /\ get codec s' index wait cb
         = (Done (Ok (if binary codec then Raw (encode codec v)
                      else Value (decode codec (encode codec v)))), s').
Proof.
  intros C T value codec keyPair s index v p sibs before after sg pk wait cb
         Hop Hbare Hlen Hkey Hi leaf top roots verifiedBy Hnodes Halong Hroots Hsig
         Hverify Hsizes.
  assert (Hhas : forall j, In j (flat.fullRoots (2 * index)) ->
                           In j (map storage_node.index (nodes p))).
  { intros j Hj. rewrite Hnodes, app_assoc, map_app, in_app_iff. left.
    exact (proof_holds_offset index verifiedBy leaf sibs before after Hi eq_refl
             Halong Hroots j Hj). }
  assert (Hleaf : 0 <= storage_node.index leaf) by (cbn; lia).
  destruct (roots_apart verifiedBy before after top Hroots) as (Htop & Hapart & Hnd).
  destruct (trail_inside sibs leaf Hleaf Halong) as (Htrail & Hd & Hl & Hr & Hndt).
  fold top in Htrail, Hd, Hl, Hr.
  (* the plan finds nothing to trust *)
  unfold put, _ready. rewrite Hop. unfold _putBuffer.
  destruct (putBuffer_load_total s index (nodes p) Hi) as [r Hload].
  rewrite Hload. apply (putBuffer_load_bare _ _ _ _ Hbare) in Hload. subst r.
  (* the climb ends on the top *)
  unfold _verifyAndWrite, verify_climb. cbn [verifyNode]. fold leaf.
  assert (Hstop : shift_if (before ++ after)
                           (flat.sibling (storage_node.index top)) = None).
  { destruct (before ++ after) as [|r rest]; [reflexivity|].
    inversion Hapart as [|? ? (_ & Hdr & _) _]; subst. cbn [shift_if].
    destruct (Z.eqb_spec (storage_node.index r) (flat.sibling (storage_node.index top)))
      as [Heq|]; [|reflexivity].
    rewrite Heq, flat_facts.depth_sibling in Hdr by assumption. contradiction. }
  rewrite Hnodes.
  rewrite (verify_loop_climb sibs _ leaf (before ++ after) [] Halong Hstop)
    by (rewrite length_app; cbn; lia).
  fold top. cbn [app].
  (* every root is at hand and the signature holds *)
  unfold _verifyRootsAndWrite. fold verifiedBy. rewrite <- Hroots. subst roots.
  rewrite collect_roots_sent
    by (eapply Forall_impl; [exact Hapart|]; cbv beta; intros r (_ & Hdr & _) Heq;
        rewrite Heq in Hdr; contradiction).
  cbn [not_read not_sent roots written].
  rewrite Hlen, Hsig, Hkey, Hverify. cbn [Z.eqb negb andb is_some].
  fproj. rewrite Hlen.
  assert (Hv : 0 < verifiedBy / 2 /\ 2 * (verifiedBy / 2) = verifiedBy).
  { subst verifiedBy. unfold verifiedBy_of.
    set (lastNode := match last (before ++ after) with
                     | Some n => storage_node.index n
                     | None => storage_node.index top
                     end).
    assert (Hlast : 0 <= lastNode).
    { subst lastNode. destruct (last (before ++ after)) as [n|] eqn:Hlast; [|exact Htop].
      apply last_Some in Hlast. destruct Hlast as [l' Hl'].
      rewrite Hl' in Hapart. apply Forall_app in Hapart. destruct Hapart as [_ Hn].
      inversion Hn as [|? ? (Hn0 & _) _]; subst. exact Hn0. }
    pose proof (span_facts.rightSpan_nonneg _ Htop) as Hr1.
    pose proof (span_facts.rightSpan_nonneg _ Hlast) as Hr2.
    pose proof (span_facts.rightSpan_even _ Htop) as He1.
    pose proof (span_facts.rightSpan_even _ Hlast) as He2.
    apply Zeven_bool_iff in He1, He2.
    destruct (Zeven_ex _ He1) as [a Ha]. destruct (Zeven_ex _ He2) as [b Hb].
    rewrite Ha, Hb.
    replace (Z.max (2 * a) (2 * b) + 2) with ((Z.max a b + 1) * 2) by lia.
    rewrite Z.div_mul by lia. lia. }
  destruct Hv as [Hvpos Hveven].
  destruct (Z.ltb_spec 0 (verifiedBy / 2)) as [_|]; [|lia].
  (* the nodes to write: no two share an index *)
  set (ns := trail leaf sibs ++ before ++ top :: after).
  assert (Hin_nodes : forall x, In x (nodes p) -> In x ns).
  { intros x Hx. rewrite Hnodes in Hx. subst ns.
    rewrite !in_app_iff in Hx. rewrite !in_app_iff. cbn [In].
    destruct Hx as [Hx|[Hx|Hx]]; auto using trail_sibs. }
  assert (Hin_leaf : In leaf ns).
  { subst ns. pose proof (trail_start sibs leaf) as Hs. fold top in Hs.
    rewrite in_app_iff in Hs. rewrite !in_app_iff. cbn [In] in *.
    destruct Hs as [Hs|[Hs|[]]]; auto. }
  assert (Hin_roots : forall x, In x (before ++ top :: after) -> In x ns).
  { intros x Hx. subst ns. rewrite in_app_iff. right. exact Hx. }
  assert (Hns_sizes : Forall (fun n => 0 <= storage_node.size n) ns).
  { rewrite Hnodes in Hsizes. apply Forall_app in Hsizes. destruct Hsizes as [Hs1 Hs2].
    apply Forall_app in Hs2. destruct Hs2 as [Hs2 Hs3].
    destruct (trail_sizes sibs leaf ltac:(cbn; lia) Hs1) as [Ht1 Ht2]. fold top in Ht2.
    subst ns. apply Forall_app. split; [exact Ht1|].
    apply Forall_app. split; [exact Hs2|]. constructor; assumption. }
  assert (Hns : NoDup (map storage_node.index ns)).
  { subst ns. rewrite map_app. apply NoDup_app. split; [exact Hndt|]. split.
    - intros j Hj1 Hj2.
      apply list_elem_of_In, in_map_iff in Hj1. destruct Hj1 as (x & <- & Hx).
      apply list_elem_of_In, in_map_iff in Hj2. destruct Hj2 as (r & Heq & Hinr).
      rewrite Forall_forall in Htrail.
      destruct (Htrail x ltac:(apply list_elem_of_In; exact Hx)) as (_ & Hdx & Hspan).
      rewrite in_app_iff in Hinr. cbn [In] in Hinr.
      assert (Hcase : r = top \/ In r (before ++ after))
        by (rewrite in_app_iff; destruct Hinr as [?|[?|?]]; auto).
      destruct Hcase as [->|Hr'].
      + rewrite Heq in Hdx. lia.
      + rewrite Forall_forall in Hapart.
        destruct (Hapart r ltac:(apply list_elem_of_In; exact Hr')) as (_ & _ & Hout).
        rewrite Heq in Hout. contradiction.
    - rewrite Hroots. apply all_ordered_NoDup, span_facts.fullRoots_shape. }
  (* the block finds its place in the data file *)
  set (s1 := Feed.with_byteLength _ _).
  assert (Hs1 : Feed._storage s1 = Feed._storage s /\ Feed.length s1 = verifiedBy / 2
                /\ Feed.byteLength s1 = fold_left addSize (before ++ top :: after) 0
                /\ Feed.live s1 = true /\ Feed.bitfield s1 = Feed.bitfield s)
    by (subst s1; fproj; repeat split; reflexivity).
  destruct Hs1 as (Hst1 & Hl1 & Hb1 & Hlive1 & Hbf1). clearbody s1.
  set (st := Feed._storage s) in *.
  destruct (sumSizes_written ns st (putNodes ns st) (flat.fullRoots (2 * index))
              Hns Hns_sizes eq_refl) as (offset & Hoff0 & Hcached & _).
  { intros j Hj. apply Hhas in Hj. apply in_map_iff in Hj.
    destruct Hj as (x & <- & Hx). apply in_map, Hin_nodes. exact Hx. }
  assert (Hput : storage.putData (putNodes ns (Feed._storage s1)) index (encode codec v) ns
                 = Some (storage.write_data (putNodes ns st) offset (encode codec v))).
  { rewrite Hst1. unfold storage.putData, storage.dataOffset. rewrite Hcached.
    unfold storage.lookupNode.
    change (2 * index) with (storage_node.index leaf).
    rewrite (findNode_unique ns leaf Hns Hin_leaf). reflexivity. }
  destruct (_write_done s1 index (encode codec v) ns (Some (verifiedBy / 2 - 1, sg)) _ Hput)
    as (s' & Hwrite & Hl' & Hb' & Hlive' & Hbf' & Htree' & Hdata' & Hsigs').
  exists s'. split; [exact Hwrite|].
  rewrite Hl', Hl1, Hb', Hb1, Hlive', Hlive1.
  split; [exact Hveven|]. split; [rewrite addSize_sizes; lia|]. split; [reflexivity|].
  cbn [storage.write_data storage.tree storage.data storage.signatures] in Htree', Hdata', Hsigs'.
  split; [|split].
  - unfold storage.getSignature. rewrite Hsigs'. apply lookup_insert_eq.
  - unfold _roots. rewrite Hveven, <- Hroots.
    rewrite (getNodes_tree (putNodes ns st) (Feed._storage s') _ Htree').
    rewrite getNodes_stored; [reflexivity|].
    rewrite Forall_forall. intros r Hinr. apply putNodes_stored; [exact Hns|].
    apply Hin_roots, list_elem_of_In. exact Hinr.
  - unfold get. rewrite Hbf', bits_get_set, Z.eqb_refl by assumption. cbn [negb].
    destruct (sumSizes_written ns st (Feed._storage s') (flat.fullRoots (2 * index))
                Hns Hns_sizes Htree') as (offset' & _ & Hcached' & Hstored).
    { intros j Hj. apply Hhas in Hj. apply in_map_iff in Hj.
      destruct Hj as (x & <- & Hx). apply in_map, Hin_nodes. exact Hx. }
    rewrite Hcached in Hcached'. injection Hcached' as <-.
    assert (Hdata : storage.getData (Feed._storage s') index = Some (encode codec v)).
    { unfold storage.getData, storage.dataOffset. rewrite Hstored.
      unfold storage.lookupNode. cbn [storage.findNode find].
      pose proof (putNodes_stored ns st leaf Hns Hin_leaf) as Hleaf_stored.
      unfold stored, storage.getNode in Hleaf_stored. unfold storage.getNode.
      change (2 * index) with (storage_node.index leaf).
      rewrite Htree', Hleaf_stored, Hdata'.
      apply raf_facts.read_write. exact Hoff0. }
    rewrite Hdata. reflexivity.
Qed.

Lemma bare_reader_accepts_witness :
  exists s',
    put utf8 example.kp example.fresh_reader 0 "hello"%string (example.proof_of 0)
    = Some (Ok tt, s')
    /\ 2 * Feed.length s' = 4
    /\ Feed.byteLength s' = 10
    /\ get utf8 s' 0 true 0 = (Done (Ok (Value "hello"%string)), s').
Proof.
  assert (Hbare : forall j, bits.get (Feed.tree example.fresh_reader) j = false).
  { intros j. change (Feed.tree example.fresh_reader) with (@nil bool).
    unfold bits.get. destruct (j <? 0); [reflexivity|]. destruct (Z.to_nat j); reflexivity. }
  destruct (@bare_reader_accepts ideal.crypto tree_index.reference string utf8
              example.kp example.fresh_reader 0 "hello"%string (example.proof_of 0)
              (nodes (example.proof_of 0)) [] []
              (ideal.Root 1
                 (ideal.Parent 10 (ideal.Leaf (list_byte_of_string "hello"))
                                  (ideal.Leaf (list_byte_of_string "world")))
                 10 ideal.NoRoot, 7)
              (ideal.Public 7) true 0 eq_refl Hbare eq_refl eq_refl ltac:(lia)
              ltac:(vm_compute; reflexivity) ltac:(vm_compute; reflexivity)
              ltac:(vm_compute; reflexivity) ltac:(vm_compute; reflexivity)
              ltac:(vm_compute; reflexivity))
    as (s' & Hput & Hlen & Hbytes & _ & _ & _ & Hget).
  - vm_compute. repeat constructor; discriminate.
  - exists s'. split; [exact Hput|]. split; [exact Hlen|]. split; [exact Hbytes|exact Hget].
Defined.
